(** * A shallow embedding of the trading-system plumbing

  The development follows the Python sources file by file:

  - [Text]: the Python [bytes]/[str] operations the sources call
    ([find], slicing, [strip], UTF-8 [encode]/[decode]);
  - [Net]: sockets as the outcomes of successive [recv] calls, and the
    exceptions the sources raise and catch;
  - [OrderBook], [OrderManager], [Strategy]: the framed readers and the
    connection loops of the three consumers;
  - [SharedMemoryUtils]: [SharedPriceBook] over a named shared segment. *)

From Stdlib Require Import ZArith NArith Lia Bool.
From Stdlib Require Import Strings.Byte Strings.Ascii Strings.String.
From Stdlib Require Import Floats.SpecFloat.
From stdpp Require Import base list gmap sorting.

Local Open Scope Z_scope.

Set Warnings "-register-all".

(** ** Python text and bytes *)
Module Text.

(** A [bytes] object. *)
Definition bytes := list byte.

(** A [str] object: its code points. *)
Definition str := list N.

#[global] Instance byte_eq_dec : EqDecision byte := Byte.byte_eq_dec.

(** An ASCII literal as [bytes] and as [str]. *)
Definition b (s : string) : bytes := list_byte_of_string s.
Definition u (s : string) : str := Byte.to_N <$> list_byte_of_string s.

Section Sequences.
Context {A : Type} `{EqDecision A}.

(** [s.startswith(sub)]. *)
Fixpoint startswith (sub s : list A) : bool :=
  match sub, s with
  | [], _ => true
  | _ :: _, [] => false
  | x :: sub', y :: s' => if decide (x = y) then startswith sub' s' else false
  end.

(** Lowest offset at which [sub] occurs in [s], counted from [i]. *)
Fixpoint find_aux (sub s : list A) (i : nat) : option nat :=
  if startswith sub s then Some i
  else match s with
       | [] => None
       | _ :: s' => find_aux sub s' (S i)
       end.

(** [s.find(sub, start)] for [start >= 0]; [-1] when there is no match. *)
Definition find_from (sub s : list A) (start : Z) : Z :=
  if Z.of_nat (length s) <? start then -1
  else match find_aux sub (drop (Z.to_nat start) s) (Z.to_nat start) with
       | Some i => Z.of_nat i
       | None => -1
       end.

(** [s.find(sub)]. *)
Definition find (sub s : list A) : Z := find_from sub s 0.

(** [sub in s]. *)
Definition contains (sub s : list A) : bool :=
  negb (find sub s =? -1).

(** [s[lo:hi]] for indices [lo, hi >= 0]. *)
Definition slice (s : list A) (lo hi : Z) : list A :=
  take (Z.to_nat hi - Z.to_nat lo)%nat (drop (Z.to_nat lo) s).

(** [s[:hi]] and [s[lo:]] for indices [>= 0]. *)
Definition slice_to (s : list A) (hi : Z) : list A := take (Z.to_nat hi) s.
Definition slice_from (s : list A) (lo : Z) : list A := drop (Z.to_nat lo) s.
End Sequences.

(** *** UTF-8 *)

Definition byte_of_N (n : N) : byte :=
  match Byte.of_N n with Some x => x | None => x00 end.

Definition is_surrogate (c : N) : bool := ((0xD800 <=? c) && (c <=? 0xDFFF))%N.

(** The UTF-8 form of one code point; [None] is [UnicodeEncodeError]
    (a surrogate) or a value that is no code point. *)
Definition utf8_encode_char (c : N) : option bytes :=
  (if c <? 0x80 then Some [byte_of_N c]
   else if c <? 0x800 then
     Some [byte_of_N (0xC0 + c / 64); byte_of_N (0x80 + c mod 64)]
   else if c <? 0x10000 then
     if is_surrogate c then None
     else Some [byte_of_N (0xE0 + c / 4096);
                byte_of_N (0x80 + (c / 64) mod 64);
                byte_of_N (0x80 + c mod 64)]
   else if c <? 0x110000 then
     Some [byte_of_N (0xF0 + c / 262144);
           byte_of_N (0x80 + (c / 4096) mod 64);
           byte_of_N (0x80 + (c / 64) mod 64);
           byte_of_N (0x80 + c mod 64)]
   else None)%N.

(** [s.encode('utf-8')]. *)
Fixpoint encode (s : str) : option bytes :=
  match s with
  | [] => Some []
  | c :: s' =>
      match utf8_encode_char c, encode s' with
      | Some bs, Some bs' => Some (bs ++ bs')
      | _, _ => None
      end
  end.

Definition is_continuation (x : byte) : bool :=
  ((0x80 <=? Byte.to_N x) && (Byte.to_N x <=? 0xBF))%N.

Definition low6 (x : byte) : N := (Byte.to_N x - 0x80)%N.

(** [bs.decode('utf-8')] in strict mode; [None] is [UnicodeDecodeError].
    Overlong forms, surrogates and values above U+10FFFF are refused. *)
Fixpoint decode (bs : bytes) : option str :=
  match bs with
  | [] => Some []
  | b0 :: r0 =>
      let n0 := Byte.to_N b0 in
      if (n0 <? 0x80)%N then cons n0 <$> decode r0
      else if (n0 <? 0xC2)%N then None
      else if (n0 <? 0xE0)%N then
        match r0 with
        | b1 :: r1 =>
            if is_continuation b1
            then cons ((n0 - 0xC0) * 64 + low6 b1)%N <$> decode r1
            else None
        | _ => None
        end
      else if (n0 <? 0xF0)%N then
        match r0 with
        | b1 :: b2 :: r2 =>
            let c := ((n0 - 0xE0) * 4096 + low6 b1 * 64 + low6 b2)%N in
            if is_continuation b1 && is_continuation b2
               && (0x800 <=? c)%N && negb (is_surrogate c)
            then cons c <$> decode r2
            else None
        | _ => None
        end
      else if (n0 <? 0xF5)%N then
        match r0 with
        | b1 :: b2 :: b3 :: r3 =>
            let c := ((n0 - 0xF0) * 262144 + low6 b1 * 4096
                      + low6 b2 * 64 + low6 b3)%N in
            if is_continuation b1 && is_continuation b2 && is_continuation b3
               && (0x10000 <=? c)%N && (c <? 0x110000)%N
            then cons c <$> decode r3
            else None
        | _ => None
        end
      else None
  end.


End Text.

Import Text.

(** ** Exceptions *)
Module Py.

(** The exception classes the sources raise or catch.  All of them are
    subclasses of [Exception]; [FileNotFoundError], [FileExistsError],
    [ConnectionResetError], [ConnectionRefusedError] and [BlockingIOError]
    are subclasses of [OSError], [UnicodeDecodeError] and [JSONDecodeError]
    of [ValueError]. *)
Inductive exn :=
| SocketStreamClosed
| ConnectionResetError
| ConnectionRefusedError
| BlockingIOError
| FileNotFoundError
| FileExistsError
| OSError
| UnicodeDecodeError
| JSONDecodeError
| ValueError
| KeyError
| IndexError
| TypeError
| OverflowError
| BufferError.

#[global] Instance exn_eq_dec : EqDecision exn.
Proof. solve_decision. Defined.

(** [isinstance(e, ValueError)]. *)
Definition is_ValueError (e : exn) : bool :=
  match e with
  | ValueError | UnicodeDecodeError | JSONDecodeError => true
  | _ => false
  end.

(** The outcome of a call that may raise. *)
Inductive result (A : Type) :=
| Return (a : A)
| Raise (e : exn).
#[global] Arguments Return {A} a.
#[global] Arguments Raise {A} e.

(** Sequencing: an exception ends the computation. *)
#[global] Instance result_bind : MBind result :=
  λ A B f r, match r with Return a => f a | Raise e => Raise e end.

(** A binary64 value ([float], numpy [f8]). *)
Definition float := spec_float.

#[global] Instance float_eq_dec : EqDecision float.
Proof. solve_decision. Defined.

(** [0.0]. *)
Definition zero : float := S754_zero false.

(** A [dict] in insertion order: assigning to a key that is present keeps
    its place. *)
Fixpoint dict_set {K V : Type} `{EqDecision K} (d : list (K * V)) (k : K) (v : V)
  : list (K * V) :=
  match d with
  | [] => [(k, v)]
  | (k', v') :: d' =>
      if decide (k = k') then (k', v) :: d' else (k', v') :: dict_set d' k v
  end.

Fixpoint dict_get {K V : Type} `{EqDecision K} (d : list (K * V)) (k : K) : option V :=
  match d with
  | [] => None
  | (k', v') :: d' => if decide (k = k') then Some v' else dict_get d' k
  end.

End Py.

Import Py.

(** ** Sockets *)
Module Net.

(** What one [sock.recv(4096)] call gives: the bytes read ([b''] when the
    peer has closed), or the exception it raises. *)
Inductive recv_outcome :=
| RecvBytes (chunk : bytes)
| RecvBlockingIOError
| RecvConnectionResetError
| RecvOSError.

(** A connected socket, seen from the reader: the outcomes of its successive
    [recv] calls.  Once they are used up the peer has closed, and [recv]
    returns [b'']. *)
Definition socket := list recv_outcome.

(** The single-byte delimiter [b'\n']. *)
Definition MESSAGE_DELIMITER : bytes := ["010"%byte].

(** The number of [recv] outcomes of a socket plus the number of bytes in
    them. *)
Definition socket_size (sock : socket) : nat :=
  foldr (λ o n, match o with
                | RecvBytes chunk => S (length chunk + n)
                | _ => S n
                end) O sock.

(** What one [connect(...)] call of a client does. *)
Inductive connect_outcome :=
| Connects (sock : socket)
| ConnectRaises (e : exn).

End Net.

Import Net.

(** ** Python [float] from text *)
Module PyFloat.

Definition prec : Z := 53.
Definition emax : Z := 1024.

(** [c.isspace()] for one code point. *)
Definition isspace (c : N) : bool :=
  ((9 <=? c) && (c <=? 13) || (28 <=? c) && (c <=? 32)
   || (c =? 0x85) || (c =? 0xA0) || (c =? 0x1680)
   || (0x2000 <=? c) && (c <=? 0x200A)
   || (c =? 0x2028) || (c =? 0x2029) || (c =? 0x202F)
   || (c =? 0x205F) || (c =? 0x3000))%N.

Fixpoint lstrip (s : str) : str :=
  match s with
  | c :: s' => if isspace c then lstrip s' else s
  | [] => []
  end.

(** [s.strip()]. *)
Definition strip (s : str) : str := reverse (lstrip (reverse (lstrip s))).

Definition is_digit (c : N) : bool := ((48 <=? c) && (c <=? 57))%N.

(** The value of a run of ASCII digits. *)
Definition digits_value (ds : str) : Z :=
  foldl (λ acc c, 10 * acc + (Z.of_N c - 48)) 0 ds.

(** The longest prefix of ASCII digits, and what follows it. *)
Fixpoint span_digits (s : str) : str * str :=
  match s with
  | c :: s' =>
      if is_digit c then let '(ds, r) := span_digits s' in (c :: ds, r)
      else ([], s)
  | [] => ([], [])
  end.

(** Underscores may only stand between two digits; they are then dropped. *)
Fixpoint underscores_ok (prev_digit : bool) (s : str) : bool :=
  match s with
  | [] => true
  | c :: s' =>
      if (c =? 95)%N then
        prev_digit && match s' with d :: _ => is_digit d | [] => false end
        && underscores_ok false s'
      else underscores_ok (is_digit c) s'
  end.

Definition drop_underscores (s : str) : str :=
  filter (λ c, c ≠ 95%N) s.

(** [m * 10^e], rounded to the nearest binary64 value (ties to even), with
    the sign [neg]. *)
Definition of_decimal (neg : bool) (m : Z) (e : Z) : float :=
  match m with
  | Zpos p =>
      if 0 <=? e then binary_round prec emax neg (Z.to_pos (Zpos p * 10 ^ e)) 0
      else SFdiv prec emax (S754_finite neg p 0)
                 (S754_finite false (Z.to_pos (10 ^ (- e))) 0)
  | _ => S754_zero neg
  end.

(** ASCII lower case. *)
Definition lower (c : N) : N :=
  if ((65 <=? c) && (c <=? 90))%N then (c + 32)%N else c.

(** An optional sign: whether it is [-], and what follows it. *)
Definition split_sign (s : str) : bool * str :=
  match s with
  | c :: s' =>
      if (c =? 45)%N then (true, s')
      else if (c =? 43)%N then (false, s')
      else (false, s)
  | [] => (false, s)
  end.

(** The optional exponent part of a literal.  [e] or [E] not followed by
    an exponent is left unread, and fails the conversion as trailing text. *)
Definition read_exponent (s : str) : Z * str :=
  match s with
  | c :: s' =>
      if (lower c =? 101)%N then
        let '(neg, s'') := split_sign s' in
        match span_digits s'' with
        | ([], _) => (0, s)
        | (ds, r) => ((if neg then - digits_value ds else digits_value ds), r)
        end
      else (0, s)
  | [] => (0, s)
  end.

(** [float(s)] for a [str]; [None] is [ValueError].  Leading and trailing
    whitespace is ignored; the text is a signed decimal literal, [inf],
    [infinity] or [nan].  Digits are the ASCII ones (decimal digits of other
    scripts, which [float] reads as well, are left out: on text with such
    digits this function gives [None]). *)
Definition py_float (s : str) : option float :=
  let s := strip s in
  if negb (underscores_ok false s) then None else
  let '(neg, body) := split_sign (drop_underscores s) in
  let word := lower <$> body in
  if decide (word = u "inf" ∨ word = u "infinity") then Some (S754_infinity neg)
  else if decide (word = u "nan") then Some S754_nan
  else
    let '(ipart, r1) := span_digits body in
    let '(fpart, r2) :=
      match r1 with
      | c :: r => if (c =? 46)%N then span_digits r else ([], r1)
      | [] => ([], r1)
      end in
    match ipart ++ fpart with
    | [] => None
    | ds =>
        let '(e, r3) := read_exponent r2 in
        match r3 with
        | [] => Some (of_decimal neg (digits_value ds)
                                 (e - Z.of_nat (length fpart)))
        | _ => None
        end
    end.

(** *** [float.__repr__] *)

(** The decimal digits of [n], most significant first. *)
Fixpoint digits_fuel (fuel : nat) (n : N) : str :=
match fuel with
| O => []
| S fuel' =>
    if (n <? 10)%N then [(48 + n)%N]
    else digits_fuel fuel' (n / 10)%N ++ [(48 + n mod 10)%N]
end.

Definition digits (n : N) : str := digits_fuel (S (N.to_nat (N.log2 n))) n.

(** [str(n)] for an [int]. *)
Definition int_repr (n : Z) : str :=
match n with
| Zneg p => 45%N :: digits (Npos p)
| _ => digits (Z.to_N n)
end.

(** [x] as a fraction, for a positive finite [x = m * 2^e]. *)
Definition fraction (m : positive) (e : Z) : Z * Z :=
if 0 <=? e then (Zpos m * 2 ^ e, 1) else (Zpos m, 2 ^ (- e)).

(** [num/den * 10^q] as a fraction. *)
Definition scale10 (nd : Z * Z) (q : Z) : Z * Z :=
if 0 <=? q then (nd.1 * 10 ^ q, nd.2) else (nd.1, nd.2 * 10 ^ (- q)).

(** The [k] with [10^k <= num/den < 10^(k+1)], from an estimate that is
    within one of it. *)
Definition floor_log10 (m : positive) (e : Z) : Z :=
let nd := fraction m e in
let k0 := ((Zpos (digits2_pos m) + e - 1) * 30103) / 100000 in
let ge k := let t := scale10 nd (- k) in t.2 <=? t.1 in
if ge (k0 + 1) then k0 + 1 else if ge k0 then k0 else k0 - 1.

(** The candidate with [p] significant digits: the integer [c] next to
    [x * 10^(p-1-k)] that converts back to [x], the nearer one if both do
    (the even one on a tie).  With [force], the nearest integer whether it
    converts back or not. *)
Definition candidate (force : bool) (m : positive) (e k : Z) (p : Z)
  : option Z :=
let x := S754_finite false m e in
let q := k - p + 1 in
let t := scale10 (fraction m e) (- q) in
let lo := t.1 / t.2 in
let hi := lo + 1 in
let back c := bool_decide (of_decimal false c q = x) in
let twice_rem := 2 * (t.1 mod t.2) in
let nearest :=
  if twice_rem <? t.2 then lo
  else if t.2 <? twice_rem then hi
  else if Z.even lo then lo else hi in
if force then Some nearest
else match back lo, back hi with
     | true, true => Some nearest
     | true, false => Some lo
     | false, true => Some hi
     | false, false => None
     end.

(** The shortest digits that give [x] back, and the power of ten of their
    last digit: precisions [p, p+1, ...] are tried in turn, and the
    seventeenth is taken as it is. *)
Fixpoint shortest (tries : nat) (m : positive) (e k : Z) (p : Z) : Z * Z :=
match tries with
| O => (0, 0)
| S tries' =>
    match candidate (p =? 17) m e k p with
    | Some c => (c, k - p + 1)
    | None => shortest tries' m e k (p + 1)
    end
end.

(** Trailing zeros are dropped from the digits. *)
Fixpoint rstrip_zeros (rev_digits : str) (q : Z) : str * Z :=
match rev_digits with
| 48%N :: (_ :: _) as r => rstrip_zeros r (q + 1)
| _ => (reverse rev_digits, q)
end.

(** The exponent of the [e] notation: a sign and at least two digits. *)
Definition exponent_repr (x : Z) : str :=
let ds := digits (Z.to_N (Z.abs x)) in
(if x <? 0 then 45%N else 43%N)
  :: (if (length ds <? 2)%nat then 48%N :: ds else ds).

(** The digits [ds] with the decimal point after the first [decpt] of them,
    as [repr] lays them out: [e] notation when [decpt <= -4] or
    [decpt > 16], and [.0] added to a whole number. *)
Definition layout (ds : str) (decpt : Z) : str :=
let n := Z.of_nat (length ds) in
if (decpt <=? -4) || (16 <? decpt) then
  match ds with
  | [] => []
  | [d] => d :: 101%N :: exponent_repr (decpt - 1)
  | d :: rest => d :: 46%N :: rest ++ 101%N :: exponent_repr (decpt - 1)
  end
else if decpt <=? 0 then
  48%N :: 46%N :: replicate (Z.to_nat (- decpt)) 48%N ++ ds
else if n <=? decpt then
  ds ++ replicate (Z.to_nat (decpt - n)) 48%N ++ [46%N; 48%N]
else
  take (Z.to_nat decpt) ds ++ 46%N :: drop (Z.to_nat decpt) ds.

(** [float.__repr__(x)] (and [repr(x)], [str(x)]). *)
Definition float_repr (x : float) : str :=
match x with
| S754_nan => u "nan"
| S754_infinity neg => if neg then u "-inf" else u "inf"
| S754_zero neg => if neg then u "-0.0" else u "0.0"
| S754_finite neg m e =>
    let '(c, q) := shortest 17 m e (floor_log10 m e) 1 in
    let '(ds, q') := rstrip_zeros (reverse (digits (Z.to_N c))) q in
    (if neg then [45%N] else []) ++ layout ds (Z.of_nat (length ds) + q')
end.

(** The binary64 value [m * 2^e]. *)
Definition dyadic (m : Z) (e : Z) : float := binary_normalize prec emax m e false.

End PyFloat.

(** ** The [json] module *)
Module Json.
Import PyFloat.

(** The Python values [json] reads and writes. *)
Inductive value :=
| PyNone
| PyBool (b : bool)
| PyInt (n : Z)
| PyFloat (x : float)
| PyStr (s : str)
| PyList (l : list value)
| PyDict (d : list (str * value)).

(** *** [json.dumps] with its default options *)

Definition hex_digit (n : N) : N := (if n <? 10 then 48 + n else 87 + n)%N.

(** [\uXXXX]. *)
Definition escape_u (c : N) : str :=
[92; 117; hex_digit (c / 4096); hex_digit ((c / 256) mod 16);
 hex_digit ((c / 16) mod 16); hex_digit (c mod 16)]%N.

(** One character of a string under [ensure_ascii]: the short escapes, the
    printable ASCII characters as they are, [\uXXXX] for the rest (a
    surrogate pair above U+FFFF). *)
Definition escape_char (c : N) : str :=
(if c =? 34 then [92; 34]
 else if c =? 92 then [92; 92]
 else if c =? 10 then [92; 110]
 else if c =? 13 then [92; 114]
 else if c =? 9 then [92; 116]
 else if c =? 12 then [92; 102]
 else if c =? 8 then [92; 98]
 else if (32 <=? c) && (c <=? 126) then [c]
 else if c <? 0x10000 then escape_u c
 else let v := c - 0x10000 in
      escape_u (0xD800 + v / 1024) ++ escape_u (0xDC00 + v mod 1024))%N.

Definition encode_basestring_ascii (s : str) : str :=
34%N :: (s ≫= escape_char) ++ [34%N].

(** A [float]: [NaN], [Infinity], [-Infinity], or its [repr]. *)
Definition floatstr (x : float) : str :=
match x with
| S754_nan => u "NaN"
| S754_infinity false => u "Infinity"
| S754_infinity true => u "-Infinity"
| _ => float_repr x
end.

(** [sep.join(parts)]. *)
Fixpoint join (sep : str) (parts : list str) : str :=
match parts with
| [] => []
| [p] => p
| p :: parts' => p ++ sep ++ join sep parts'
end.

(** [json.dumps(v)]: items separated by [", "], keys from values by [": "]. *)
Fixpoint dumps (v : value) : str :=
match v with
| PyNone => u "null"
| PyBool true => u "true"
| PyBool false => u "false"
| PyInt n => int_repr n
| PyFloat x => floatstr x
| PyStr s => encode_basestring_ascii s
| PyList l => 91%N :: join (u ", ") (map dumps l) ++ [93%N]
| PyDict d =>
    123%N :: join (u ", ")
               (map (λ kv, encode_basestring_ascii kv.1 ++ u ": " ++ dumps kv.2) d)
      ++ [125%N]
end.

(** *** [json.loads] with its default options *)

Inductive parse_result (A : Type) :=
| Parsed (a : A) (rest : str)
| Malformed
| OutOfFuel.
Arguments Parsed {A} a rest.
Arguments Malformed {A}.
Arguments OutOfFuel {A}.

(** Space, tab, line feed and carriage return are skipped between tokens. *)
Fixpoint skip_ws (s : str) : str :=
match s with
| c :: s' =>
    if ((c =? 32) || (c =? 9) || (c =? 10) || (c =? 13))%N then skip_ws s' else s
| [] => []
end.

Definition hex_value (c : N) : option N :=
(if (48 <=? c) && (c <=? 57) then Some (c - 48)
 else if (97 <=? c) && (c <=? 102) then Some (c - 87)
 else if (65 <=? c) && (c <=? 70) then Some (c - 55)
 else None)%N.

Definition hex4 (a b c d : N) : option N :=
match hex_value a, hex_value b, hex_value c, hex_value d with
| Some x, Some y, Some z, Some t => Some (x * 4096 + y * 256 + z * 16 + t)%N
| _, _, _, _ => None
end.

(** The character a one-letter escape stands for. *)
Definition unescape (c : N) : option N :=
(if c =? 34 then Some 34
 else if c =? 92 then Some 92
 else if c =? 47 then Some 47
 else if c =? 98 then Some 8
 else if c =? 102 then Some 12
 else if c =? 110 then Some 10
 else if c =? 114 then Some 13
 else if c =? 116 then Some 9
 else None)%N.

Definition is_high_surrogate (c : N) : bool := ((0xD800 <=? c) && (c <=? 0xDBFF))%N.
Definition is_low_surrogate (c : N) : bool := ((0xDC00 <=? c) && (c <=? 0xDFFF))%N.

(** [c] put in front of the text of a scanned string. *)
Definition prepend (c : N) (scanned : option (str * str)) : option (str * str) :=
  match scanned with
  | Some (t, r) => Some (c :: t, r)
  | None => None
  end.

(** The text of a string after its opening quote, up to the closing one, and
    what follows.  Control characters are refused (strict mode); a [\u]
    escape of a high surrogate followed by one of a low surrogate gives one
    character. *)
Fixpoint scanstring (s : str) : option (str * str) :=
  match s with
  | [] => None
  | c :: r =>
      if (c =? 34)%N then Some ([], r)
      else if (c =? 92)%N then
        match r with
        | [] => None
        | e :: r1 =>
            if (e =? 117)%N then
              match r1 with
              | x1 :: x2 :: x3 :: x4 :: r2 =>
                  match hex4 x1 x2 x3 x4 with
                  | None => None
                  | Some h =>
                      let alone := prepend h (scanstring r2) in
                      if is_high_surrogate h then
                        match r2 with
                        | c1 :: c2 :: y1 :: y2 :: y3 :: y4 :: r3 =>
                            if ((c1 =? 92) && (c2 =? 117))%N then
                              match hex4 y1 y2 y3 y4 with
                              | None => None
                              | Some l =>
                                  if is_low_surrogate l then
                                    prepend (0x10000 + (h - 0xD800) * 1024
                                             + (l - 0xDC00))%N
                                            (scanstring r3)
                                  else alone
                              end
                            else alone
                        | _ => alone
                        end
                      else alone
                  end
              | _ => None
              end
            else
              match unescape e with
              | Some x => prepend x (scanstring r1)
              | None => None
              end
        end
      else if (c <? 32)%N then None
      else prepend c (scanstring r)
  end.

(** The parts of a number: [0] or a run of digits not starting with [0]; a
    point and digits; [e] or [E], an optional sign and digits.  A point or an
    [e] that is not followed by digits is not part of the number. *)
Definition scan_integer (s : str) : option (str * str) :=
  match s with
  | c :: r =>
      if (c =? 48)%N then Some ([c], r)
      else if is_digit c then Some (span_digits s)
      else None
  | [] => None
  end.

Definition scan_fraction (s : str) : str * str :=
  match s with
  | c :: r =>
      if (c =? 46)%N then
        match span_digits r with
        | ([], _) => ([], s)
        | (fs, r') => (c :: fs, r')
        end
      else ([], s)
  | [] => ([], s)
  end.

Definition scan_exponent (s : str) : str * str :=
  match s with
  | c :: r =>
      if ((c =? 101) || (c =? 69))%N then
        let '(esign, r') :=
          match r with
          | d :: t => if ((d =? 45) || (d =? 43))%N then ([d], t) else ([], r)
          | [] => ([], r)
          end in
        match span_digits r' with
        | ([], _) => ([], s)
        | (es, r'') => (c :: esign ++ es, r'')
        end
      else ([], s)
  | [] => ([], s)
  end.

(** The number at the head of the text, with an optional [-] before it.
    With a fraction or an exponent it is read by [float], else by [int]. *)
Definition scan_number (s : str) : option (value * str) :=
  let '(sign, r0) :=
    match s with
    | c :: r => if (c =? 45)%N then ([c], r) else ([], s)
    | [] => ([], s)
    end in
  match scan_integer r0 with
  | None => None
  | Some (ipart, r1) =>
      let '(frac, r2) := scan_fraction r1 in
      let '(exp, r3) := scan_exponent r2 in
      match frac, exp with
      | [], [] =>
          Some (PyInt (match sign with
                       | [] => digits_value ipart
                       | _ => - digits_value ipart
                       end), r3)
      | _, _ =>
          match py_float (sign ++ ipart ++ frac ++ exp) with
          | Some x => Some (PyFloat x, r3)
          | None => None
          end
      end
  end.

(** [dict(pairs)]: a key that comes again keeps its place and takes the
    later value. *)
Definition dict_of_pairs (pairs : list (str * value)) : list (str * value) :=
  foldl (λ d kv, dict_set d kv.1 kv.2) [] pairs.

(** A constant such as [null] at the head of the text. *)
Definition scan_word (word : str) (v : value) (s : str)
  : option (parse_result value) :=
  if startswith word s then Some (Parsed v (drop (length word) s))
  else None.

(** The constants that are tried before a number, and those tried after. *)
Definition scan_name (s : str) : option (parse_result value) :=
  match scan_word (u "null") PyNone s with
  | Some p => Some p
  | None =>
      match scan_word (u "true") (PyBool true) s with
      | Some p => Some p
      | None => scan_word (u "false") (PyBool false) s
      end
  end.

Definition scan_nan (s : str) : option (parse_result value) :=
  match scan_word (u "NaN") (PyFloat S754_nan) s with
  | Some p => Some p
  | None =>
      match scan_word (u "Infinity") (PyFloat (S754_infinity false)) s with
      | Some p => Some p
      | None => scan_word (u "-Infinity") (PyFloat (S754_infinity true)) s
      end
  end.

(** The value at the head of the text.  [parse_pairs] reads an object from
    its first property name on, [parse_items] a list from its first item. *)
Fixpoint scan_once (fuel : nat) (s : str) : parse_result value :=
  match fuel with
  | O => OutOfFuel
  | S fuel' =>
      match s with
      | [] => Malformed
      | c :: r =>
          if (c =? 34)%N then
            match scanstring r with
            | Some (t, r') => Parsed (PyStr t) r'
            | None => Malformed
            end
          else if (c =? 123)%N then
            match skip_ws r with
            | [] => Malformed
            | c' :: r' =>
                if (c' =? 125)%N then Parsed (PyDict []) r'
                else parse_pairs fuel' (c' :: r') []
            end
          else if (c =? 91)%N then
            match skip_ws r with
            | [] => Malformed
            | c' :: r' =>
                if (c' =? 93)%N then Parsed (PyList []) r'
                else parse_items fuel' (c' :: r') []
            end
          else
            match scan_name s with
            | Some p => p
            | None =>
                match scan_number s with
                | Some (v, r') => Parsed v r'
                | None =>
                    match scan_nan s with
                    | Some p => p
                    | None => Malformed
                    end
                end
            end
      end
  end
with parse_pairs (fuel : nat) (s : str) (pairs : list (str * value))
  : parse_result value :=
  match fuel with
  | O => OutOfFuel
  | S fuel' =>
      match s with
      | [] => Malformed
      | c :: r =>
          if negb (c =? 34)%N then Malformed
          else
            match scanstring r with
            | None => Malformed
            | Some (key, r1) =>
                match skip_ws r1 with
                | [] => Malformed
                | c1 :: r2 =>
                    if negb (c1 =? 58)%N then Malformed
                    else
                      match scan_once fuel' (skip_ws r2) with
                      | Parsed v r3 =>
                          match skip_ws r3 with
                          | [] => Malformed
                          | c3 :: r4 =>
                              if (c3 =? 125)%N then
                                Parsed (PyDict (dict_of_pairs (pairs ++ [(key, v)]))) r4
                              else if (c3 =? 44)%N then
                                parse_pairs fuel' (skip_ws r4) (pairs ++ [(key, v)])
                              else Malformed
                          end
                      | Malformed => Malformed
                      | OutOfFuel => OutOfFuel
                      end
                end
            end
      end
  end
with parse_items (fuel : nat) (s : str) (items : list value)
  : parse_result value :=
  match fuel with
  | O => OutOfFuel
  | S fuel' =>
      match scan_once fuel' s with
      | Parsed v r1 =>
          match skip_ws r1 with
          | [] => Malformed
          | c :: r2 =>
              if (c =? 93)%N then Parsed (PyList (items ++ [v])) r2
              else if (c =? 44)%N then parse_items fuel' (skip_ws r2) (items ++ [v])
              else Malformed
          end
      | Malformed => Malformed
      | OutOfFuel => OutOfFuel
      end
  end.

(** [json.loads(s)] for a [str]: one value, with whitespace allowed around
    it; anything else raises [JSONDecodeError].  The fuel given is enough for
    any text ([None] would be the lack of it).  The interpreter's recursion
    limit on deep nesting is not part of this model. *)
Definition loads (s : str) : option (result value) :=
  if startswith [0xFEFF%N] s then Some (Raise JSONDecodeError)
  else
    match scan_once (2 * length s + 2)%nat (skip_ws s) with
    | Parsed v r =>
        match skip_ws r with
        | [] => Some (Return v)
        | _ => Some (Raise JSONDecodeError)
        end
    | Malformed => Some (Raise JSONDecodeError)
    | OutOfFuel => None
    end.

(** A [float] that [json] writes as a number which it reads back as the
    same [float] (as it does for every finite [float], by the round trip of
    [repr] and [float]). *)
Definition reads_back (x : float) : Prop :=
  match scan_number (floatstr x) with
  | Some (PyFloat y, []) => y = x
  | _ => False
  end.

#[global] Instance reads_back_dec (x : float) : Decision (reads_back x).
Proof.
  unfold reads_back.
  destruct (scan_number (floatstr x)) as [[[] []]|]; apply _.
Defined.

End Json.

(** ** shared_memory_utils.py *)
Module SharedMemoryUtils.

(** *** Python containers used by [SharedPriceBook] *)

(** [s < t] and [s <= t] on [str]: code points compared from the left. *)
Fixpoint str_leb (s t : str) : bool :=
  match s, t with
  | [], _ => true
  | _ :: _, [] => false
  | x :: s', y :: t' =>
      if (x <? y)%N then true
      else if (y <? x)%N then false
      else str_leb s' t'
  end.

Definition str_le (s t : str) : Prop := Is_true (str_leb s t).

(** [sorted(symbols)]. *)
Definition sorted (symbols : list str) : list str := merge_sort str_le symbols.

(** *** The shared block *)

(** What a ['U10'] field holds of a string assigned to it: at most ten code
    points, read back without trailing NULs. *)
Fixpoint rstrip_nul (s : str) : str :=
  match s with
  | [] => []
  | c :: s' =>
      match rstrip_nul s' with
      | [] => if (c =? 0)%N then [] else [c]
      | r => c :: r
      end
  end.

Definition U10 (s : str) : str := rstrip_nul (take 10 s).

(** One record of [SHM_DTYPE = [('symbol','U10'),('price','f8')]]. *)
Record row := Row { row_symbol : str; row_price : float }.

(** The operating system's shared memory: the blocks that exist, and the
    names under which a block can still be opened.  [shm_unlink] removes a
    name; the block stays for those who have it mapped. *)
Record shm_world := ShmWorld {
  names : gmap str nat;
  blocks : list (list row)
}.

(** A [SharedMemory] object: the block it maps. *)
Record SharedMemory := { shm_block : nat }.

Record SharedPriceBook := {
  symbols : list str;
  shm_name : str;
  size : nat;
  symbol_to_index : gmap str nat;
  is_creator : bool;
  shm : option SharedMemory
}.

(** [{sym: i for i, sym in enumerate(symbols)}]: a later index replaces an
    earlier one. *)
Definition index_of_symbols (symbols : list str) : gmap str nat :=
  foldl (λ m p, <[p.2 := p.1]> m) ∅ (zip (seq 0 (length symbols)) symbols).

(** [SharedPriceBook.__init__(symbols, shm_name, lock, create)].
    [SharedMemory(create=True, size=0)] raises [ValueError], an existing
    name [FileExistsError], a missing name [FileNotFoundError], and
    [np.ndarray] over too small a buffer [TypeError]; [__init__] prints and
    re-raises each of them. *)
Definition init (symbols0 : list str) (name : str) (create : bool)
    (w : shm_world) : result SharedPriceBook * shm_world :=
  let symbols := sorted symbols0 in
  let size := length symbols in
  let self shm creator :=
    {| symbols := symbols; shm_name := name; size := size;
       symbol_to_index := index_of_symbols symbols;
       is_creator := creator; shm := shm |} in
  if create then
    if (size =? 0)%nat then (Raise ValueError, w)
    else match names w !! name with
         | Some _ => (Raise FileExistsError, w)
         | None =>
             let id := length (blocks w) in
             let initial_data := (λ sym, Row (U10 sym) zero) <$> symbols in
             (Return (self (Some {| shm_block := id |}) true),
              {| names := <[name := id]> (names w);
                 blocks := blocks w ++ [initial_data] |})
         end
  else
    match names w !! name with
    | None => (Raise FileNotFoundError, w)
    | Some id =>
        if (length (default [] (blocks w !! id)) <? size)%nat
        then (Raise TypeError, w)
        else (Return (self (Some {| shm_block := id |}) false), w)
    end.

(** [self.data_array]: the first [size] records of the mapped block. *)
Definition data_array (self : SharedPriceBook) (w : shm_world) : list row :=
  match shm self with
  | Some m => take (size self) (default [] (blocks w !! shm_block m))
  | None => []
  end.

(** [self.data_array['price'][index] = price]; numpy raises [IndexError]
    out of range. *)
Definition set_price (self : SharedPriceBook) (index : nat) (price : float)
    (w : shm_world) : result unit * shm_world :=
  match shm self, data_array self w !! index with
  | Some m, Some r =>
      (Return (),
       {| names := names w;
          blocks := alter (λ rows, <[index := Row (row_symbol r) price]> rows)
                          (shm_block m) (blocks w) |})
  | _, _ => (Raise IndexError, w)
  end.

(** [SharedPriceBook.update(symbol, price)].  The body of [with self.lock]
    runs as one step here; the interleaving of several processes is the
    subject of [Concurrent] below. *)
Definition update (self : SharedPriceBook) (symbol : str) (price : float)
    (w : shm_world) : result unit * shm_world :=
  match symbol_to_index self !! symbol with
  | None => (Return (), w)
  | Some index => set_price self index price w
  end.

(** [SharedPriceBook.read_all()]. *)
Definition read_all (self : SharedPriceBook) (w : shm_world)
  : list (str * float) :=
  foldl (λ d r, dict_set d (row_symbol r) (row_price r)) [] (data_array self w).

(** [self.shm.unlink()]: [shm_unlink] fails with [FileNotFoundError] once
    the name is gone. *)
Definition unlink (self : SharedPriceBook) (w : shm_world)
  : result unit * shm_world :=
  match names w !! shm_name self with
  | Some _ => (Return (), {| names := delete (shm_name self) (names w);
                             blocks := blocks w |})
  | None => (Raise FileNotFoundError, w)
  end.

(** [SharedPriceBook.cleanup()].  [close_raises] is the exception
    [self.shm.close()] raises, if it raises one (it does, with
    [BufferError], while an array still exports the buffer).  Both handlers
    swallow what they catch. *)
Definition cleanup (self : SharedPriceBook) (close_raises : option exn)
    (w : shm_world) : result unit * shm_world :=
  match shm self with
  | None => (Return (), w)
  | Some _ =>
      let '(r, w') :=
        match close_raises with
        | Some e => (Raise e, w)
        | None => if is_creator self then unlink self w else (Return (), w)
        end in
      match r with
      | Return _ => (Return (), w')
      | Raise FileNotFoundError => (Return (), w')
      | Raise _ => (Return (), w')
      end
  end.

End SharedMemoryUtils.

(** ** OrderBook.py *)
Module OrderBook.
Import SharedMemoryUtils PyFloat.

(** [receive_framed_message(sock)] with the module's global [recv_buffer]
    passed in and out.  The whole loop body sits in a [try]: only
    [BlockingIOError] goes round the loop again, every other exception
    (the one raised on [b''], a failed [decode], any other socket error)
    leaves as [SocketStreamClosed]. *)
Fixpoint receive_framed_message (sock : socket) (recv_buffer : bytes)
  : result str * bytes * socket :=
  let delimiter_pos := find MESSAGE_DELIMITER recv_buffer in
  if negb (delimiter_pos =? -1) then
    let message := slice_to recv_buffer delimiter_pos in
    let recv_buffer :=
      slice_from recv_buffer (delimiter_pos + Z.of_nat (length MESSAGE_DELIMITER)) in
    match decode message with
    | Some text => (Return text, recv_buffer, sock)
    | None => (Raise SocketStreamClosed, recv_buffer, sock)
    end
  else
    match sock with
    | [] => (Raise SocketStreamClosed, recv_buffer, [])
    | RecvBytes [] :: sock' => (Raise SocketStreamClosed, recv_buffer, sock')
    | RecvBytes chunk :: sock' => receive_framed_message sock' (recv_buffer ++ chunk)
    | RecvBlockingIOError :: sock' => receive_framed_message sock' recv_buffer
    | RecvConnectionResetError :: sock' => (Raise SocketStreamClosed, recv_buffer, sock')
    | RecvOSError :: sock' => (Raise SocketStreamClosed, recv_buffer, sock')
    end.

(** What [run_orderbook] does that can be seen from outside: the messages
    it takes off the stream, its calls of [shm_book.update], and the lines
    it prints. *)
Inductive event :=
| Connected
| Message (raw_message : str)
| Updated (symbol : str) (price : float)
| ParsingError (raw_message : str)
| GeneralParsingError (e : exn)
| ConnectionError
| ConnectionRefused
| UnexpectedError (e : exn)
| Fatal.

(** The inner [for next_symbol in symbols] loop: where the price text ends. *)
Definition price_end (symbols : list str) (raw_message symbol : str)
    (start_index : Z) : Z :=
  foldl (λ end_index next_symbol,
           if negb (bool_decide (next_symbol = symbol))
              && negb (find_from next_symbol raw_message start_index =? -1)
           then Z.min end_index (find_from next_symbol raw_message start_index)
           else end_index)
        (Z.of_nat (length raw_message)) symbols.

(** The [for symbol in symbols] loop over the symbols still to visit.  A
    failed [float(...)] raises [ValueError] out of the loop; the updates
    made before it stay. *)
Fixpoint parse_symbols (symbols todo : list str) (raw_message : str)
    (shm_book : SharedPriceBook) (w : shm_world)
  : result unit * shm_world * list event :=
  match todo with
  | [] => (Return (), w, [])
  | symbol :: todo' =>
      if contains symbol raw_message then
        let start_index :=
          find symbol raw_message + Z.of_nat (length symbol) + 1 in
        let end_index := price_end symbols raw_message symbol start_index in
        let price_str := slice raw_message start_index end_index in
        match py_float (strip price_str) with
        | None => (Raise ValueError, w, [])
        | Some price =>
            match update shm_book symbol price w with
            | (Return _, w') =>
                let '(r, w'', evs) :=
                  parse_symbols symbols todo' raw_message shm_book w' in
                (r, w'', Updated symbol price :: evs)
            | (Raise e, w') => (Raise e, w', [])
            end
        end
      else parse_symbols symbols todo' raw_message shm_book w
  end.

(** One turn of the reception loop after a message has arrived: an empty
    message is passed over, and both [except] clauses of the parsing block
    print and fall through to the next turn. *)
Definition handle_message (symbols : list str) (shm_book : SharedPriceBook)
    (raw_message : str) (w : shm_world) : shm_world * list event :=
  match raw_message with
  | [] => (w, [])
  | _ =>
      match parse_symbols symbols symbols raw_message shm_book w with
      | (Return _, w', evs) => (w', evs)
      | (Raise e, w', evs) =>
          if is_ValueError e then (w', evs ++ [ParsingError raw_message])
          else (w', evs ++ [GeneralParsingError e])
      end
  end.

(** The reception loop [while True: raw_message = receive_framed_message(...)]
    on one connection.  It ends with the exception that leaves it; [fuel]
    bounds the number of turns ([None]: not enough of it). *)
Fixpoint message_loop (fuel : nat) (symbols : list str)
    (shm_book : SharedPriceBook) (sock : socket) (recv_buffer : bytes)
    (w : shm_world) : option (exn * bytes * socket * shm_world * list event) :=
  match fuel with
  | O => None
  | S fuel' =>
      match receive_framed_message sock recv_buffer with
      | (Raise e, recv_buffer', sock') => Some (e, recv_buffer', sock', w, [])
      | (Return raw_message, recv_buffer', sock') =>
          let '(w', evs) := handle_message symbols shm_book raw_message w in
          match message_loop fuel' symbols shm_book sock' recv_buffer' w' with
          | Some (e, recv_buffer'', sock'', w'', evs') =>
              Some (e, recv_buffer'', sock'', w'', Message raw_message :: evs ++ evs')
          | None => None
          end
      end
  end.

(** Turns that are always enough for [message_loop]: every message takes
    a delimiter out of what is buffered or still to come. *)
Definition enough_fuel (sock : socket) (recv_buffer : bytes) : nat :=
  S (length recv_buffer + socket_size sock).

(** The [except] clauses of the connection loop. *)
Definition on_exception (e : exn) : event :=
  match e with
  | SocketStreamClosed => ConnectionError
  | ConnectionRefusedError => ConnectionRefused
  | _ => UnexpectedError e
  end.

(** The connection loop [while True: ... connect ...], run over the
    connection attempts that the process lives to make. *)
Fixpoint connection_loop (attempts : list connect_outcome) (symbols : list str)
    (shm_book : SharedPriceBook) (recv_buffer : bytes) (w : shm_world)
  : option (bytes * shm_world * list event) :=
  match attempts with
  | [] => Some (recv_buffer, w, [])
  | ConnectRaises e :: attempts' =>
      match connection_loop attempts' symbols shm_book recv_buffer w with
      | Some (recv_buffer', w', evs) => Some (recv_buffer', w', on_exception e :: evs)
      | None => None
      end
  | Connects sock :: attempts' =>
      let recv_buffer := [] in
      match message_loop (enough_fuel sock recv_buffer) symbols shm_book
                         sock recv_buffer w with
      | Some (e, recv_buffer', _, w', evs) =>
          match connection_loop attempts' symbols shm_book recv_buffer' w' with
          | Some (recv_buffer'', w'', evs') =>
              Some (recv_buffer'', w'', Connected :: evs ++ on_exception e :: evs')
          | None => None
          end
      | None => None
      end
  end.

(** [run_orderbook(shm_name, shm_lock, symbols)]: attach, then loop. *)
Definition run_orderbook (shm_name : str) (symbols : list str)
    (attempts : list connect_outcome) (recv_buffer : bytes) (w : shm_world)
  : option (result unit * bytes * shm_world * list event) :=
  match init symbols shm_name false w with
  | (Raise FileNotFoundError, w') => Some (Return (), recv_buffer, w', [Fatal])
  | (Raise e, w') => Some (Raise e, recv_buffer, w', [])
  | (Return shm_book, w') =>
      match connection_loop attempts symbols shm_book recv_buffer w' with
      | Some (recv_buffer', w'', evs) => Some (Return (), recv_buffer', w'', evs)
      | None => None
      end
  end.

End OrderBook.

(** ** OrderManager.py *)
Module OrderManager.
Import Json PyFloat.

(** [receive_framed_message(sock)] with the module's global [recv_buffer]
    passed in and out.  Nothing is caught here: [b''] raises
    [ConnectionResetError], and a failed [decode] or a socket error leaves as
    it is. *)
Fixpoint receive_framed_message (sock : socket) (recv_buffer : bytes)
  : result str * bytes * socket :=
  let delimiter_pos := find MESSAGE_DELIMITER recv_buffer in
  if negb (delimiter_pos =? -1) then
    let message := slice_to recv_buffer delimiter_pos in
    let recv_buffer :=
      slice_from recv_buffer (delimiter_pos + Z.of_nat (length MESSAGE_DELIMITER)) in
    match decode message with
    | Some text => (Return text, recv_buffer, sock)
    | None => (Raise UnicodeDecodeError, recv_buffer, sock)
    end
  else
    match sock with
    | [] => (Raise ConnectionResetError, recv_buffer, [])
    | RecvBytes [] :: sock' => (Raise ConnectionResetError, recv_buffer, sock')
    | RecvBytes chunk :: sock' => receive_framed_message sock' (recv_buffer ++ chunk)
    | RecvBlockingIOError :: sock' => (Raise BlockingIOError, recv_buffer, sock')
    | RecvConnectionResetError :: sock' => (Raise ConnectionResetError, recv_buffer, sock')
    | RecvOSError :: sock' => (Raise OSError, recv_buffer, sock')
    end.

(** [order[key]]: only a [dict] can be indexed by a string. *)
Definition getitem (order : value) (key : str) : result value :=
  match order with
  | PyDict d =>
      match dict_get d key with
      | Some v => Return v
      | None => Raise KeyError
      end
  | _ => Raise TypeError
  end.

(** A replacement field with an alignment such as [{v:<4}]. *)
Definition format_aligned (v : value) : result unit :=
  match v with
  | PyNone | PyList _ | PyDict _ => Raise TypeError
  | _ => Return ()
  end.

(** A replacement field [{v:.2f}]: numbers only, and an [int] must fit a
    [float]. *)
Definition format_fixed (v : value) : result unit :=
  match v with
  | PyFloat _ | PyBool _ => Return ()
  | PyInt n =>
      match dyadic n 0 with
      | S754_infinity _ => Raise OverflowError
      | _ => Return ()
      end
  | PyStr _ => Raise ValueError
  | _ => Raise TypeError
  end.

(** The f-string of the [[OM|EXECUTED]] line, field by field. *)
Definition print_executed (order : value) : result unit :=
  getitem order (u "order_id") ≫= format_aligned ;;
  getitem order (u "side") ≫= format_aligned ;;
  getitem order (u "quantity") ≫= format_aligned ;;
  getitem order (u "symbol") ≫= format_aligned ;;
  getitem order (u "price") ≫= format_fixed ;;
  getitem order (u "timestamp") ≫= format_fixed.

Inductive event :=
| Accepted
| Executed (order : value)
| Disconnected
| SerializationError
| UnexpectedError (e : exn)
| StartFailed.

(** The loop [while True: raw_order = receive_framed_message(...)] on one
    connection, up to the exception that leaves it. *)
Fixpoint order_loop (fuel : nat) (sock : socket) (recv_buffer : bytes)
  : option (exn * bytes * socket * list event) :=
  match fuel with
  | O => None
  | S fuel' =>
      match receive_framed_message sock recv_buffer with
      | (Raise e, recv_buffer', sock') => Some (e, recv_buffer', sock', [])
      | (Return raw_order, recv_buffer', sock') =>
          match loads raw_order with
          | None => None
          | Some (Raise e) => Some (e, recv_buffer', sock', [])
          | Some (Return order) =>
              match print_executed order with
              | Raise e => Some (e, recv_buffer', sock', [])
              | Return _ =>
                  match order_loop fuel' sock' recv_buffer' with
                  | Some (e, recv_buffer'', sock'', evs) =>
                      Some (e, recv_buffer'', sock'', Executed order :: evs)
                  | None => None
                  end
              end
          end
      end
  end.

Definition enough_fuel (sock : socket) (recv_buffer : bytes) : nat :=
  S (length recv_buffer + socket_size sock).

(** What one [server_socket.accept()] does. *)
Inductive accept_outcome :=
| Accepts (sock : socket)
| AcceptRaises (e : exn).

(** The [except] clauses of the accept loop.  Each of them is followed by
    the next [accept()]. *)
Definition on_exception (e : exn) : event :=
  match e with
  | ConnectionResetError => Disconnected
  | JSONDecodeError => SerializationError
  | _ => UnexpectedError e
  end.

(** The loop [while True: client_socket, addr = server_socket.accept() ...],
    run over the calls of [accept] that the process lives to make. *)
Fixpoint accept_loop (incoming : list accept_outcome) (recv_buffer : bytes)
  : option (bytes * list event) :=
  match incoming with
  | [] => Some (recv_buffer, [])
  | AcceptRaises e :: incoming' =>
      match accept_loop incoming' recv_buffer with
      | Some (recv_buffer', evs) => Some (recv_buffer', on_exception e :: evs)
      | None => None
      end
  | Accepts sock :: incoming' =>
      let recv_buffer := [] in
      match order_loop (enough_fuel sock recv_buffer) sock recv_buffer with
      | Some (e, recv_buffer', _, evs) =>
          match accept_loop incoming' recv_buffer' with
          | Some (recv_buffer'', evs') =>
              Some (recv_buffer'', Accepted :: evs ++ on_exception e :: evs')
          | None => None
          end
      | None => None
      end
  end.

(** [run_ordermanager()]; [bind_fails] says whether [bind]/[listen] raise. *)
Definition run_ordermanager (bind_fails : bool) (incoming : list accept_outcome)
    (recv_buffer : bytes) : option (bytes * list event) :=
  if bind_fails then Some (recv_buffer, [StartFailed])
  else accept_loop incoming recv_buffer.

End OrderManager.

(** ** Strategy.py *)
Module Strategy.
Import Json PyFloat SharedMemoryUtils.

Definition BULLISH_THRESHOLD : Z := 70.
Definition BEARISH_THRESHOLD : Z := 30.
Definition SHORT_WINDOW : nat := 5.
Definition LONG_WINDOW : nat := 20.
Definition MAX_HISTORY : nat := LONG_WINDOW * 2.

(** ['NONE'], ['LONG'] or ['SHORT']. *)
Inductive position_t := NONE | LONG | SHORT.

(** ['NEUTRAL'], ['BUY'] or ['SELL']. *)
Inductive signal := NEUTRAL | BUY | SELL.

#[global] Instance position_eq_dec : EqDecision position_t.
Proof. solve_decision. Defined.

#[global] Instance signal_eq_dec : EqDecision signal.
Proof. solve_decision. Defined.

Definition side_text (s : signal) : str :=
  match s with
  | BUY => u "BUY"
  | SELL => u "SELL"
  | NEUTRAL => u "NEUTRAL"
  end.

Record StrategyState := {
  price_history : gmap str (list float);
  position : gmap str position_t;
  order_counter : Z
}.

(** [StrategyState(symbols)]. *)
Definition new_state (symbols : list str) : StrategyState :=
  {| price_history := list_to_map ((λ sym, (sym, [])) <$> symbols);
     position := list_to_map ((λ sym, (sym, NONE)) <$> symbols);
     order_counter := 1 |}.

(** [append] on a [deque(maxlen=MAX_HISTORY)]: the oldest item goes when
    the deque is full. *)
Definition deque_append (history : list float) (price : float) : list float :=
  let h := history ++ [price] in drop (length h - MAX_HISTORY) h.

(** [StrategyState.update_price_history(ticks)]; a symbol without a history
    raises [KeyError], and the histories filled before it stay. *)
Fixpoint update_price_history (ticks : list (str * float)) (self : StrategyState)
  : result unit * StrategyState :=
  match ticks with
  | [] => (Return (), self)
  | (sym, price) :: ticks' =>
      if SFltb zero price then
        match price_history self !! sym with
        | None => (Raise KeyError, self)
        | Some history =>
            update_price_history ticks'
              {| price_history :=
                   <[sym := deque_append history price]> (price_history self);
                 position := position self;
                 order_counter := order_counter self |}
        end
      else update_price_history ticks' self
  end.

(** [sentiment > n] and [sentiment < n] for what [json.loads] gave and an
    [int] [n] that a [float] holds exactly; text, [None], lists and dicts do
    not compare with a number. *)
Definition gt_int (v : value) (n : Z) : result bool :=
  match v with
  | PyInt a => Return (n <? a)
  | PyBool a => Return (n <? (if a then 1 else 0))
  | PyFloat x => Return (SFltb (dyadic n 0) x)
  | _ => Raise TypeError
  end.

Definition lt_int (v : value) (n : Z) : result bool :=
  match v with
  | PyInt a => Return (a <? n)
  | PyBool a => Return ((if a then 1 else 0) <? n)
  | PyFloat x => Return (SFltb x (dyadic n 0))
  | _ => Raise TypeError
  end.

(** The truth value of a moving average: [None] and zero are false. *)
Definition truthy (ma : option float) : bool :=
  match ma with
  | None => false
  | Some x => negb (SFeqb x zero)
  end.

Inductive event :=
| ConnectedOrderManager
| OrderManagerError (e : exn)
| ConnectedNews
| Sent (order : value) (full_message : bytes)
| SendFailed (order : value)
| NewsError (e : exn)
| Fatal.

(** The order of an event, if it is a call of [_send_order]. *)
Definition order_of (ev : event) : option value :=
  match ev with
  | Sent order _ | SendFailed order => Some order
  | _ => None
  end.

(** An order record: a [dict] with these six keys. *)
Definition order_record (order_id : Z) (symbol : str) (side : signal)
    (quantity : Z) (price timestamp : float) : value :=
  PyDict [(u "order_id", PyInt order_id);
          (u "symbol", PyStr symbol);
          (u "side", PyStr (side_text side));
          (u "quantity", PyInt quantity);
          (u "price", PyFloat price);
          (u "timestamp", PyFloat timestamp)].

(** The [dict] literal of [run_strategy]: the quantity is always [10]. *)
Definition make_order (order_id : Z) (symbol : str) (side : signal)
    (current_price timestamp : float) : value :=
  order_record order_id symbol side 10 current_price timestamp.

(** [_send_order(sock, order)]: whatever goes wrong is printed, not raised. *)
Definition _send_order (sendall_raises : bool) (order : value) : event :=
  match encode (dumps order) with
  | Some message_data =>
      let full_message := message_data ++ MESSAGE_DELIMITER in
      if sendall_raises then SendFailed order else Sent order full_message
  | None => SendFailed order
  end.

(** [receive_framed_news_message(sock)] with the module's global
    [news_recv_buffer] passed in and out.  Every exception raised in the loop
    body leaves as [SocketStreamClosed]. *)
Fixpoint receive_framed_news_message (sock : socket) (news_recv_buffer : bytes)
  : result str * bytes * socket :=
  let delimiter_pos := find MESSAGE_DELIMITER news_recv_buffer in
  if negb (delimiter_pos =? -1) then
    let message := slice_to news_recv_buffer delimiter_pos in
    let news_recv_buffer :=
      slice_from news_recv_buffer
                 (delimiter_pos + Z.of_nat (length MESSAGE_DELIMITER)) in
    match decode message with
    | Some text => (Return text, news_recv_buffer, sock)
    | None => (Raise SocketStreamClosed, news_recv_buffer, sock)
    end
  else
    match sock with
    | [] => (Raise SocketStreamClosed, news_recv_buffer, [])
    | RecvBytes [] :: sock' => (Raise SocketStreamClosed, news_recv_buffer, sock')
    | RecvBytes chunk :: sock' =>
        receive_framed_news_message sock' (news_recv_buffer ++ chunk)
    | RecvBlockingIOError :: sock' => (Raise SocketStreamClosed, news_recv_buffer, sock')
    | RecvConnectionResetError :: sock' =>
        (Raise SocketStreamClosed, news_recv_buffer, sock')
    | RecvOSError :: sock' => (Raise SocketStreamClosed, news_recv_buffer, sock')
    end.

(** What the process carries from one turn of its loops to the next: the
    global buffer, the number of snapshots taken so far, and the strategy
    state. *)
Record process := {
  news_recv_buffer : bytes;
  reads : nat;
  state : StrategyState
}.

(** One turn of the connection loop: what connecting to the OrderManager
    raises, if it is tried and raises, and what connecting to the news stream
    does. *)
Record attempt := {
  om_connect_raises : option exn;
  news_connect : connect_outcome
}.

Section Environment.

(** [np.mean] of a list of prices. *)
Variable mean : list float -> float.

(** [time.time()] at the moment the order with this number is built. *)
Variable time : Z -> float.

(** Whether [sendall] raises for the order with this number. *)
Variable sendall_raises : Z -> bool.

(** The shared memory as the [n]-th [read_all] finds it. *)
Variable world_at : nat -> shm_world.

(** [StrategyState.get_ma(symbol, window)]. *)
Definition get_ma (self : StrategyState) (symbol : str) (window : nat)
  : result (option float) :=
  match price_history self !! symbol with
  | None => Raise KeyError
  | Some history =>
      if (length history <? window)%nat then Return None
      else Return (Some (mean (drop (length history - window) history)))
  end.

Definition price_signal (short_ma long_ma : option float) : signal :=
  match short_ma, long_ma with
  | Some s, Some l =>
      if truthy short_ma && truthy long_ma then
        if SFltb l s then BUY else if SFltb s l then SELL else NEUTRAL
      else NEUTRAL
  | _, _ => NEUTRAL
  end.

Definition news_signal (sentiment : value) : result signal :=
  bullish ← gt_int sentiment BULLISH_THRESHOLD;
  if bullish : bool then Return BUY
  else bearish ← lt_int sentiment BEARISH_THRESHOLD;
       if bearish : bool then Return SELL else Return NEUTRAL.

Definition final_signal (price news : signal) : signal :=
  match price, news with
  | BUY, BUY => BUY
  | SELL, SELL => SELL
  | _, _ => NEUTRAL
  end.

(** The order-generation step for one symbol: an order goes out when the
    final signal is not matched by the recorded position. *)
Definition generate_order (final : signal) (symbol : str) (current_price : float)
    (self : StrategyState) : result unit * StrategyState * list event :=
  let send side new_position :=
    let order := make_order (order_counter self) symbol side current_price
                            (time (order_counter self)) in
    (Return (),
     {| price_history := price_history self;
        position := <[symbol := new_position]> (position self);
        order_counter := order_counter self + 1 |},
     [_send_order (sendall_raises (order_counter self)) order]) in
  match final with
  | BUY =>
      match position self !! symbol with
      | None => (Raise KeyError, self, [])
      | Some LONG => (Return (), self, [])
      | Some _ => send BUY LONG
      end
  | SELL =>
      match position self !! symbol with
      | None => (Raise KeyError, self, [])
      | Some SHORT => (Return (), self, [])
      | Some _ => send SELL SHORT
      end
  | NEUTRAL => (Return (), self, [])
  end.

(** The body of [for symbol, current_price in current_ticks.items()]. *)
Definition trade (sentiment : value) (symbol : str) (current_price : float)
    (self : StrategyState) : result unit * StrategyState * list event :=
  if SFeqb current_price zero then (Return (), self, [])
  else
    match get_ma self symbol SHORT_WINDOW with
    | Raise e => (Raise e, self, [])
    | Return short_ma =>
        match get_ma self symbol LONG_WINDOW with
        | Raise e => (Raise e, self, [])
        | Return long_ma =>
            match news_signal sentiment with
            | Raise e => (Raise e, self, [])
            | Return news =>
                generate_order (final_signal (price_signal short_ma long_ma) news)
                               symbol current_price self
            end
        end
    end.

(** The [for] loop over the snapshot; an exception ends it where it is. *)
Fixpoint trade_all (sentiment : value) (current_ticks : list (str * float))
    (self : StrategyState) : result unit * StrategyState * list event :=
  match current_ticks with
  | [] => (Return (), self, [])
  | (symbol, current_price) :: ticks' =>
      match trade sentiment symbol current_price self with
      | (Raise e, self', evs) => (Raise e, self', evs)
      | (Return _, self', evs) =>
          let '(r, self'', evs') := trade_all sentiment ticks' self' in
          (r, self'', evs ++ evs')
      end
  end.

(** The strategy execution loop on one news connection, up to the
    exception that leaves it. *)
Fixpoint strategy_loop (fuel : nat) (shm_book : SharedPriceBook) (sock : socket)
    (p : process) : option (exn * socket * process * list event) :=
  match fuel with
  | O => None
  | S fuel' =>
      match receive_framed_news_message sock (news_recv_buffer p) with
      | (Raise e, buf, sock') =>
          Some (SocketStreamClosed, sock',
                {| news_recv_buffer := buf; reads := reads p; state := state p |},
                [])
      | (Return raw_news, buf, sock') =>
          match loads raw_news with
          | None => None
          | Some (Raise e) =>
              Some (e, sock',
                    {| news_recv_buffer := buf; reads := reads p; state := state p |},
                    [])
          | Some (Return sentiment) =>
              let current_ticks := read_all shm_book (world_at (reads p)) in
              let after st :=
                {| news_recv_buffer := buf; reads := S (reads p); state := st |} in
              match update_price_history current_ticks (state p) with
              | (Raise e, st) => Some (e, sock', after st, [])
              | (Return _, st) =>
                  match trade_all sentiment current_ticks st with
                  | (Raise e, st', evs) => Some (e, sock', after st', evs)
                  | (Return _, st', evs) =>
                      match strategy_loop fuel' shm_book sock' (after st') with
                      | Some (e, sock'', p', evs') => Some (e, sock'', p', evs ++ evs')
                      | None => None
                      end
                  end
              end
          end
      end
  end.

(** The main loop [while True], run over the turns the process lives to
    make.  The OrderManager is connected to once; each of the three [except]
    clauses around the news connection closes the socket, sleeps and goes on
    to the next turn. *)
Fixpoint connection_loop (attempts : list attempt) (shm_book : SharedPriceBook)
    (om_connected : bool) (p : process) : option (process * list event) :=
  match attempts with
  | [] => Some (p, [])
  | a :: attempts' =>
      match (if om_connected then None else om_connect_raises a) with
      | Some e =>
          match connection_loop attempts' shm_book false p with
          | Some (p', evs) => Some (p', OrderManagerError e :: evs)
          | None => None
          end
      | None =>
          let connected := if om_connected then [] else [ConnectedOrderManager] in
          match news_connect a with
          | ConnectRaises e =>
              match connection_loop attempts' shm_book true p with
              | Some (p', evs) => Some (p', connected ++ NewsError e :: evs)
              | None => None
              end
          | Connects sock =>
              let p0 := {| news_recv_buffer := []; reads := reads p;
                           state := state p |} in
              match strategy_loop (S (socket_size sock)) shm_book sock p0 with
              | Some (e, _, p1, evs) =>
                  match connection_loop attempts' shm_book true p1 with
                  | Some (p', evs') =>
                      Some (p', connected ++ ConnectedNews :: evs ++ NewsError e :: evs')
                  | None => None
                  end
              | None => None
              end
          end
      end
  end.

(** [run_strategy(shm_name, shm_lock, symbols)]: attach, build the state,
    then loop. *)
Definition run_strategy (shm_name : str) (symbols : list str)
    (attempts : list attempt) (news_recv_buffer : bytes) (w : shm_world)
  : option (result unit * process * list event) :=
  let p0 st := {| news_recv_buffer := news_recv_buffer; reads := O; state := st |} in
  match init symbols shm_name false w with
  | (Raise FileNotFoundError, _) => Some (Return (), p0 (new_state []), [Fatal])
  | (Raise e, _) => Some (Raise e, p0 (new_state []), [])
  | (Return shm_book, _) =>
      match connection_loop attempts shm_book false (p0 (new_state symbols)) with
      | Some (p, evs) => Some (Return (), p, evs)
      | None => None
      end
  end.

End Environment.

End Strategy.

(** ** The orders a strategy run emits *)
Module Emitted.
Import Json.

(** [order[key]] when it is a string. *)
Definition field (order : value) (key : str) : option str :=
  match order with
  | PyDict d =>
      match dict_get d key with
      | Some (PyStr s) => Some s
      | _ => None
      end
  | _ => None
  end.

(** The side of the order an event hands to [_send_order], if the event is
    such a call and the order is for [symbol]. *)
Definition side_for (symbol : str) (ev : Strategy.event) : option str :=
  match Strategy.order_of ev with
  | Some order =>
      match field order (u "symbol") with
      | Some sym => if decide (sym = symbol) then field order (u "side") else None
      | None => None
      end
  | None => None
  end.

(** The sides of the orders for [symbol], in the order of the calls. *)
Definition sides_for (symbol : str) (evs : list Strategy.event) : list str :=
  omap (side_for symbol) evs.

(** Every side is [BUY] or [SELL], and no two neighbours are the same. *)
Definition strictly_alternating (sides : list str) : Prop :=
  Forall (λ s, s = u "BUY" ∨ s = u "SELL") sides
  ∧ forall i a c, sides !! i = Some a -> sides !! S i = Some c -> a ≠ c.

End Emitted.

(** ** Several processes on one table *)
Module Concurrent.
Import SharedMemoryUtils.

(** A price field of the shared block.  A store to it is not taken to be
    atomic: it begins and it ends, and in between the field holds neither
    the old value nor the new one. *)
Inductive cell :=
| Stable (v : float)
| Storing (old new : float).

(** What a load from a price field gives. *)
Inductive observed :=
| Value (v : float)
| TornValue (old new : float).

Definition load (c : cell) : observed :=
  match c with
  | Stable v => Value v
  | Storing old new => TornValue old new
  end.

(** The calls a process makes on its [SharedPriceBook]. *)
Inductive op :=
| Update (symbol : str) (price : float)
| ReadAll.

(** Where a process is inside [update] or [read_all]. *)
Inductive pc :=
| Idle
| UpdateAcquire (index : nat) (symbol : str) (price : float)
| UpdateBegin (index : nat) (symbol : str) (price : float)
| UpdateEnd (index : nat) (price : float)
| UpdateRelease
| ReadAcquire
| ReadRow (i : nat) (current_state : list (str * observed))
| ReadRelease (current_state : list (str * observed)).

Record proc := {
  program : list op;
  at_pc : pc;
  snapshots : list (list (str * observed))
}.

(** The lock with its holder, the records of the block, the processes, and
    the log of the stores that have begun (a ghost, for the statement). *)
Record system := {
  lock : option nat;
  data : list (str * cell);
  procs : list proc;
  written : list (str * float)
}.

(** Every process attaches with the same symbols and the same lock, as
    [main.py] starts them. *)
Definition initial (symbols : list str) (programs : list (list op)) : system :=
  {| lock := None;
     data := (λ sym, (U10 sym, Stable zero)) <$> sorted symbols;
     procs := (λ ops, {| program := ops; at_pc := Idle; snapshots := [] |})
                <$> programs;
     written := [] |}.

Definition set_proc (s : system) (pid : nat) (p : proc) : list proc :=
  <[pid := p]> (procs s).

(** One step of process [pid].  A process waiting for the lock stays where
    it is while another one holds it. *)
Definition step (symbols : list str) (pid : nat) (s : system) : system :=
  match procs s !! pid with
  | None => s
  | Some p =>
      let goto pc' := {| program := program p; at_pc := pc';
                         snapshots := snapshots p |} in
      match at_pc p with
      | Idle =>
          match program p with
          | [] => s
          | Update symbol price :: rest =>
              let next pc' := {| program := rest; at_pc := pc';
                                 snapshots := snapshots p |} in
              match index_of_symbols (sorted symbols) !! symbol with
              | None =>
                  {| lock := lock s; data := data s;
                     procs := set_proc s pid (next Idle); written := written s |}
              | Some index =>
                  {| lock := lock s; data := data s;
                     procs := set_proc s pid (next (UpdateAcquire index symbol price));
                     written := written s |}
              end
          | ReadAll :: rest =>
              {| lock := lock s; data := data s;
                 procs := set_proc s pid
                            {| program := rest; at_pc := ReadAcquire;
                               snapshots := snapshots p |};
                 written := written s |}
          end
      | UpdateAcquire index symbol price =>
          match lock s with
          | Some _ => s
          | None =>
              {| lock := Some pid; data := data s;
                 procs := set_proc s pid (goto (UpdateBegin index symbol price));
                 written := written s |}
          end
      | UpdateBegin index symbol price =>
          {| lock := lock s;
             data := alter (λ r, (r.1, match r.2 with
                                       | Stable v => Storing v price
                                       | Storing old _ => Storing old price
                                       end)) index (data s);
             procs := set_proc s pid (goto (UpdateEnd index price));
             written := written s ++ [(symbol, price)] |}
      | UpdateEnd index price =>
          {| lock := lock s;
             data := alter (λ r, (r.1, Stable price)) index (data s);
             procs := set_proc s pid (goto UpdateRelease);
             written := written s |}
      | UpdateRelease =>
          {| lock := None; data := data s;
             procs := set_proc s pid (goto Idle); written := written s |}
      | ReadAcquire =>
          match lock s with
          | Some _ => s
          | None =>
              {| lock := Some pid; data := data s;
                 procs := set_proc s pid (goto (ReadRow 0 []));
                 written := written s |}
          end
      | ReadRow i current_state =>
          match data s !! i with
          | Some (sym, c) =>
              {| lock := lock s; data := data s;
                 procs := set_proc s pid
                            (goto (ReadRow (S i) (dict_set current_state sym (load c))));
                 written := written s |}
          | None =>
              {| lock := lock s; data := data s;
                 procs := set_proc s pid (goto (ReadRelease current_state));
                 written := written s |}
          end
      | ReadRelease current_state =>
          {| lock := None; data := data s;
             procs := set_proc s pid
                        {| program := program p; at_pc := Idle;
                           snapshots := snapshots p ++ [current_state] |};
             written := written s |}
      end
  end.

(** The system after the processes have stepped in the order [schedule]. *)
Definition run (symbols : list str) (schedule : list nat) (s : system) : system :=
  foldl (λ s pid, step symbols pid s) s schedule.

End Concurrent.

(** ** The end-to-end scenario of the specification *)
Module Scenario.
Import SharedMemoryUtils PyFloat.

(** No shared memory yet. *)
Definition empty_world : shm_world := {| names := ∅; blocks := [] |}.

Definition SHM_NAME : str := u "trading_shm_book".

Definition SYMBOLS : list str := [u "AAPL"; u "MSFT"].

(** The table the owner creates for [SYMBOLS], and the shared memory with
    it. *)
Definition created : result SharedPriceBook * shm_world :=
  init SYMBOLS SHM_NAME true empty_world.

(** The handle [__init__] builds for [SYMBOLS] when it creates the table. *)
Definition owner_book : SharedPriceBook :=
  {| symbols := sorted SYMBOLS;
     shm_name := SHM_NAME;
     size := 2;
     symbol_to_index := index_of_symbols (sorted SYMBOLS);
     is_creator := true;
     shm := Some {| shm_block := 0 |} |}.

(** The single message of the price stream, as the gateway frames it. *)
Definition price_message : bytes := b "AAPL,101.00MSFT,205.50" ++ MESSAGE_DELIMITER.

End Scenario.

(** ** An order stream with a malformed message in it *)
Module BadOrder.
Import PyFloat.

(** A well-formed order as [_send_order] frames it. *)
Definition good_order : Json.value :=
  Strategy.order_record 1 (u "AAPL") Strategy.BUY 10
                        (dyadic 203 (-1)) (dyadic 3400000001 (-1)).

Definition good_message : bytes :=
  match Strategy._send_order false good_order with
  | Strategy.Sent _ full_message => full_message
  | _ => []
  end.

(** A message that is no JSON. *)
Definition bad_message : bytes := b "not json" ++ MESSAGE_DELIMITER.

(** One connection that delivers the malformed message and then the
    well-formed one, and is closed by the peer after that. *)
Definition connection : socket := [RecvBytes (bad_message ++ good_message)].

(** The same on the price channel: a message with a price that is no
    number, then a well-formed one. *)
Definition price_connection : socket :=
  [RecvBytes (b "AAPL,1x1.00MSFT,205.50" ++ MESSAGE_DELIMITER
              ++ b "AAPL,101.00MSFT,205.50" ++ MESSAGE_DELIMITER)].

End BadOrder.

(** ** The helper of the client processes *)
Module Clients.
Import SharedMemoryUtils.

(** [close_shared_price_book(shm_instance)]: closes the attachment of a
    handle that has one, and catches nothing.  [close_raises] is the
    exception [shm.close()] raises, if it raises one. *)
Definition close_shared_price_book (shm_instance : option SharedPriceBook)
    (close_raises : option exn) (w : shm_world) : result unit * shm_world :=
  match shm_instance with
  | None => (Return (), w)
  | Some book =>
      match shm book with
      | None => (Return (), w)
      | Some _ =>
          match close_raises with
          | Some e => (Raise e, w)
          | None => (Return (), w)
          end
      end
  end.

End Clients.

(** ** gateway.py *)
Module Gateway.
Import PyFloat Json.

Definition SYMBOLS : list str := [u "AAPL"; u "MSFT"; u "GOOGL"].

(** [x * 100] as an integer, rounded to the nearest one and to the even one
    on a tie, for a positive finite [x = m * 2^e]. *)
Definition hundredths (m : positive) (e : Z) : Z :=
  let t := scale10 (fraction m e) 2 in
  let lo := t.1 / t.2 in
  let twice_rem := 2 * (t.1 mod t.2) in
  if twice_rem <? t.2 then lo
  else if t.2 <? twice_rem then lo + 1
  else if Z.even lo then lo else lo + 1.

(** The two digits of a number below one hundred. *)
Definition two_digits (n : Z) : str :=
  [(48 + Z.to_N (n / 10))%N; (48 + Z.to_N (n mod 10))%N].

(** [f"{x:.2f}"] for a [float]. *)
Definition format_2f (x : float) : str :=
  match x with
  | S754_nan => u "nan"
  | S754_infinity neg => if neg then u "-inf" else u "inf"
  | S754_zero neg => if neg then u "-0.00" else u "0.00"
  | S754_finite neg m e =>
      let n := hundredths m e in
      (if neg then [45%N] else [])
      ++ digits (Z.to_N (n / 100)) ++ 46%N :: two_digits (n mod 100)
  end.

(** [round(x, 2)] for a [float]: the [float] next to the decimal number
    with two places next to [x]; infinities and NaN are returned as they
    are. *)
Definition round2 (x : float) : float :=
  match x with
  | S754_finite neg m e => of_decimal neg (hundredths m e) (-2)
  | _ => x
  end.

(** One step of the random walk of a price; [r] is what [random.random()]
    returned. *)
Definition walk (r price : float) : float :=
  let change :=
    SFmul prec emax (SFsub prec emax r (dyadic 1 (-1))) (of_decimal false 2 (-3)) in
  round2 (SFmul prec emax price (SFadd prec emax (dyadic 1 0) change)).

(** The loop [for symbol in SYMBOLS] of [price_streamer] over the symbols
    still to visit.  [random n] is the result of the [n]-th call of
    [random.random()], [calls] the number of calls made so far. *)
Fixpoint price_loop (todo : list str) (random : nat -> float) (calls : nat)
    (current_prices : list (str * float)) (message : str)
  : result (list (str * float) * str) :=
  match todo with
  | [] => Return (current_prices, message)
  | symbol :: todo' =>
      match dict_get current_prices symbol with
      | None => Raise KeyError
      | Some price =>
          let price' := walk (random calls) price in
          price_loop todo' random (S calls)
                     (dict_set current_prices symbol price')
                     (message ++ symbol ++ 44%N :: format_2f price')
      end
  end.

(** One turn of the sending loop of [price_streamer]: the prices after the
    walk and the framed message ([UnicodeEncodeError] is a [ValueError]). *)
Definition price_tick (random : nat -> float) (calls : nat)
    (current_prices : list (str * float))
  : result (list (str * float) * bytes) :=
  match price_loop SYMBOLS random calls current_prices [] with
  | Raise e => Raise e
  | Return (prices, message) =>
      match encode message with
      | Some data => Return (prices, data ++ MESSAGE_DELIMITER)
      | None => Raise ValueError
      end
  end.

(** [{sym: random.uniform(100.0, 500.0) for sym in SYMBOLS}]; [uniform n] is
    the result of the [n]-th call. *)
Definition initial_prices (uniform : nat -> float) : list (str * float) :=
  foldl (λ d p, dict_set d p.2 (uniform p.1)) []
        (zip (seq 0 (length SYMBOLS)) SYMBOLS).

(** One turn of the sending loop of [news_streamer] for the sentiment that
    [random.randint(0, 100)] returned. *)
Definition news_message (sentiment : Z) : option bytes :=
  match encode (dumps (PyInt sentiment)) with
  | Some data => Some (data ++ MESSAGE_DELIMITER)
  | None => None
  end.

(** What the two streamers do that can be seen from outside. *)
Inductive event :=
| StartFailed
| Accepted
| Sent (full_message : bytes)
| Disconnected
| UnexpectedError (e : exn).

(** The [except] clauses of the accept loops. *)
Definition on_exception (e : exn) : event :=
  match e with
  | ConnectionResetError => Disconnected
  | _ => UnexpectedError e
  end.

(** The messages handed to [sendall]. *)
Definition sent (evs : list event) : list bytes :=
  omap (λ ev, match ev with Sent full_message => Some full_message | _ => None end)
       evs.

(** The sending loop of [price_streamer] on one connection: a tick and a
    [sendall] per turn.  [sends] says what each [sendall] does, [None] for a
    return and [Some e] for an exception, as long as the process is looked
    at.  The loop is left by an exception only. *)
Fixpoint price_sending (sends : list (option exn)) (random : nat -> float)
    (calls : nat) (current_prices : list (str * float))
  : option exn * nat * list (str * float) * list event :=
  match sends with
  | [] => (None, calls, current_prices, [])
  | outcome :: sends' =>
      match price_tick random calls current_prices with
      | Raise e => (Some e, calls, current_prices, [])
      | Return (prices, full_message) =>
          let calls' := (calls + length SYMBOLS)%nat in
          match outcome with
          | Some e => (Some e, calls', prices, [])
          | None =>
              let '(r, calls'', prices', evs) :=
                price_sending sends' random calls' prices in
              (r, calls'', prices', Sent full_message :: evs)
          end
      end
  end.

(** What one [server_socket.accept()] does: a connection with the fate of
    its sends, or an exception. *)
Inductive accept_outcome :=
| Accepts (sends : list (option exn))
| AcceptRaises (e : exn).

(** The accept loop of [price_streamer].  The prices are kept from one
    connection to the next. *)
Fixpoint price_accepting (incoming : list accept_outcome) (random : nat -> float)
    (calls : nat) (current_prices : list (str * float)) : list event :=
  match incoming with
  | [] => []
  | AcceptRaises e :: incoming' =>
      on_exception e :: price_accepting incoming' random calls current_prices
  | Accepts sends :: incoming' =>
      match price_sending sends random calls current_prices with
      | (Some e, calls', prices, evs) =>
          Accepted :: evs
          ++ on_exception e :: price_accepting incoming' random calls' prices
      | (None, _, _, evs) => Accepted :: evs
      end
  end.

(** [price_streamer()]; [bind_fails] says whether [bind]/[listen] raise. *)
Definition price_streamer (bind_fails : bool) (uniform random : nat -> float)
    (incoming : list accept_outcome) : list event :=
  if bind_fails then [StartFailed]
  else price_accepting incoming random 0 (initial_prices uniform).

(** The sending loop of [news_streamer] on one connection; [randint n] is
    the result of the [n]-th call of [random.randint(0, 100)]. *)
Fixpoint news_sending (sends : list (option exn)) (randint : nat -> Z)
    (calls : nat) : option exn * nat * list event :=
  match sends with
  | [] => (None, calls, [])
  | outcome :: sends' =>
      match news_message (randint calls) with
      | None => (Some ValueError, S calls, [])
      | Some full_message =>
          match outcome with
          | Some e => (Some e, S calls, [])
          | None =>
              let '(r, calls', evs) := news_sending sends' randint (S calls) in
              (r, calls', Sent full_message :: evs)
          end
      end
  end.

(** The accept loop of [news_streamer]. *)
Fixpoint news_accepting (incoming : list accept_outcome) (randint : nat -> Z)
    (calls : nat) : list event :=
  match incoming with
  | [] => []
  | AcceptRaises e :: incoming' =>
      on_exception e :: news_accepting incoming' randint calls
  | Accepts sends :: incoming' =>
      match news_sending sends randint calls with
      | (Some e, calls', evs) =>
          Accepted :: evs ++ on_exception e :: news_accepting incoming' randint calls'
      | (None, _, evs) => Accepted :: evs
      end
  end.

(** [news_streamer()]. *)
Definition news_streamer (bind_fails : bool) (randint : nat -> Z)
    (incoming : list accept_outcome) : list event :=
  if bind_fails then [StartFailed] else news_accepting incoming randint 0.

End Gateway.

(** * Proofs *)

(** ** Text: searching and UTF-8 *)
Module TextFacts.
Import Text.

Section Find.
Context {A : Type} `{EqDecision A}.

Lemma startswith_single (x : A) (s : list A) :
  startswith [x] s = match s with y :: _ => bool_decide (x = y) | [] => false end.
Proof.
  destruct s as [|y s]; simpl; [done|].
  destruct (decide (x = y)).
  - by rewrite bool_decide_eq_true_2.
  - by rewrite bool_decide_eq_false_2.
Qed.

Lemma find_aux_absent (x : A) (s : list A) (i : nat) :
  x ∉ s -> find_aux [x] s i = None.
Proof.
  revert i. induction s as [|y s IH]; intros i Hx; [done|].
  apply not_elem_of_cons in Hx as [Hxy Hs].
  cbn [find_aux]. rewrite startswith_single, bool_decide_eq_false_2 by done.
  by apply IH.
Qed.

Lemma find_aux_first (x : A) (p r : list A) (i : nat) :
  x ∉ p -> find_aux [x] (p ++ x :: r) i = Some (i + length p)%nat.
Proof.
  revert i. induction p as [|y p IH]; intros i Hx.
  - cbn [app find_aux]. rewrite startswith_single, bool_decide_eq_true_2 by done.
    f_equal. simpl. lia.
  - apply not_elem_of_cons in Hx as [Hxy Hp].
    cbn [app find_aux]. rewrite startswith_single, bool_decide_eq_false_2 by done.
    rewrite IH by done. f_equal. simpl. lia.
Qed.

Lemma find_absent (x : A) (s : list A) : x ∉ s -> find [x] s = -1.
Proof.
  intros Hx. unfold find, find_from.
  destruct (Z.ltb_spec (Z.of_nat (length s)) 0); [lia|].
  change (Z.to_nat 0) with 0%nat. rewrite drop_0.
  by rewrite find_aux_absent.
Qed.

Lemma find_first (x : A) (p r : list A) :
  x ∉ p -> find [x] (p ++ x :: r) = Z.of_nat (length p).
Proof.
  intros Hx. unfold find, find_from.
  destruct (Z.ltb_spec (Z.of_nat (length (p ++ x :: r))) 0); [lia|].
  change (Z.to_nat 0) with 0%nat. rewrite drop_0.
  by rewrite find_aux_first.
Qed.

Lemma find_aux_bound (x : A) (s : list A) (i j : nat) :
  find_aux [x] s i = Some j -> (i <= j < i + length s)%nat.
Proof.
  revert i. induction s as [|y s IH]; intros i.
  - cbn [find_aux]. by rewrite startswith_single.
  - cbn [find_aux]. rewrite startswith_single. case_bool_decide.
    + intros [= <-]. simpl. lia.
    + intros H'. apply IH in H'. simpl. lia.
Qed.

Lemma find_bound (x : A) (s : list A) :
  find [x] s ≠ -1 -> 0 <= find [x] s < Z.of_nat (length s).
Proof.
  unfold find, find_from.
  destruct (Z.ltb_spec (Z.of_nat (length s)) 0); [lia|].
  change (Z.to_nat 0) with 0%nat. rewrite drop_0.
  destruct (find_aux [x] s 0) as [j|] eqn:E; [|done].
  apply find_aux_bound in E. lia.
Qed.

Lemma find_present (x : A) (s : list A) :
  find [x] s ≠ -1 -> x ∈ s.
Proof.
  intros Hf. destruct (decide (x ∈ s)) as [|Hn]; [done|].
  by rewrite find_absent in Hf.
Qed.
End Find.

(** *** UTF-8: decoding undoes encoding *)

Lemma to_N_byte_of_N (n : N) : (n < 256)%N -> Byte.to_N (byte_of_N n) = n.
Proof.
  intros Hn. unfold byte_of_N.
  destruct (Byte.of_N n) as [x|] eqn:E.
  - by apply Byte.to_of_N.
  - apply Byte.of_N_None_iff in E. lia.
Qed.

Local Ltac arith :=
  Z.to_euclidean_division_equations; lia.

Lemma decode_encode_char (c : N) (bs rest : bytes) :
  utf8_encode_char c = Some bs ->
  decode (bs ++ rest) = cons c <$> decode rest.
Proof.
  unfold utf8_encode_char, is_surrogate.
  repeat match goal with
  | |- context [N.ltb ?a ?k] => destruct (N.ltb_spec a k)
  | |- context [N.leb ?a ?k] => destruct (N.leb_spec a k)
  end; cbn [andb]; intros [= <-]; cbn [app decode];
  unfold is_continuation, low6, is_surrogate;
  rewrite !to_N_byte_of_N by (zify; arith).
  all: repeat match goal with
  | |- context [N.ltb ?a ?k] => destruct (N.ltb_spec a k); try (exfalso; zify; arith)
  | |- context [N.leb ?a ?k] => destruct (N.leb_spec a k); try (exfalso; zify; arith)
  end; cbn [andb negb].
  all: try (f_equal; f_equal; zify; arith).
Qed.

Lemma decode_app_encode (s : str) (bs rest : bytes) :
  encode s = Some bs ->
  decode (bs ++ rest) = (λ t, s ++ t) <$> decode rest.
Proof.
  revert bs. induction s as [|c s IH]; intros bs.
  - intros [= <-]. simpl. by destruct (decode rest).
  - cbn [encode].
    destruct (utf8_encode_char c) as [cb|] eqn:Ec; [|done].
    destruct (encode s) as [sb|] eqn:Es; [|done].
    intros [= <-]. rewrite <- app_assoc.
    rewrite (decode_encode_char c cb _ Ec), (IH sb eq_refl).
    by destruct (decode rest).
Qed.

Lemma decode_encode (s : str) (bs : bytes) :
  encode s = Some bs -> decode bs = Some s.
Proof.
  intros E. rewrite <- (app_nil_r bs), (decode_app_encode s bs [] E).
  simpl. by rewrite app_nil_r.
Qed.

(** A code point below 128 is its own UTF-8 form, and no other code point
    has a byte below 128 in its form. *)
Lemma encode_char_ascii_byte (c : N) (bs : bytes) (x : byte) :
  utf8_encode_char c = Some bs -> x ∈ bs -> (Byte.to_N x < 128)%N ->
  c = Byte.to_N x.
Proof.
  unfold utf8_encode_char, is_surrogate.
  repeat match goal with
  | |- context [N.ltb ?a ?k] => destruct (N.ltb_spec a k)
  | |- context [N.leb ?a ?k] => destruct (N.leb_spec a k)
  end; cbn [andb]; intros [= <-] Hx Hlt;
  repeat (apply elem_of_cons in Hx as [->|Hx]);
  try (by apply elem_of_nil in Hx);
  rewrite to_N_byte_of_N in * by (zify; arith);
  zify; arith.
Qed.

Lemma encode_ascii_byte (s : str) (bs : bytes) (x : byte) :
  encode s = Some bs -> x ∈ bs -> (Byte.to_N x < 128)%N -> Byte.to_N x ∈ s.
Proof.
  revert bs. induction s as [|c s IH]; intros bs.
  - intros [= <-] Hx. by apply elem_of_nil in Hx.
  - cbn [encode].
    destruct (utf8_encode_char c) as [cb|] eqn:Ec; [|done].
    destruct (encode s) as [sb|] eqn:Es; [|done].
    intros [= <-] Hx Hlt. apply elem_of_app in Hx as [Hx|Hx].
    + rewrite (encode_char_ascii_byte c cb x Ec Hx Hlt). apply list_elem_of_here.
    + apply list_elem_of_further. by apply (IH sb).
Qed.

(** Text without a line feed encodes to bytes without the delimiter. *)
Lemma encode_no_delimiter (s : str) (bs : bytes) :
  encode s = Some bs -> 10%N ∉ s -> "010"%byte ∉ bs.
Proof.
  intros E Hs Hx. apply Hs.
  by apply (encode_ascii_byte s bs "010"%byte E Hx).
Qed.

End TextFacts.


(** ** Framing: [receive_framed_message] in the three consumers *)
Module Framing.
Import TextFacts.

(** The delimiter is found at the end of a first part that is free of it. *)
Lemma find_delimiter (p r : bytes) :
  "010"%byte ∉ p ->
  find MESSAGE_DELIMITER (p ++ MESSAGE_DELIMITER ++ r) = Z.of_nat (length p).
Proof. intros Hp. unfold MESSAGE_DELIMITER. simpl. by apply find_first. Qed.

Lemma no_delimiter (buf : bytes) :
  "010"%byte ∉ buf -> find MESSAGE_DELIMITER buf = -1.
Proof. apply find_absent. Qed.

Lemma split_at_delimiter (p r : bytes) :
  slice_to (p ++ MESSAGE_DELIMITER ++ r) (Z.of_nat (length p)) = p
  ∧ slice_from (p ++ MESSAGE_DELIMITER ++ r)
               (Z.of_nat (length p) + Z.of_nat (length MESSAGE_DELIMITER)) = r.
Proof.
  unfold slice_to, slice_from, MESSAGE_DELIMITER. simpl. split.
  - rewrite Nat2Z.id. by rewrite take_app_length.
  - replace (Z.to_nat (Z.of_nat (length p) + Z.of_nat 1)) with (length p + 1)%nat by lia.
    by rewrite drop_app_add'.
Qed.

(** A reader that finds a whole message in its buffer returns it and leaves
    the socket alone.  The three readers are proved by the same steps. *)
Local Ltac buffered receive :=
  let sock := fresh "sock" in
  intros ? ? sock; destruct sock; cbn [receive];
  rewrite find_delimiter by done;
  match goal with
  | |- context [Z.eqb ?a (-1)] => destruct (Z.eqb_spec a (-1)) as [|_]; [lia|]
  end;
  cbn [negb];
  rewrite (proj1 (split_at_delimiter _ _)), (proj2 (split_at_delimiter _ _));
  by simplify_option_eq.

Lemma OrderBook_buffered (p r : bytes) (s : str) :
  decode p = Some s -> "010"%byte ∉ p -> forall sock,
  OrderBook.receive_framed_message sock (p ++ MESSAGE_DELIMITER ++ r)
  = (Return s, r, sock).
Proof. buffered OrderBook.receive_framed_message. Qed.

Lemma OrderManager_buffered (p r : bytes) (s : str) :
  decode p = Some s -> "010"%byte ∉ p -> forall sock,
  OrderManager.receive_framed_message sock (p ++ MESSAGE_DELIMITER ++ r)
  = (Return s, r, sock).
Proof. buffered OrderManager.receive_framed_message. Qed.

Lemma Strategy_buffered (p r : bytes) (s : str) :
  decode p = Some s -> "010"%byte ∉ p -> forall sock,
  Strategy.receive_framed_news_message sock (p ++ MESSAGE_DELIMITER ++ r)
  = (Return s, r, sock).
Proof. buffered Strategy.receive_framed_news_message. Qed.

(** A reader whose buffer holds no delimiter takes the next chunk from the
    socket and goes on with the longer buffer. *)
Local Ltac fetching receive :=
  intros Hbuf Hchunk; cbn [receive];
  rewrite (no_delimiter _ Hbuf); cbn [Z.eqb negb];
  match goal with
  | |- context [RecvBytes ?c :: _] => by destruct c
  end.

Lemma OrderBook_fetch (buf chunk : bytes) (sock : socket) :
  "010"%byte ∉ buf -> chunk ≠ [] ->
  OrderBook.receive_framed_message (RecvBytes chunk :: sock) buf
  = OrderBook.receive_framed_message sock (buf ++ chunk).
Proof. fetching OrderBook.receive_framed_message. Qed.

Lemma OrderManager_fetch (buf chunk : bytes) (sock : socket) :
  "010"%byte ∉ buf -> chunk ≠ [] ->
  OrderManager.receive_framed_message (RecvBytes chunk :: sock) buf
  = OrderManager.receive_framed_message sock (buf ++ chunk).
Proof. fetching OrderManager.receive_framed_message. Qed.

Lemma Strategy_fetch (buf chunk : bytes) (sock : socket) :
  "010"%byte ∉ buf -> chunk ≠ [] ->
  Strategy.receive_framed_news_message (RecvBytes chunk :: sock) buf
  = Strategy.receive_framed_news_message sock (buf ++ chunk).
Proof. fetching Strategy.receive_framed_news_message. Qed.

(** A reader whose buffer holds no delimiter and whose [recv] returns [b'']
    raises its stream-closed exception, the buffer untouched. *)
Local Ltac closing receive :=
  intros Hbuf; cbn [receive];
  by rewrite (no_delimiter _ Hbuf).

Lemma OrderBook_closed (buf : bytes) (sock : socket) :
  "010"%byte ∉ buf ->
  OrderBook.receive_framed_message (RecvBytes [] :: sock) buf
  = (Raise SocketStreamClosed, buf, sock).
Proof. closing OrderBook.receive_framed_message. Qed.

Lemma OrderManager_closed (buf : bytes) (sock : socket) :
  "010"%byte ∉ buf ->
  OrderManager.receive_framed_message (RecvBytes [] :: sock) buf
  = (Raise ConnectionResetError, buf, sock).
Proof. closing OrderManager.receive_framed_message. Qed.

Lemma Strategy_closed (buf : bytes) (sock : socket) :
  "010"%byte ∉ buf ->
  Strategy.receive_framed_news_message (RecvBytes [] :: sock) buf
  = (Raise SocketStreamClosed, buf, sock).
Proof. closing Strategy.receive_framed_news_message. Qed.

(** Chunks of a message still without its delimiter. *)
Definition partial (chunks : list bytes) : Prop :=
  Forall (λ chunk, chunk ≠ [] ∧ "010"%byte ∉ chunk) chunks.

Lemma partial_concat (buf : bytes) (chunks : list bytes) :
  "010"%byte ∉ buf -> partial chunks -> "010"%byte ∉ buf ++ concat chunks.
Proof.
  intros Hbuf Hp. rewrite elem_of_app. intros [H|H]; [done|].
  induction Hp as [|chunk chunks [_ Hc] _ IH]; simpl in H.
  - by apply elem_of_nil in H.
  - apply elem_of_app in H as [H|H]; [done|by apply IH].
Qed.

Local Ltac closing_after fetch closed :=
  intros buf chunks; revert buf;
  induction chunks as [|chunk chunks IH]; intros buf rest Hbuf Hp;
  [ simpl; rewrite app_nil_r; by apply closed
  | apply Forall_cons in Hp as [[Hne Hc] Hp];
    cbn [fmap list_fmap app concat];
    rewrite fetch by done;
    rewrite IH by (try done; rewrite elem_of_app; tauto);
    by rewrite app_assoc ].

Lemma OrderBook_closed_after (buf : bytes) (chunks : list bytes) (rest : socket) :
  "010"%byte ∉ buf -> partial chunks ->
  OrderBook.receive_framed_message ((RecvBytes <$> chunks) ++ RecvBytes [] :: rest) buf
  = (Raise SocketStreamClosed, buf ++ concat chunks, rest).
Proof. revert buf chunks rest. closing_after OrderBook_fetch OrderBook_closed. Qed.

Lemma OrderManager_closed_after (buf : bytes) (chunks : list bytes) (rest : socket) :
  "010"%byte ∉ buf -> partial chunks ->
  OrderManager.receive_framed_message ((RecvBytes <$> chunks) ++ RecvBytes [] :: rest) buf
  = (Raise ConnectionResetError, buf ++ concat chunks, rest).
Proof. revert buf chunks rest. closing_after OrderManager_fetch OrderManager_closed. Qed.

Lemma Strategy_closed_after (buf : bytes) (chunks : list bytes) (rest : socket) :
  "010"%byte ∉ buf -> partial chunks ->
  Strategy.receive_framed_news_message ((RecvBytes <$> chunks) ++ RecvBytes [] :: rest) buf
  = (Raise SocketStreamClosed, buf ++ concat chunks, rest).
Proof. revert buf chunks rest. closing_after Strategy_fetch Strategy_closed. Qed.

(** Three calls of a reader on a first chunk made of three payloads. *)
Definition reads_three
    (receive : socket -> bytes -> result str * bytes * socket)
    (s1 s2 s3 : str) (b1 b2 b3 : bytes) (sock : socket) : Prop :=
  let d := MESSAGE_DELIMITER in
  receive (RecvBytes (b1 ++ d ++ b2 ++ d ++ b3 ++ d) :: sock) []
  = (Return s1, b2 ++ d ++ b3 ++ d, sock)
  ∧ receive sock (b2 ++ d ++ b3 ++ d) = (Return s2, b3 ++ d, sock)
  ∧ receive sock (b3 ++ d) = (Return s3, [], sock).

(** C1.  A first chunk holds three payloads, each followed by the delimiter:
    the UTF-8 forms of three texts without a line feed.  Then three calls of
    [receive_framed_message], in OrderBook.py and in OrderManager.py alike,
    return the three texts in order; the first call takes that chunk from the
    socket and no call takes anything more; the buffer is empty at the end. *)
Theorem C1_three_payloads_in_one_chunk
    (s1 s2 s3 : str) (b1 b2 b3 : bytes) (sock : socket) :
  encode s1 = Some b1 -> encode s2 = Some b2 -> encode s3 = Some b3 ->
  10%N ∉ s1 -> 10%N ∉ s2 -> 10%N ∉ s3 ->
  reads_three OrderBook.receive_framed_message s1 s2 s3 b1 b2 b3 sock
  ∧ reads_three OrderManager.receive_framed_message s1 s2 s3 b1 b2 b3 sock.
Proof.
  intros E1 E2 E3 H1 H2 H3.
  pose proof (decode_encode _ _ E1) as D1.
  pose proof (decode_encode _ _ E2) as D2.
  pose proof (decode_encode _ _ E3) as D3.
  pose proof (encode_no_delimiter _ _ E1 H1) as N1.
  pose proof (encode_no_delimiter _ _ E2 H2) as N2.
  pose proof (encode_no_delimiter _ _ E3 H3) as N3.
  assert (b1 ++ MESSAGE_DELIMITER ++ b2 ++ MESSAGE_DELIMITER ++ b3 ++ MESSAGE_DELIMITER ≠ [])
    as Hne by (by destruct b1).
  unfold reads_three. repeat split.
  - rewrite OrderBook_fetch by (done || apply not_elem_of_nil).
    by apply OrderBook_buffered.
  - by apply OrderBook_buffered.
  - rewrite <- (app_nil_r MESSAGE_DELIMITER) at 1. by apply OrderBook_buffered.
  - rewrite OrderManager_fetch by (done || apply not_elem_of_nil).
    by apply OrderManager_buffered.
  - by apply OrderManager_buffered.
  - rewrite <- (app_nil_r MESSAGE_DELIMITER) at 1. by apply OrderManager_buffered.
Qed.

Lemma C1_witness :
  reads_three OrderBook.receive_framed_message
              (u "AAPL,1.00") ([] : str) (u "MSFT,2.50")
              (b "AAPL,1.00") ([] : bytes) (b "MSFT,2.50") [RecvBytes (b "tail")]
  ∧ reads_three OrderManager.receive_framed_message
              (u "AAPL,1.00") ([] : str) (u "MSFT,2.50")
              (b "AAPL,1.00") ([] : bytes) (b "MSFT,2.50") [RecvBytes (b "tail")].
Proof.
  apply C1_three_payloads_in_one_chunk; try reflexivity;
    apply (bool_decide_unpack _); vm_compute; exact I.
Defined.

(** C2.  The buffer and the chunks that arrive hold no delimiter, and then
    [recv] returns [b''].  The reader raises: [SocketStreamClosed] in
    OrderBook.py and Strategy.py, [ConnectionResetError] (the exception its
    accept loop takes for a closed stream) in OrderManager.py.  No message is
    returned, and the partial bytes stay in the buffer. *)
Theorem C2_closed_before_a_message
    (buf : bytes) (chunks : list bytes) (rest : socket) :
  "010"%byte ∉ buf -> partial chunks ->
  let sock := (RecvBytes <$> chunks) ++ RecvBytes [] :: rest in
  OrderBook.receive_framed_message sock buf
  = (Raise SocketStreamClosed, buf ++ concat chunks, rest)
  ∧ Strategy.receive_framed_news_message sock buf
    = (Raise SocketStreamClosed, buf ++ concat chunks, rest)
  ∧ OrderManager.receive_framed_message sock buf
    = (Raise ConnectionResetError, buf ++ concat chunks, rest).
Proof.
  intros Hbuf Hp. repeat split.
  - by apply OrderBook_closed_after.
  - by apply Strategy_closed_after.
  - by apply OrderManager_closed_after.
Qed.

Lemma C2_witness :
  let sock := (RecvBytes <$> [b "01."; b "5"]) ++ [RecvBytes []] in
  OrderBook.receive_framed_message sock (b "AAPL,1")
  = (Raise SocketStreamClosed, b "AAPL,1" ++ concat [b "01."; b "5"], [])
  ∧ Strategy.receive_framed_news_message sock (b "AAPL,1")
    = (Raise SocketStreamClosed, b "AAPL,1" ++ concat [b "01."; b "5"], [])
  ∧ OrderManager.receive_framed_message sock (b "AAPL,1")
    = (Raise ConnectionResetError, b "AAPL,1" ++ concat [b "01."; b "5"], []).
Proof.
  apply (C2_closed_before_a_message (b "AAPL,1") [b "01."; b "5"] []).
  - apply (bool_decide_unpack _); vm_compute; exact I.
  - repeat constructor; try done; apply (bool_decide_unpack _); vm_compute; exact I.
Defined.

End Framing.


(** ** SharedPriceBook *)
Module PriceBookFacts.
Import SharedMemoryUtils.

(** The index a symbol is given is a place where it stands. *)
Lemma index_fold_lookup (l : list str) (k : nat) (m : gmap str nat) (s : str) (i : nat) :
  foldl (λ m p, <[p.2 := p.1]> m) m (zip (seq k (length l)) l) !! s = Some i ->
  (k <= i ∧ l !! (i - k)%nat = Some s)%nat ∨ m !! s = Some i.
Proof.
  revert k m. induction l as [|x l IH]; intros k m; [by right|].
  cbn [length seq zip zip_with foldl]. intros H. apply IH in H as [[Hk Hl]|H].
  - left. split; [lia|]. by replace (i - k)%nat with (S (i - S k)) by lia.
  - cbn [fst snd] in H. destruct (decide (x = s)) as [->|Hne].
    + rewrite lookup_insert_eq in H. injection H as <-. left.
      split; [lia|]. by rewrite Nat.sub_diag.
    + rewrite lookup_insert_ne in H by done. by right.
Qed.

Lemma index_fold_is_Some (l : list str) (k : nat) (m : gmap str nat) (s : str) :
  s ∈ l ∨ is_Some (m !! s) ->
  is_Some (foldl (λ m p, <[p.2 := p.1]> m) m (zip (seq k (length l)) l) !! s).
Proof.
  revert k m. induction l as [|x l IH]; intros k m.
  - intros [H|H]; [by apply elem_of_nil in H|done].
  - cbn [length seq zip zip_with foldl fst snd]. intros H. apply IH.
    destruct H as [H|H].
    + apply elem_of_cons in H as [->|H]; [|by left].
      right. rewrite lookup_insert_eq. by eexists.
    + right. destruct (decide (x = s)) as [->|Hne].
      * rewrite lookup_insert_eq. by eexists.
      * by rewrite lookup_insert_ne.
Qed.

Lemma index_of_symbols_Some (l : list str) (s : str) (i : nat) :
  index_of_symbols l !! s = Some i -> l !! i = Some s.
Proof.
  intros H. apply index_fold_lookup in H as [[_ H]|H].
  - by rewrite Nat.sub_0_r in H.
  - by rewrite lookup_empty in H.
Qed.

Lemma index_of_symbols_None (l : list str) (s : str) :
  index_of_symbols l !! s = None <-> s ∉ l.
Proof.
  split.
  - intros H Hin.
    destruct (index_fold_is_Some l 0 ∅ s (or_introl Hin)) as [i Hi].
    unfold index_of_symbols in H. congruence.
  - intros Hn. destruct (index_of_symbols l !! s) as [i|] eqn:E; [|done].
    apply index_of_symbols_Some in E. destruct Hn.
    by apply list_elem_of_lookup_2 in E.
Qed.

(** A handle as [__init__] leaves it, over a world in which its block has
    room for its records. *)
Record attached (self : SharedPriceBook) (w : shm_world) : Prop := {
  attached_index : symbol_to_index self = index_of_symbols (symbols self);
  attached_size : size self = length (symbols self);
  attached_block : exists m,
    shm self = Some m
    ∧ (size self <= length (default [] (blocks w !! shm_block m)))%nat
}.

Lemma init_attached (symbols0 : list str) (name : str) (create : bool)
    (w w' : shm_world) (self : SharedPriceBook) :
  init symbols0 name create w = (Return self, w') -> attached self w'.
Proof.
  unfold init. destruct create.
  - destruct (length (sorted symbols0) =? 0)%nat; [done|].
    destruct (names w !! name); [done|].
    intros [= <- <-]. split; [done..|]. cbn.
    eexists. split; [done|]. cbn.
    rewrite lookup_app_r, Nat.sub_diag by done. cbn.
    by rewrite length_fmap.
  - destruct (names w !! name) as [id|]; [|done].
    destruct (Nat.ltb_spec (length (default [] (blocks w !! id)))
                           (length (sorted symbols0))); [done|].
    intros [= <- <-]. split; [done..|]. cbn. by eexists.
Qed.

(** The records a handle sees after a store at [index]. *)
Lemma data_array_set_price (self : SharedPriceBook) (w : shm_world)
    (index : nat) (price : float) (r : row) :
  data_array self w !! index = Some r ->
  exists w',
    set_price self index price w = (Return (), w')
    ∧ names w' = names w
    ∧ data_array self w' = <[index := Row (row_symbol r) price]> (data_array self w)
    ∧ forall id, Some id ≠ shm_block <$> shm self -> blocks w' !! id = blocks w !! id.
Proof.
  unfold set_price, data_array. destruct (shm self) as [m|]; [|done].
  intros Hr. rewrite Hr. eexists. split; [done|]. cbn. split; [done|]. split.
  - destruct (blocks w !! shm_block m) as [rows|] eqn:Hb.
    + rewrite list_lookup_alter_eq, Hb. cbn.
      by rewrite take_insert_lt by (apply lookup_lt_Some in Hr; rewrite length_take in Hr; lia).
    + cbn in Hr. by rewrite take_nil in Hr.
  - intros id Hid. rewrite list_lookup_alter_ne; [done|]. cbn in Hid. congruence.
Qed.

(** C4.  On a table as [__init__] leaves it, [update(symbol, price)] for a
    symbol of the table returns without raising and stores [price] in the
    record at that symbol's index: the record keeps its symbol, every other
    record is as it was, and so are the names and the other blocks of the
    shared memory.  For any other symbol the call returns without raising and
    the shared memory is as it was.  (The handle itself, and with it the
    symbol set, is not written by [update].) *)
Theorem C4_update_frame (self : SharedPriceBook) (w : shm_world)
    (symbol : str) (price : float) :
  attached self w ->
  (symbol ∈ symbols self ->
   exists index r w',
     symbol_to_index self !! symbol = Some index
     ∧ symbols self !! index = Some symbol
     ∧ data_array self w !! index = Some r
     ∧ update self symbol price w = (Return (), w')
     ∧ data_array self w' !! index = Some (Row (row_symbol r) price)
     ∧ (forall j, j ≠ index -> data_array self w' !! j = data_array self w !! j)
     ∧ row_symbol <$> data_array self w' = row_symbol <$> data_array self w
     ∧ names w' = names w
     ∧ (forall id, Some id ≠ shm_block <$> shm self -> blocks w' !! id = blocks w !! id))
  ∧ (symbol ∉ symbols self -> update self symbol price w = (Return (), w)).
Proof.
  intros [Hidx Hsize (m & Hm & Hroom)]. split.
  - intros Hin.
    destruct (symbol_to_index self !! symbol) as [index|] eqn:Hi; cycle 1.
    { rewrite Hidx in Hi. by apply index_of_symbols_None in Hi. }
    pose proof Hi as Hs. rewrite Hidx in Hs. apply index_of_symbols_Some in Hs.
    assert (index < size self)%nat as Hlt
      by (rewrite Hsize; by apply lookup_lt_Some in Hs).
    destruct (data_array self w !! index) as [r|] eqn:Hr; cycle 1.
    { apply lookup_ge_None in Hr. unfold data_array in Hr. rewrite Hm in Hr.
      rewrite length_take in Hr. lia. }
    destruct (data_array_set_price self w index price r Hr)
      as (w' & Hset & Hnames & Hdata & Hother).
    exists index, r, w'. unfold update. rewrite Hi.
    repeat split; try done.
    + rewrite Hdata. apply list_lookup_insert_eq. by apply lookup_lt_Some in Hr.
    + intros j Hj. rewrite Hdata. by apply list_lookup_insert_ne.
    + rewrite Hdata, list_fmap_insert. cbn. apply list_insert_id.
      by rewrite list_lookup_fmap, Hr.
  - intros Hn. unfold update.
    apply index_of_symbols_None in Hn. by rewrite Hidx, Hn.
Qed.

Lemma C4_update_frame_witness :
  let self := Scenario.owner_book in
  let w := Scenario.created.2 in
  let symbol := u "AAPL" in
  let price := PyFloat.dyadic 101 0 in
  attached self w
  ∧ (symbol ∈ symbols self ->
     exists index r w',
       symbol_to_index self !! symbol = Some index
       ∧ symbols self !! index = Some symbol
       ∧ data_array self w !! index = Some r
       ∧ update self symbol price w = (Return (), w')
       ∧ data_array self w' !! index = Some (Row (row_symbol r) price)
       ∧ (forall j, j ≠ index -> data_array self w' !! j = data_array self w !! j)
       ∧ row_symbol <$> data_array self w' = row_symbol <$> data_array self w
       ∧ names w' = names w
       ∧ (forall id, Some id ≠ shm_block <$> shm self -> blocks w' !! id = blocks w !! id))
  ∧ (symbol ∉ symbols self -> update self symbol price w = (Return (), w)).
Proof.
  assert (attached Scenario.owner_book Scenario.created.2) as H.
  { apply (init_attached Scenario.SYMBOLS Scenario.SHM_NAME true Scenario.empty_world).
    reflexivity. }
  split; [exact H|].
  exact (C4_update_frame Scenario.owner_book Scenario.created.2
                         (u "AAPL") (PyFloat.dyadic 101 0) H).
Defined.

(** C8.  [cleanup()] never raises, whatever [close()] does and whether or
    not the name still exists: not on a first call, not on a second one, not
    after the storage has been removed by someone else.  It never touches a
    block, it removes the name only when the handle is the creator's, and
    after a first call that did remove the name a second call changes
    nothing. *)
Theorem C8_cleanup_idempotent (self : SharedPriceBook) (w : shm_world)
    (close1 close2 : option exn) :
  let first := cleanup self close1 w in
  let second := cleanup self close2 first.2 in
  first.1 = Return () ∧ second.1 = Return ()
  ∧ blocks first.2 = blocks w
  ∧ (is_creator self = false -> first.2 = w)
  ∧ (names first.2 ≠ names w ->
     is_creator self = true ∧ names first.2 = delete (shm_name self) (names w)
     ∧ second.2 = first.2).
Proof.
  unfold cleanup, unlink. cbn zeta.
  destruct (shm self) as [m|]; [|by repeat split].
  destruct close1 as [e1|].
  - destruct e1; cbn; repeat split; try done;
      destruct close2 as [e2|]; try (by destruct e2);
      destruct (is_creator self); try done;
      by destruct (names w !! shm_name self).
  - destruct (is_creator self) eqn:Hc; cycle 1.
    { cbn. repeat split; try done.
      destruct close2 as [e2|]; [by destruct e2|done]. }
    destruct (names w !! shm_name self) as [id|] eqn:Hn; cbn.
    + rewrite lookup_delete_eq. repeat split; try done;
        destruct close2 as [e2|]; try (by destruct e2); done.
    + rewrite Hn. repeat split; try done;
        destruct close2 as [e2|]; try (by destruct e2); done.
Qed.

(** After the owner's [cleanup()] the name is gone: nobody can attach. *)
Lemma cleanup_then_attach (self : SharedPriceBook) (w : shm_world)
    (symbols0 : list str) :
  is_creator self = true -> is_Some (shm self) ->
  (init symbols0 (shm_name self) false (cleanup self None w).2).1
  = Raise FileNotFoundError.
Proof.
  intros Hc [m Hm]. unfold cleanup, unlink, init. rewrite Hm, Hc.
  destruct (names w !! shm_name self) as [id|] eqn:Hn; cbn.
  - by rewrite lookup_delete_eq.
  - by rewrite Hn.
Qed.

(** C5.  The owner creates the table for [AAPL] and [MSFT], every price
    [0.0].  The price ingester, started for the same symbols, is given one
    connection that delivers the single message [AAPL,101.00MSFT,205.50]
    and closes.  It calls [update("AAPL", 101.0)] and [update("MSFT", 205.5)],
    and [read_all()] then returns [{"AAPL": 101.0, "MSFT": 205.5}]. *)
Theorem C5_end_to_end :
  exists creator w1 w2,
    Scenario.created = (Return creator, w1)
    ∧ read_all creator w1 = [(u "AAPL", zero); (u "MSFT", zero)]
    ∧ OrderBook.run_orderbook Scenario.SHM_NAME Scenario.SYMBOLS
        [Connects [RecvBytes Scenario.price_message]] [] w1
      = Some (Return (), [], w2,
              [OrderBook.Connected;
               OrderBook.Message (u "AAPL,101.00MSFT,205.50");
               OrderBook.Updated (u "AAPL") (PyFloat.dyadic 101 0);
               OrderBook.Updated (u "MSFT") (PyFloat.dyadic 411 (-1));
               OrderBook.ConnectionError])
    ∧ read_all creator w2
      = [(u "AAPL", PyFloat.dyadic 101 0); (u "MSFT", PyFloat.dyadic 411 (-1))].
Proof.
  eexists _, _, _. split; [reflexivity|].
  split; [reflexivity|]. split; [vm_compute; reflexivity|].
  vm_compute. reflexivity.
Qed.

End PriceBookFacts.


(** ** The [json] module: [loads] always has fuel enough *)
Module JsonTotal.
Import PyFloat Json.

Lemma skip_ws_length (s : str) : (length (skip_ws s) <= length s)%nat.
Proof.
  induction s as [|c s IH]; [done|]. cbn [skip_ws].
  destruct (_ || _); simpl; lia.
Qed.

Lemma span_digits_app (s ds r : str) : span_digits s = (ds, r) -> s = ds ++ r.
Proof.
  revert ds r. induction s as [|c s IH]; intros ds r; cbn [span_digits].
  - by intros [= <- <-].
  - destruct (is_digit c); [|by intros [= <- <-]].
    destruct (span_digits s) as [ds' r'] eqn:E. intros [= <- <-].
    by rewrite (IH _ _ eq_refl).
Qed.

Lemma prepend_Some (c : N) (sc : option (str * str)) (t r : str) :
  prepend c sc = Some (t, r) -> exists t', sc = Some (t', r) ∧ t = c :: t'.
Proof. destruct sc as [[t' r']|]; [|done]. intros [= <- <-]. by eexists. Qed.

Lemma scanstring_shorter (s t r : str) :
  scanstring s = Some (t, r) -> (length r < length s)%nat.
Proof.
  remember (length s) as n eqn:Hn. revert s t r Hn.
  induction n as [n IH] using lt_wf_ind. intros s t r -> H.
  destruct s as [|c s]; [done|]. cbn [scanstring] in H.
  destruct (c =? 34)%N; [injection H as <- <-; simpl; lia|].
  destruct (c =? 92)%N.
  - destruct s as [|e s]; [done|].
    destruct (e =? 117)%N.
    + destruct s as [|x1 [|x2 [|x3 [|x4 r2]]]]; try done.
      destruct (hex4 x1 x2 x3 x4) as [h|]; [|done].
      assert (forall t, prepend h (scanstring r2) = Some (t, r) ->
                        (length r < length (c :: e :: x1 :: x2 :: x3 :: x4 :: r2))%nat)
        as Halone.
      { intros t' Ht. apply prepend_Some in Ht as (t'' & Ht & _).
        eapply IH in Ht; [| |done]; simpl in *; lia. }
      destruct (is_high_surrogate h); [|by eapply Halone].
      destruct r2 as [|c1 [|c2 [|y1 [|y2 [|y3 [|y4 r3]]]]]]; try (by eapply Halone).
      destruct (_ && _); [|by eapply Halone].
      destruct (hex4 y1 y2 y3 y4) as [l|]; [|done].
      destruct (is_low_surrogate l); [|by eapply Halone].
      apply prepend_Some in H as (t'' & Ht & _).
      eapply IH in Ht; [| |done]; simpl in *; lia.
    + destruct (unescape e); [|done].
      apply prepend_Some in H as (t'' & Ht & _).
      eapply IH in Ht; [| |done]; simpl in *; lia.
  - destruct (c <? 32)%N; [done|].
    apply prepend_Some in H as (t'' & Ht & _).
    eapply IH in Ht; [| |done]; simpl in *; lia.
Qed.

Lemma scan_integer_app (s ip r : str) :
  scan_integer s = Some (ip, r) -> s = ip ++ r ∧ ip ≠ [].
Proof.
  destruct s as [|c s]; [done|]. cbn [scan_integer].
  destruct (c =? 48)%N; [by intros [= <- <-]|].
  destruct (is_digit c) eqn:Hd; [|done]. intros [= H].
  split; [by apply span_digits_app|].
  cbn [span_digits] in H. rewrite Hd in H.
  destruct (span_digits s). by injection H as <- <-.
Qed.

Lemma scan_fraction_app (s f r : str) : scan_fraction s = (f, r) -> s = f ++ r.
Proof.
  destruct s as [|c s]; cbn [scan_fraction]; [by intros [= <- <-]|].
  destruct (c =? 46)%N; [|by intros [= <- <-]].
  destruct (span_digits s) as [[|d ds] r'] eqn:E; [by intros [= <- <-]|].
  intros [= <- <-]. by rewrite (span_digits_app _ _ _ E).
Qed.

Lemma scan_exponent_app (s e r : str) : scan_exponent s = (e, r) -> s = e ++ r.
Proof.
  destruct s as [|c s]; cbn [scan_exponent]; [by intros [= <- <-]|].
  destruct (_ || _); [|by intros [= <- <-]].
  destruct s as [|d t].
  - cbn. by intros [= <- <-].
  - destruct (_ || _).
    + destruct (span_digits t) as [[|x xs] r'] eqn:E; [by intros [= <- <-]|].
      intros [= <- <-]. by rewrite (span_digits_app _ _ _ E).
    + destruct (span_digits (d :: t)) as [[|x xs] r'] eqn:E; [by intros [= <- <-]|].
      intros [= <- <-]. by rewrite (span_digits_app _ _ _ E).
Qed.

Lemma scan_number_shorter (s : str) (v : value) (r : str) :
  scan_number s = Some (v, r) -> (length r < length s)%nat.
Proof.
  unfold scan_number.
  set (sr := match s with
             | [] => ([], s)
             | c :: r0 => if (c =? 45)%N then ([c], r0) else ([], s)
             end).
  assert (length sr.2 <= length s)%nat as Hsr.
  { subst sr. destruct s as [|c s]; [done|]. destruct (c =? 45)%N; simpl; lia. }
  destruct sr as [sign r0]. cbn [snd] in Hsr.
  destruct (scan_integer r0) as [[ip r1]|] eqn:Ei; [|done].
  apply scan_integer_app in Ei as [-> Hip].
  destruct (scan_fraction r1) as [f r2] eqn:Ef.
  apply scan_fraction_app in Ef as ->.
  destruct (scan_exponent r2) as [e r3] eqn:Ee.
  apply scan_exponent_app in Ee as ->.
  rewrite !length_app in Hsr.
  assert (0 < length ip)%nat by (destruct ip; [done|simpl; lia]).
  destruct f, e; try destruct (py_float _); intros [= <- <-] || done; lia.
Qed.

Lemma startswith_length {A} `{EqDecision A} (w s : list A) :
  startswith w s = true -> (length w <= length s)%nat.
Proof.
  revert s. induction w as [|x w IH]; intros s; [simpl; lia|].
  destruct s as [|y s]; [done|]. cbn [startswith].
  destruct (decide (x = y)); [|done]. intros H'. apply IH in H'. simpl. lia.
Qed.

Lemma scan_word_shorter (w : str) (v : value) (s : str) (p : parse_result value) :
  w ≠ [] -> scan_word w v s = Some p ->
  exists r, p = Parsed v r ∧ (length r < length s)%nat.
Proof.
  intros Hw. unfold scan_word. destruct (startswith w s) eqn:E; [|done].
  intros [= <-]. eexists. split; [done|].
  apply startswith_length in E. rewrite length_drop.
  destruct w; [done|]. simpl in *. lia.
Qed.

Lemma scan_name_shorter (s : str) (p : parse_result value) :
  scan_name s = Some p -> exists v r, p = Parsed v r ∧ (length r < length s)%nat.
Proof.
  unfold scan_name.
  destruct (scan_word (u "null") _ s) eqn:E1.
  { intros [= <-]. apply scan_word_shorter in E1 as (r & ? & ?); [|done]. eauto. }
  destruct (scan_word (u "true") _ s) eqn:E2.
  { intros [= <-]. apply scan_word_shorter in E2 as (r & ? & ?); [|done]. eauto. }
  intros E3. apply scan_word_shorter in E3 as (r & ? & ?); [|done]. eauto.
Qed.

Lemma scan_nan_shorter (s : str) (p : parse_result value) :
  scan_nan s = Some p -> exists v r, p = Parsed v r ∧ (length r < length s)%nat.
Proof.
  unfold scan_nan.
  destruct (scan_word (u "NaN") _ s) eqn:E1.
  { intros [= <-]. apply scan_word_shorter in E1 as (r & ? & ?); [|done]. eauto. }
  destruct (scan_word (u "Infinity") _ s) eqn:E2.
  { intros [= <-]. apply scan_word_shorter in E2 as (r & ? & ?); [|done]. eauto. }
  intros E3. apply scan_word_shorter in E3 as (r & ? & ?); [|done]. eauto.
Qed.

(** A parse that has its fuel does not run out of it, and takes at least
    one character. *)
Definition fine (s : str) (p : parse_result value) : Prop :=
  match p with
  | Parsed _ r => (length r < length s)%nat
  | Malformed => True
  | OutOfFuel => False
  end.

Lemma scan_fine (fuel : nat) :
  (forall s, (2 * length s + 1 <= fuel)%nat -> fine s (scan_once fuel s))
  ∧ (forall s pairs, (2 * length s + 1 <= fuel)%nat ->
       fine s (parse_pairs fuel s pairs))
  ∧ (forall s items, (2 * length s + 2 <= fuel)%nat ->
       fine s (parse_items fuel s items)).
Proof.
  induction fuel as [|fuel (IHs & IHp & IHi)].
  { repeat split; intros; lia. }
  repeat split.
  - intros s Hf. cbn [scan_once]. destruct s as [|c r]; [done|].
    simpl in Hf.
    destruct (c =? 34)%N.
    { destruct (scanstring r) as [[t r']|] eqn:E; [|done].
      apply scanstring_shorter in E. simpl. lia. }
    destruct (c =? 123)%N.
    { pose proof (skip_ws_length r) as Hw.
      destruct (skip_ws r) as [|c' r'] eqn:E; [done|].
      destruct (c' =? 125)%N; [simpl in *; lia|].
      specialize (IHp (c' :: r') []).
      destruct (parse_pairs fuel (c' :: r') []); simpl in *; try done; [lia|].
      apply IHp. lia. }
    destruct (c =? 91)%N.
    { pose proof (skip_ws_length r) as Hw.
      destruct (skip_ws r) as [|c' r'] eqn:E; [done|].
      destruct (c' =? 93)%N; [simpl in *; lia|].
      specialize (IHi (c' :: r') []).
      destruct (parse_items fuel (c' :: r') []); simpl in *; try done; [lia|].
      apply IHi. lia. }
    destruct (scan_name (c :: r)) as [p|] eqn:En.
    { apply scan_name_shorter in En as (v & r' & -> & ?). done. }
    destruct (scan_number (c :: r)) as [[v r']|] eqn:Enum.
    { apply scan_number_shorter in Enum. done. }
    destruct (scan_nan (c :: r)) as [p|] eqn:Ena; [|done].
    apply scan_nan_shorter in Ena as (v & r' & -> & ?). done.
  - intros s pairs Hf. cbn [parse_pairs]. destruct s as [|c r]; [done|].
    simpl in Hf. destruct (negb _); [done|].
    destruct (scanstring r) as [[key r1]|] eqn:E; [|done].
    apply scanstring_shorter in E.
    pose proof (skip_ws_length r1) as Hw1.
    destruct (skip_ws r1) as [|c1 r2] eqn:E1; [done|].
    destruct (negb _); [done|].
    pose proof (skip_ws_length r2) as Hw2.
    specialize (IHs (skip_ws r2)).
    destruct (scan_once fuel (skip_ws r2)) as [v r3| |];
      [|done|apply IHs; simpl in *; lia].
    assert (length r3 < length (skip_ws r2))%nat as H3
      by (apply IHs; simpl in *; lia).
    pose proof (skip_ws_length r3) as Hw3.
    destruct (skip_ws r3) as [|c3 r4] eqn:E3; [done|].
    destruct (c3 =? 125)%N; [simpl in *; lia|].
    destruct (c3 =? 44)%N; [|done].
    pose proof (skip_ws_length r4) as Hw4.
    specialize (IHp (skip_ws r4) (pairs ++ [(key, v)])).
    destruct (parse_pairs fuel (skip_ws r4) _); simpl in *; try done; [lia|].
    apply IHp. lia.
  - intros s items Hf. cbn [parse_items].
    specialize (IHs s).
    destruct (scan_once fuel s) as [v r1| |]; [|done|apply IHs; lia].
    assert (length r1 < length s)%nat as H1 by (apply IHs; lia).
    pose proof (skip_ws_length r1) as Hw1.
    destruct (skip_ws r1) as [|c r2] eqn:E1; [done|].
    destruct (c =? 93)%N; [simpl in *; lia|].
    destruct (c =? 44)%N; [|done].
    pose proof (skip_ws_length r2) as Hw2.
    specialize (IHi (skip_ws r2) (items ++ [v])).
    destruct (parse_items fuel (skip_ws r2) _); simpl in *; try done; [lia|].
    apply IHi. lia.
Qed.

(** [json.loads] returns or raises on every text. *)
Lemma loads_total (s : str) : is_Some (loads s).
Proof.
  unfold loads. destruct (startswith _ s); [done|].
  pose proof (skip_ws_length s) as Hw.
  destruct (scan_fine (2 * length s + 2)) as (Hs & _ & _).
  specialize (Hs (skip_ws s)).
  destruct (scan_once _ (skip_ws s)) as [v r| |].
  - by destruct (skip_ws r).
  - done.
  - exfalso. apply Hs. lia.
Qed.

End JsonTotal.


(** ** The order channel: what [json.dumps] writes, [json.loads] reads *)
Module OrderWire.
Import PyFloat Json TextFacts JsonTotal.

Local Ltac arith := Z.to_euclidean_division_equations; lia.

(** *** Decimal digits *)

Lemma digits_value_snoc (ds : str) (c : N) :
  digits_value (ds ++ [c]) = 10 * digits_value ds + (Z.of_N c - 48).
Proof. unfold digits_value. by rewrite foldl_snoc. Qed.

Lemma is_digit_spec (c : N) : is_digit c = true <-> (48 <= c <= 57)%N.
Proof. unfold is_digit. rewrite andb_true_iff, !N.leb_le. tauto. Qed.

Lemma digits_fuel_S (fuel : nat) (n : N) :
  digits_fuel (S fuel) n
  = if (n <? 10)%N then [(48 + n)%N]
    else digits_fuel fuel (n / 10)%N ++ [(48 + n mod 10)%N].
Proof. done. Qed.

Lemma digits_fuel_spec (fuel : nat) (n : N) :
  (n < 2 ^ N.of_nat (S fuel))%N ->
  digits_value (digits_fuel (S fuel) n) = Z.of_N n
  ∧ Forall (λ c, is_digit c = true) (digits_fuel (S fuel) n)
  ∧ (exists c ds, digits_fuel (S fuel) n = c :: ds ∧ ((1 <= n)%N -> c ≠ 48%N)).
Proof.
  revert n. induction fuel as [|fuel IH]; intros n Hn;
    rewrite digits_fuel_S; destruct (N.ltb_spec n 10) as [Hlt|Hge].
  - repeat split.
    + unfold digits_value. simpl. lia.
    + constructor; [|done]. apply is_digit_spec. lia.
    + eexists _, _. split; [done|]. lia.
  - simpl in Hn. lia.
  - repeat split.
    + unfold digits_value. simpl. lia.
    + constructor; [|done]. apply is_digit_spec. lia.
    + eexists _, _. split; [done|]. lia.
  - assert (n / 10 < 2 ^ N.of_nat (S fuel))%N as Hdiv.
    { rewrite (Nat2N.inj_succ (S fuel)), N.pow_succ_r' in Hn.
      assert (n / 10 <= n / 2)%N by (zify; arith). zify; arith. }
    destruct (IH _ Hdiv) as (Hv & Hd & c & ds & Hc & Hnz).
    repeat split.
    + rewrite digits_value_snoc, Hv. zify; arith.
    + apply Forall_app. split; [done|].
      constructor; [|done]. apply is_digit_spec. zify; arith.
    + rewrite Hc. eexists _, _. split; [done|]. intros _. apply Hnz. zify; arith.
Qed.

Lemma digits_spec (n : N) :
  digits_value (digits n) = Z.of_N n
  ∧ Forall (λ c, is_digit c = true) (digits n)
  ∧ (exists c ds, digits n = c :: ds ∧ ((1 <= n)%N -> c ≠ 48%N)).
Proof.
  apply digits_fuel_spec.
  destruct n as [|p]; [done|].
  rewrite Nat2N.inj_succ, N2Nat.id.
  apply N.log2_spec. lia.
Qed.

Lemma span_digits_all (ds : str) :
  Forall (λ c, is_digit c = true) ds -> span_digits ds = (ds, []).
Proof.
  induction 1 as [|c ds Hc _ IH]; [done|].
  cbn [span_digits]. by rewrite Hc, IH.
Qed.

(** *** Numbers *)









(** *** Strings *)







(** *** What goes on the wire is printable ASCII *)

Definition printable (t : str) : Prop := Forall (λ c, (32 <= c <= 126)%N) t.

Lemma printable_digits (ds : str) :
  Forall (λ c, is_digit c = true) ds -> printable ds.
Proof. intros H. eapply Forall_impl; [done|]. intros c Hc%is_digit_spec. lia. Qed.

Lemma printable_int_repr (n : Z) : printable (int_repr n).
Proof.
  unfold int_repr. destruct n as [|p|p].
  - apply printable_digits, digits_spec.
  - apply printable_digits, digits_spec.
  - constructor; [lia|]. apply printable_digits, digits_spec.
Qed.







(** Printable text is its own UTF-8 form, byte for byte, and holds no
    delimiter. *)
Lemma encode_printable (t : str) :
  printable t -> exists bs, encode t = Some bs ∧ "010"%byte ∉ bs.
Proof.
  intros Hp.
  assert (is_Some (encode t)) as [bs Hbs].
  { induction Hp as [|c t Hc _ [bs IH]]; [by eexists|].
    cbn [encode]. rewrite IH. unfold utf8_encode_char.
    destruct (N.ltb_spec c 128); [by eexists|lia]. }
  exists bs. split; [done|].
  apply (encode_no_delimiter t bs Hbs).
  intros Hin. unfold printable in Hp. rewrite Forall_forall in Hp.
  apply Hp in Hin. lia.
Qed.

(** *** Values inside an object *)










(** *** A flat object *)

(** One [key: value] member as [dumps] writes it. *)
Definition member_text (kv : str * value) : str :=
  encode_basestring_ascii kv.1 ++ u ": " ++ dumps kv.2.






Lemma member_text_head (kv : str * value) (rest : str) :
  exists t, member_text kv ++ rest = 34%N :: t.
Proof. by eexists. Qed.






(** *** The order record *)





Lemma order_loop_S (fuel : nat) (sock : socket) (recv_buffer : bytes) :
  OrderManager.order_loop (S fuel) sock recv_buffer
  = match OrderManager.receive_framed_message sock recv_buffer with
    | (Raise e, recv_buffer', sock') => Some (e, recv_buffer', sock', [])
    | (Return raw_order, recv_buffer', sock') =>
        match loads raw_order with
        | None => None
        | Some (Raise e) => Some (e, recv_buffer', sock', [])
        | Some (Return order) =>
            match OrderManager.print_executed order with
            | Raise e => Some (e, recv_buffer', sock', [])
            | Return _ =>
                match OrderManager.order_loop fuel sock' recv_buffer' with
                | Some (e, recv_buffer'', sock'', evs) =>
                    Some (e, recv_buffer'', sock'', OrderManager.Executed order :: evs)
                | None => None
                end
            end
        end
    end.
Proof. done. Qed.



End OrderWire.


(** ** The consumers' loops *)
Module Loops.
Import TextFacts JsonTotal.

(** *** The loops have fuel enough *)

Lemma socket_size_cons (o : recv_outcome) (sock : socket) :
  socket_size (o :: sock)
  = match o with
    | RecvBytes chunk => S (length chunk + socket_size sock)
    | _ => S (socket_size sock)
    end.
Proof. done. Qed.

(** A call that returns a message has taken its delimiter out of what was
    buffered or still to come. *)
Local Ltac measure receive :=
  let sock := fresh "sock" in
  let IH := fresh "IH" in
  intros sock; induction sock as [|o sock IH]; intros buf m buf' sock';
  cbn [receive];
  (destruct (Z.eqb_spec (find MESSAGE_DELIMITER buf) (-1)) as [E|E];
   cbn [negb];
   [|destruct (decode _); [|done]; intros [= <- <- <-];
     apply find_bound in E; unfold slice_from; rewrite length_drop;
     unfold MESSAGE_DELIMITER in *; cbn [length]; lia]);
  [done|];
  rewrite socket_size_cons;
  destruct o as [[|x chunk]| | |]; try done;
  intros H; apply IH in H; rewrite ?length_app in H;
  cbn [length] in *; lia.

Lemma OrderBook_measure (sock : socket) :
  forall buf m buf' sock',
  OrderBook.receive_framed_message sock buf = (Return m, buf', sock') ->
  (length buf' + socket_size sock' < length buf + socket_size sock)%nat.
Proof. revert sock. measure OrderBook.receive_framed_message. Qed.

Lemma OrderManager_measure (sock : socket) :
  forall buf m buf' sock',
  OrderManager.receive_framed_message sock buf = (Return m, buf', sock') ->
  (length buf' + socket_size sock' < length buf + socket_size sock)%nat.
Proof. revert sock. measure OrderManager.receive_framed_message. Qed.

Lemma Strategy_measure (sock : socket) :
  forall buf m buf' sock',
  Strategy.receive_framed_news_message sock buf = (Return m, buf', sock') ->
  (length buf' + socket_size sock' < length buf + socket_size sock)%nat.
Proof. revert sock. measure Strategy.receive_framed_news_message. Qed.

Lemma message_loop_total (fuel : nat) :
  forall symbols book sock buf w,
  (length buf + socket_size sock < fuel)%nat ->
  is_Some (OrderBook.message_loop fuel symbols book sock buf w).
Proof.
  induction fuel as [|fuel IH]; intros symbols book sock buf w Hf; [lia|].
  cbn [OrderBook.message_loop].
  destruct (OrderBook.receive_framed_message sock buf) as [[[m|e] buf'] sock'] eqn:E;
    [|done].
  apply OrderBook_measure in E.
  destruct (OrderBook.handle_message symbols book m w) as [w' evs].
  destruct (IH symbols book sock' buf' w' ltac:(lia)) as [[[[[e b'] s'] w''] evs'] ->].
  done.
Qed.

(** The price ingester's connection loop handles every list of attempts. *)
Lemma OrderBook_connection_loop_total (attempts : list connect_outcome) :
  forall symbols book buf w,
  is_Some (OrderBook.connection_loop attempts symbols book buf w).
Proof.
  induction attempts as [|[sock|e] attempts IH]; intros symbols book buf w;
    cbn [OrderBook.connection_loop]; [done| |].
  - destruct (message_loop_total (OrderBook.enough_fuel sock []) symbols book sock [] w)
      as [[[[[e b'] s'] w'] evs] ->]; [unfold OrderBook.enough_fuel; lia|].
    by destruct (IH symbols book b' w') as [[[b'' w''] evs'] ->].
  - by destruct (IH symbols book buf w) as [[[b'' w''] evs'] ->].
Qed.

Lemma order_loop_total (fuel : nat) :
  forall sock buf,
  (length buf + socket_size sock < fuel)%nat ->
  is_Some (OrderManager.order_loop fuel sock buf).
Proof.
  induction fuel as [|fuel IH]; intros sock buf Hf; [lia|].
  cbn [OrderManager.order_loop].
  destruct (OrderManager.receive_framed_message sock buf) as [[[m|e] buf'] sock'] eqn:E;
    [|done].
  apply OrderManager_measure in E.
  destruct (loads_total m) as [[order|e] ->]; [|done].
  destruct (OrderManager.print_executed order); [|done].
  by destruct (IH sock' buf' ltac:(lia)) as [[[[e b'] s'] evs'] ->].
Qed.

(** The order sink's accept loop handles every list of connections. *)
Lemma accept_loop_total (incoming : list OrderManager.accept_outcome) :
  forall buf, is_Some (OrderManager.accept_loop incoming buf).
Proof.
  induction incoming as [|[sock|e] incoming IH]; intros buf;
    cbn [OrderManager.accept_loop]; [done| |].
  - destruct (order_loop_total (OrderManager.enough_fuel sock []) sock [])
      as [[[[e b'] s'] evs] ->]; [unfold OrderManager.enough_fuel; lia|].
    by destruct (IH b') as [[b'' evs'] ->].
  - by destruct (IH buf) as [[b'' evs'] ->].
Qed.

End Loops.

(** ** Reconnection and malformed messages *)
Module Connections.
Import TextFacts JsonTotal SharedMemoryUtils.

(** What a run leaves to be seen: everything but the buffer. *)
Definition seen {A B C : Type} (r : option (A * B * C)) : option (B * C) :=
  (λ x, (x.1.2, x.2)) <$> r.

Lemma OrderBook_stale (attempts : list connect_outcome) :
  forall symbols book stale w,
  seen (OrderBook.connection_loop attempts symbols book stale w)
  = seen (OrderBook.connection_loop attempts symbols book [] w).
Proof.
  induction attempts as [|[sock|e] attempts IH]; intros symbols book stale w;
    cbn [OrderBook.connection_loop]; [done..|].
  specialize (IH symbols book stale w). unfold seen in *.
  destruct (OrderBook.connection_loop attempts symbols book stale w)
    as [[[b1 w1] evs1]|];
    destruct (OrderBook.connection_loop attempts symbols book [] w)
    as [[[b2 w2] evs2]|]; simplify_eq/=; done.
Qed.

Lemma OrderManager_stale (incoming : list OrderManager.accept_outcome) :
  forall stale,
  snd <$> OrderManager.accept_loop incoming stale
  = snd <$> OrderManager.accept_loop incoming [].
Proof.
  induction incoming as [|[sock|e] incoming IH]; intros stale;
    cbn [OrderManager.accept_loop]; [done..|].
  specialize (IH stale).
  destruct (OrderManager.accept_loop incoming stale) as [[b1 evs1]|];
    destruct (OrderManager.accept_loop incoming []) as [[b2 evs2]|];
    simplify_eq/=; done.
Qed.

(** C7.  Whatever bytes the global buffer holds when a connection is made
    (what the last connection left in it, a partial message included), the
    price ingester and the order sink go on exactly as with an empty buffer:
    a run that starts with a connection is the same run, and any run updates
    the same prices and prints and executes the same things. *)
Theorem C7_fresh_buffer_per_connection (stale : bytes) :
  (forall sock attempts symbols book w,
     OrderBook.connection_loop (Connects sock :: attempts) symbols book stale w
     = OrderBook.connection_loop (Connects sock :: attempts) symbols book [] w)
  ∧ (forall attempts symbols book w,
       seen (OrderBook.connection_loop attempts symbols book stale w)
       = seen (OrderBook.connection_loop attempts symbols book [] w))
  ∧ (forall sock incoming,
       OrderManager.accept_loop (OrderManager.Accepts sock :: incoming) stale
       = OrderManager.accept_loop (OrderManager.Accepts sock :: incoming) [])
  ∧ (forall incoming,
       snd <$> OrderManager.accept_loop incoming stale
       = snd <$> OrderManager.accept_loop incoming []).
Proof.
  repeat split; try done.
  - intros. apply OrderBook_stale.
  - intros. apply OrderManager_stale.
Qed.

(** The scenario of the specification: the first connection dies with
    [AAPL,1] pending, the second delivers [01.00MSFT,2.50]; the second
    message is taken as it came. *)
Example partial_message_is_dropped :
  exists w,
    OrderBook.connection_loop
      [Connects [RecvBytes (b "AAPL,1")];
       Connects [RecvBytes (b "01.00MSFT,2.50" ++ MESSAGE_DELIMITER)]]
      Scenario.SYMBOLS Scenario.owner_book [] Scenario.created.2
    = Some ([], w,
            [OrderBook.Connected; OrderBook.ConnectionError;
             OrderBook.Connected;
             OrderBook.Message (u "01.00MSFT,2.50");
             OrderBook.Updated (u "MSFT") (PyFloat.dyadic 5 (-1));
             OrderBook.ConnectionError]).
Proof. eexists. vm_compute. reflexivity. Qed.


(** C3, in the order sink.  One connection delivers a message that is no
    JSON and then a well-formed order.  The sink prints its serialization
    error and goes back to [accept()]: the order behind the malformed message
    is never executed, although it is executed when it comes alone.  The
    price ingester, given a malformed message and then a well-formed one on
    one connection, prints its parsing error and applies the second. *)
Theorem C3_malformed_order_ends_the_connection :
  OrderManager.accept_loop [OrderManager.Accepts BadOrder.connection] []
  = Some (BadOrder.good_message,
          [OrderManager.Accepted; OrderManager.SerializationError])
  ∧ OrderManager.accept_loop
      [OrderManager.Accepts [RecvBytes BadOrder.good_message]] []
    = Some ([], [OrderManager.Accepted;
                 OrderManager.Executed BadOrder.good_order;
                 OrderManager.Disconnected])
  ∧ snd <$> OrderBook.connection_loop [Connects BadOrder.price_connection]
              Scenario.SYMBOLS Scenario.owner_book [] Scenario.created.2
    = Some [OrderBook.Connected;
            OrderBook.Message (u "AAPL,1x1.00MSFT,205.50");
            OrderBook.ParsingError (u "AAPL,1x1.00MSFT,205.50");
            OrderBook.Message (u "AAPL,101.00MSFT,205.50");
            OrderBook.Updated (u "AAPL") (PyFloat.dyadic 101 0);
            OrderBook.Updated (u "MSFT") (PyFloat.dyadic 411 (-1));
            OrderBook.ConnectionError].
Proof. repeat split; vm_compute; reflexivity. Qed.

(** In the price ingester no message ends the reading: handling a message
    returns, whatever the message is. *)
Lemma OrderBook_goes_on (fuel : nat) (symbols : list str) (book : SharedPriceBook)
    (sock sock' : socket) (buf buf' : bytes) (w : shm_world) (raw : str) :
  OrderBook.receive_framed_message sock buf = (Return raw, buf', sock') ->
  OrderBook.message_loop (S fuel) symbols book sock buf w
  = let '(w', evs) := OrderBook.handle_message symbols book raw w in
    match OrderBook.message_loop fuel symbols book sock' buf' w' with
    | Some (e, b', s', w'', evs') =>
        Some (e, b', s', w'', OrderBook.Message raw :: evs ++ evs')
    | None => None
    end.
Proof. intros H. cbn [OrderBook.message_loop]. by rewrite H. Qed.

End Connections.


(** ** The strategy: orders alternate *)
Module StrategyFacts.
Import Json SharedMemoryUtils Strategy Emitted.

(** The side of the last order that a recorded position stands for. *)
Definition last_side (pos : option position_t) : option str :=
  match pos with
  | Some LONG => Some (u "BUY")
  | Some SHORT => Some (u "SELL")
  | _ => None
  end.

(** Sides that alternate, the first one differing from [last]. *)
Fixpoint alternates_from (last : option str) (sides : list str) : Prop :=
  match sides with
  | [] => True
  | s :: sides' =>
      Some s ≠ last ∧ (s = u "BUY" ∨ s = u "SELL")
      ∧ alternates_from (Some s) sides'
  end.

Lemma alternates_strictly (sides : list str) (last : option str) :
  alternates_from last sides -> strictly_alternating sides.
Proof.
  revert last. induction sides as [|s sides IH]; intros last.
  - intros _. split; [constructor|]. by intros [].
  - intros (Hl & Hs & Hrest). destruct (IH _ Hrest) as [Hall Hadj].
    split; [by constructor|].
    intros [|i] a c; cbn; [|by apply Hadj].
    intros [= <-] Hc. destruct sides as [|s' sides']; [done|].
    injection Hc as <-. destruct Hrest as [Hne _]. congruence.
Qed.

(** Events [evs] lead from the positions of [st] to those of [st']: for
    every symbol, the sides of its orders in [evs] alternate from what its
    position in [st] stands for, and end as its position in [st'] says. *)
Definition leads (st : StrategyState) (evs : list event) (st' : StrategyState)
  : Prop :=
  forall symbol rest,
    alternates_from (last_side (position st' !! symbol)) rest ->
    alternates_from (last_side (position st !! symbol))
                    (sides_for symbol evs ++ rest).

Lemma leads_refl (st st' : StrategyState) :
  position st' = position st -> leads st [] st'.
Proof. intros E symbol rest. by rewrite E. Qed.

Lemma leads_trans (st1 st2 st3 : StrategyState) (evs1 evs2 : list event) :
  leads st1 evs1 st2 -> leads st2 evs2 st3 -> leads st1 (evs1 ++ evs2) st3.
Proof.
  intros H1 H2 symbol rest Hrest. unfold sides_for.
  rewrite omap_app, <- app_assoc. by apply H1, H2.
Qed.

Lemma leads_silent (st st' : StrategyState) (ev : event) (evs : list event) :
  order_of ev = None -> leads st evs st' -> leads st (ev :: evs) st'.
Proof.
  intros Hev H symbol rest Hrest. unfold sides_for. cbn [omap list_omap].
  unfold side_for at 1. rewrite Hev. by apply H.
Qed.

Lemma side_for_send (raises : bool) (order_id : Z) (sym : str) (side : signal)
    (price ts : float) (symbol : str) :
  side_for symbol (_send_order raises (make_order order_id sym side price ts))
  = if decide (sym = symbol) then Some (side_text side) else None.
Proof.
  unfold side_for, _send_order.
  by destruct (encode _); [destruct raises|].
Qed.

Section Environment.
Variable mean : list float -> float.
Variable time : Z -> float.
Variable sendall_raises : Z -> bool.
Variable world_at : nat -> shm_world.

Lemma generate_order_leads (final : signal) (symbol : str) (price : float)
    (st st' : StrategyState) (r : result unit) (evs : list event) :
  generate_order time sendall_raises final symbol price st = (r, st', evs) ->
  leads st evs st'.
Proof.
  unfold generate_order.
  destruct final; [by intros [= <- <- <-]; apply leads_refl| |].
  - destruct (position st !! symbol) as [pos|] eqn:Hpos;
      [|by intros [= <- <- <-]; apply leads_refl].
    destruct pos; intros [= <- <- <-]; try (by apply leads_refl).
    all: intros s rest; unfold sides_for; cbn [omap list_omap position];
      rewrite side_for_send; destruct (decide (symbol = s)) as [->|Hne].
    all: rewrite ?lookup_insert_eq, ?lookup_insert_ne, ?Hpos by done; cbn.
    all: try done.
    all: intros H; repeat split; try done; by left.
  - destruct (position st !! symbol) as [pos|] eqn:Hpos;
      [|by intros [= <- <- <-]; apply leads_refl].
    destruct pos; intros [= <- <- <-]; try (by apply leads_refl).
    all: intros s rest; unfold sides_for; cbn [omap list_omap position];
      rewrite side_for_send; destruct (decide (symbol = s)) as [->|Hne].
    all: rewrite ?lookup_insert_eq, ?lookup_insert_ne, ?Hpos by done; cbn.
    all: try done.
    all: intros H; repeat split; try done; by right.
Qed.

Lemma trade_leads (sentiment : value) (symbol : str) (price : float)
    (st st' : StrategyState) (r : result unit) (evs : list event) :
  trade mean time sendall_raises sentiment symbol price st = (r, st', evs) ->
  leads st evs st'.
Proof.
  unfold trade. destruct (SFeqb price zero);
    [by intros [= <- <- <-]; apply leads_refl|].
  destruct (get_ma mean st symbol SHORT_WINDOW);
    [|by intros [= <- <- <-]; apply leads_refl].
  destruct (get_ma mean st symbol LONG_WINDOW);
    [|by intros [= <- <- <-]; apply leads_refl].
  destruct (news_signal sentiment);
    [|by intros [= <- <- <-]; apply leads_refl].
  apply generate_order_leads.
Qed.

Lemma trade_all_leads (sentiment : value) (ticks : list (str * float)) :
  forall st st' r evs,
  trade_all mean time sendall_raises sentiment ticks st = (r, st', evs) ->
  leads st evs st'.
Proof.
  induction ticks as [|[symbol price] ticks IH]; intros st st' r evs;
    cbn [trade_all]; [by intros [= <- <- <-]; apply leads_refl|].
  destruct (trade _ _ _ _ _ _ st) as [[[?|e] st1] evs1] eqn:E1.
  - destruct (trade_all _ _ _ _ ticks st1) as [[r2 st2] evs2] eqn:E2.
    intros [= <- <- <-]. eapply leads_trans; [by eapply trade_leads|by eapply IH].
  - intros [= <- <- <-]. by eapply trade_leads.
Qed.

Lemma update_price_history_position (ticks : list (str * float)) :
  forall st st' r,
  update_price_history ticks st = (r, st') -> position st' = position st.
Proof.
  induction ticks as [|[sym price] ticks IH]; intros st st' r;
    cbn [update_price_history]; [by intros [= <- <-]|].
  destruct (SFltb zero price); [|apply IH].
  destruct (price_history st !! sym); [|by intros [= <- <-]].
  intros H. by apply IH in H.
Qed.

Lemma strategy_loop_leads (fuel : nat) (book : SharedPriceBook) :
  forall sock p e sock' p' evs,
  strategy_loop mean time sendall_raises world_at fuel book sock p
  = Some (e, sock', p', evs) ->
  leads (state p) evs (state p').
Proof.
  induction fuel as [|fuel IH]; intros sock p e sock' p' evs; [done|].
  cbn [strategy_loop].
  destruct (receive_framed_news_message sock (news_recv_buffer p))
    as [[[raw|e0] buf] sock1]; [|by intros [= <- <- <- <-]; apply leads_refl].
  destruct (loads raw) as [[sentiment|e0]|]; [| |done];
    [|by intros [= <- <- <- <-]; apply leads_refl].
  destruct (update_price_history _ (state p)) as [[?|e0] st1] eqn:Eu;
    apply update_price_history_position in Eu;
    [|by intros [= <- <- <- <-]; apply leads_refl].
  destruct (trade_all _ _ _ _ _ st1) as [[[?|e0] st2] evs2] eqn:Et;
    apply trade_all_leads in Et.
  - destruct (strategy_loop _ _ _ _ fuel book sock1 _)
      as [[[[e3 sock3] p3] evs3]|] eqn:El; [|done].
    intros [= <- <- <- <-]. apply IH in El. cbn in El.
    eapply leads_trans; [|done].
    intros symbol rest. rewrite <- Eu. apply Et.
  - intros [= <- <- <- <-]. cbn.
    intros symbol rest. rewrite <- Eu. apply Et.
Qed.

Lemma connection_loop_leads (attempts : list attempt) (book : SharedPriceBook) :
  forall om p p' evs,
  connection_loop mean time sendall_raises world_at attempts book om p
  = Some (p', evs) ->
  leads (state p) evs (state p').
Proof.
  induction attempts as [|a attempts IH]; intros om p p' evs;
    cbn [connection_loop]; [by intros [= <- <-]; apply leads_refl|].
  destruct (if om then None else om_connect_raises a) as [e|].
  { destruct (connection_loop _ _ _ _ attempts book false p)
      as [[p1 evs1]|] eqn:E; [|done].
    intros [= <- <-]. apply leads_silent; [done|by eapply IH]. }
  assert (forall st st' evs0,
            leads st evs0 st' ->
            leads st ((if om then [] else [ConnectedOrderManager]) ++ evs0) st')
    as Hconn.
  { intros st st' evs0 H. destruct om; [done|]. by apply leads_silent. }
  destruct (news_connect a) as [sock|e].
  - destruct (strategy_loop _ _ _ _ _ book sock _)
      as [[[[e1 sock1] p1] evs1]|] eqn:El; [|done].
    destruct (connection_loop _ _ _ _ attempts book true p1)
      as [[p2 evs2]|] eqn:E; [|done].
    intros [= <- <-]. apply Hconn. apply leads_silent; [done|].
    apply strategy_loop_leads in El. cbn in El.
    eapply leads_trans; [done|]. apply leads_silent; [done|by eapply IH].
  - destruct (connection_loop _ _ _ _ attempts book true p)
      as [[p1 evs1]|] eqn:E; [|done].
    intros [= <- <-]. apply Hconn. apply leads_silent; [done|by eapply IH].
Qed.

(** The strategy's loops handle every list of turns. *)
Lemma strategy_loop_total (fuel : nat) (book : SharedPriceBook) :
  forall sock p,
  (length (news_recv_buffer p) + socket_size sock < fuel)%nat ->
  is_Some (strategy_loop mean time sendall_raises world_at fuel book sock p).
Proof.
  induction fuel as [|fuel IH]; intros sock p Hf; [lia|].
  cbn [strategy_loop].
  destruct (receive_framed_news_message sock (news_recv_buffer p))
    as [[[raw|e0] buf] sock1] eqn:E; [|done].
  apply Loops.Strategy_measure in E.
  destruct (JsonTotal.loads_total raw) as [[sentiment|e0] ->]; [|done].
  destruct (update_price_history _ (state p)) as [[?|e0] st1]; [|done].
  destruct (trade_all _ _ _ _ _ st1) as [[[?|e0] st2] evs2]; [|done].
  match goal with
  | |- context [strategy_loop _ _ _ _ fuel book sock1 ?q] =>
      destruct (IH sock1 q) as [[[[e3 sock3] p3] evs3] ->]; [cbn; lia|done]
  end.
Qed.

Lemma Strategy_connection_loop_total (attempts : list attempt) (book : SharedPriceBook) :
  forall om p,
  is_Some (connection_loop mean time sendall_raises world_at attempts book om p).
Proof.
  induction attempts as [|a attempts IH]; intros om p;
    cbn [connection_loop]; [done|].
  destruct (if om then None else om_connect_raises a) as [e|].
  { by destruct (IH false p) as [[p1 evs1] ->]. }
  destruct (news_connect a) as [sock|e].
  - match goal with
    | |- context [strategy_loop _ _ _ _ ?f book sock ?q] =>
        destruct (strategy_loop_total f book sock q) as [[[[e1 s1] p1] evs1] ->];
          [cbn; lia|]
    end.
    by destruct (IH true p1) as [[p2 evs2] ->].
  - by destruct (IH true p) as [[p1 evs1] ->].
Qed.

Lemma new_state_position (symbols : list str) (symbol : str) :
  last_side (position (new_state symbols) !! symbol) = None.
Proof.
  cbn [new_state position].
  destruct (list_to_map _ !! symbol) as [pos|] eqn:E; [|done].
  apply elem_of_list_to_map_2 in E.
  apply list_elem_of_fmap in E as (sym & [= _ ->] & _). done.
Qed.

(** C10.  Whatever the news, the prices, the clock and the fate of each
    [sendall], and however often the news stream is lost and found again:
    the strategy's main loop handles every list of turns, and for every
    symbol the orders it hands to [_send_order] over its life are [BUY]s and
    [SELL]s of which no two in a row have the same side. *)
Theorem C10_orders_alternate (symbols : list str) (attempts : list attempt)
    (book : SharedPriceBook) (buf : bytes) :
  exists p evs,
    connection_loop mean time sendall_raises world_at attempts book false
      {| news_recv_buffer := buf; reads := O; state := new_state symbols |}
    = Some (p, evs)
    ∧ forall symbol, strictly_alternating (sides_for symbol evs).
Proof.
  destruct (Strategy_connection_loop_total attempts book false
              {| news_recv_buffer := buf; reads := O; state := new_state symbols |})
    as [[p evs] E].
  exists p, evs. split; [done|]. intros symbol.
  apply connection_loop_leads in E. cbn [state] in E.
  specialize (E symbol [] I). rewrite app_nil_r, new_state_position in E.
  by eapply alternates_strictly.
Qed.

End Environment.

End StrategyFacts.


(** ** Several processes on one table: what a snapshot can hold *)
Module ConcurrentFacts.
Import SharedMemoryUtils Concurrent.

(** The program points at which a process is inside [with self.lock]. *)
Definition critical (c : pc) : bool :=
  match c with
  | UpdateBegin _ _ _ | UpdateEnd _ _ | UpdateRelease
  | ReadRow _ _ | ReadRelease _ => true
  | Idle | UpdateAcquire _ _ _ | ReadAcquire => false
  end.

Section Invariant.
Variable symbols : list str.
Variable programs : list (list op).

(** A price of row [i]: the zero of [__init__], or one a store to the row's
    symbol has begun to write. *)
Definition value_ok (W : list (str * float)) (i : nat) (v : float) : Prop :=
  v = zero ∨ ∃ sym, sorted symbols !! i = Some sym ∧ (sym, v) ∈ W.

Definition cell_ok (W : list (str * float)) (i : nat) (c : cell) : Prop :=
  match c with
  | Stable v => value_ok W i v
  | Storing old new => value_ok W i old ∧ value_ok W i new
  end.

(** An entry of a snapshot: a whole value, zero or written for its key. *)
Definition entry_ok (W : list (str * float)) (e : str * observed) : Prop :=
  ∃ v, e.2 = Value v ∧ (v = zero ∨ ∃ sym, U10 sym = e.1 ∧ (sym, v) ∈ W).

Definition pc_ok (W : list (str * float)) (c : pc) : Prop :=
  match c with
  | UpdateAcquire i sym _ | UpdateBegin i sym _ => sorted symbols !! i = Some sym
  | UpdateEnd i price => ∃ sym, sorted symbols !! i = Some sym ∧ (sym, price) ∈ W
  | ReadRow _ acc | ReadRelease acc => Forall (entry_ok W) acc
  | Idle | UpdateRelease | ReadAcquire => True
  end.

(** The store a process is about to make is one of its program. *)
Definition pending (c : pc) (ops : list op) : Prop :=
  match c with
  | UpdateAcquire _ sym price | UpdateBegin _ sym price => Update sym price ∈ ops
  | _ => True
  end.

Record inv (s : system) : Prop := {
  inv_data : ∀ i k c, data s !! i = Some (k, c) →
    ∃ sym, sorted symbols !! i = Some sym ∧ k = U10 sym ∧ cell_ok (written s) i c;
  inv_lock : ∀ pid p, procs s !! pid = Some p → critical (at_pc p) = true →
    lock s = Some pid;
  inv_storing : ∀ i k old new, data s !! i = Some (k, Storing old new) →
    ∃ pid p, procs s !! pid = Some p ∧ at_pc p = UpdateEnd i new;
  inv_pc : ∀ pid p, procs s !! pid = Some p → pc_ok (written s) (at_pc p);
  inv_snapshots : ∀ pid p snap, procs s !! pid = Some p → snap ∈ snapshots p →
    Forall (entry_ok (written s)) snap;
  inv_written : ∀ sym v, (sym, v) ∈ written s →
    ∃ pid ops, programs !! pid = Some ops ∧ Update sym v ∈ ops;
  inv_program : ∀ pid p, procs s !! pid = Some p →
    ∃ ops, programs !! pid = Some ops
           ∧ (∀ o, o ∈ program p → o ∈ ops) ∧ pending (at_pc p) ops
}.

Lemma value_ok_mono (W W' : list (str * float)) (i : nat) (v : float) :
  (∀ x, x ∈ W → x ∈ W') → value_ok W i v → value_ok W' i v.
Proof. intros HW [?|(sym & ? & ?)]; [by left|right; eauto]. Qed.

Lemma cell_ok_mono (W W' : list (str * float)) (i : nat) (c : cell) :
  (∀ x, x ∈ W → x ∈ W') → cell_ok W i c → cell_ok W' i c.
Proof.
  intros HW. destruct c; cbn; [|intros []; split]; by eapply value_ok_mono.
Qed.

Lemma entry_ok_mono (W W' : list (str * float)) (e : str * observed) :
  (∀ x, x ∈ W → x ∈ W') → entry_ok W e → entry_ok W' e.
Proof.
  intros HW (v & E & Hv). exists v. split; [done|].
  destruct Hv as [?|(sym & ? & ?)]; [by left|right; eauto].
Qed.

Lemma pc_ok_mono (W W' : list (str * float)) (c : pc) :
  (∀ x, x ∈ W → x ∈ W') → pc_ok W c → pc_ok W' c.
Proof.
  intros HW. destruct c; cbn; auto.
  - intros (sym & ? & ?); eauto.
  - intros H. eapply Forall_impl; [exact H|]. intros e. by apply entry_ok_mono.
  - intros H. eapply Forall_impl; [exact H|]. intros e. by apply entry_ok_mono.
Qed.

Lemma dict_set_Forall {K V : Type} `{EqDecision K} (P : K * V → Prop)
    (d : list (K * V)) (k : K) (v : V) :
  Forall P d → P (k, v) → Forall P (dict_set d k v).
Proof.
  intros Hd Hkv. induction Hd as [|[k' v'] d' Hx Hd' IH]; cbn.
  - by constructor.
  - destruct (decide (k = k')) as [->|]; constructor; auto.
Qed.

Lemma list_lookup_alter_Some {A : Type} (f : A → A) (l : list A)
    (i j : nat) (y : A) :
  alter f i l !! j = Some y →
  (j = i ∧ ∃ x, l !! i = Some x ∧ y = f x) ∨ (i ≠ j ∧ l !! j = Some y).
Proof.
  destruct (decide (i = j)) as [<-|Hne].
  - rewrite list_lookup_alter_eq. intros H. left. split; [done|].
    destruct (l !! i) as [x|]; [|done]. exists x. split; [done|].
    cbn in H. congruence.
  - rewrite list_lookup_alter_ne by done. by right.
Qed.

Lemma initial_inv : inv (initial symbols programs).
Proof.
  split; cbn.
  - intros i k c H. apply list_lookup_fmap_Some in H as (sym & E & Hs).
    inversion E; subst. exists sym. split; [done|]. split; [done|]. by left.
  - intros pid p H. apply list_lookup_fmap_Some in H as (ops & -> & _). done.
  - intros i k old new H. apply list_lookup_fmap_Some in H as (sym & E & _).
    inversion E.
  - intros pid p H. apply list_lookup_fmap_Some in H as (ops & -> & _). done.
  - intros pid p snap H. apply list_lookup_fmap_Some in H as (ops & -> & _).
    cbn. by intros ?%elem_of_nil.
  - by intros sym v ?%elem_of_nil.
  - intros pid p H. apply list_lookup_fmap_Some in H as (ops & -> & Hp).
    exists ops. cbn. auto.
Qed.

(** What is left to show when process [pid] moves from [p] to [p'] and the
    other processes stay where they are. *)
Lemma inv_move (s s' : system) (pid : nat) (p p' : proc) :
  inv s →
  procs s !! pid = Some p →
  procs s' = <[pid := p']> (procs s) →
  (∀ x, x ∈ written s → x ∈ written s') →
  (∀ i k c, data s' !! i = Some (k, c) →
     ∃ sym, sorted symbols !! i = Some sym ∧ k = U10 sym
            ∧ cell_ok (written s') i c) →
  (critical (at_pc p') = true → lock s' = Some pid) →
  (∀ pid' q, pid' ≠ pid → procs s !! pid' = Some q →
     critical (at_pc q) = true → lock s' = Some pid') →
  (∀ i k old new, data s' !! i = Some (k, Storing old new) →
     at_pc p' = UpdateEnd i new
     ∨ ∃ pid' q, pid' ≠ pid ∧ procs s !! pid' = Some q
                 ∧ at_pc q = UpdateEnd i new) →
  pc_ok (written s') (at_pc p') →
  (∀ snap, snap ∈ snapshots p' → Forall (entry_ok (written s')) snap) →
  (∀ sym v, (sym, v) ∈ written s' →
     ∃ pid ops, programs !! pid = Some ops ∧ Update sym v ∈ ops) →
  (∀ ops, programs !! pid = Some ops → (∀ o, o ∈ program p → o ∈ ops) →
     pending (at_pc p) ops →
     (∀ o, o ∈ program p' → o ∈ ops) ∧ pending (at_pc p') ops) →
  inv s'.
Proof.
  intros I Hp Hprocs HW Hdata Hown Hothers Hstoring Hpc Hsnap Hwritten Hprog.
  assert (pid < length (procs s))%nat as Hlt by by eapply lookup_lt_Some.
  split.
  - done.
  - intros pid' q. rewrite Hprocs.
    intros [(<- & <- & _)|(Hne & Hq)]%list_lookup_insert_Some Hc; [auto|].
    apply (Hothers pid' q); [congruence|done..].
  - intros i k old new H.
    destruct (Hstoring i k old new H) as [E|(pid' & q & Hne & Hq & E)].
    + exists pid, p'. split; [|done]. rewrite Hprocs.
      by apply list_lookup_insert_eq.
    + exists pid', q. split; [|done]. rewrite Hprocs.
      by rewrite list_lookup_insert_ne.
  - intros pid' q. rewrite Hprocs.
    intros [(<- & <- & _)|(Hne & Hq)]%list_lookup_insert_Some; auto.
    eapply pc_ok_mono; [exact HW|]. by eapply inv_pc.
  - intros pid' q snap. rewrite Hprocs.
    intros [(<- & <- & _)|(Hne & Hq)]%list_lookup_insert_Some Hin; auto.
    eapply Forall_impl; [by eapply inv_snapshots|].
    intros e. by apply entry_ok_mono.
  - done.
  - intros pid' q. rewrite Hprocs.
    intros [(<- & <- & _)|(Hne & Hq)]%list_lookup_insert_Some.
    + destruct (inv_program s I pid p Hp) as (ops & Ho & Hsub & Hpend).
      exists ops. split; [done|]. by apply Hprog.
    + by eapply inv_program.
Qed.

(** The lock has one holder: while [pid] is inside, no other process is. *)
Lemma inv_exclusive (s : system) (pid pid' : nat) (p q : proc) :
  inv s → procs s !! pid = Some p → critical (at_pc p) = true →
  procs s !! pid' = Some q → critical (at_pc q) = true → pid' = pid.
Proof.
  intros I Hp Hc Hq Hc'.
  pose proof (inv_lock s I pid p Hp Hc) as E1.
  pose proof (inv_lock s I pid' q Hq Hc') as E2. congruence.
Qed.

Ltac same_written := by intros ? ?.
Ltac same_data I := by apply (inv_data _ I).
Ltac same_lock I := intros ? ? _ ? ?; by eapply (inv_lock _ I).
Ltac same_storing I :=
  let pid' := fresh "pid'" in
  let q := fresh "q" in
  let Hq := fresh "Hq" in
  let E := fresh "E" in
  intros ? ? ? ? ?; right;
  edestruct (inv_storing _ I) as (pid' & q & Hq & E); [eassumption|];
  exists pid', q; split; [intros ->; congruence|by split].
Ltac same_snapshots I := intros ? ?; by eapply (inv_snapshots _ I).
Ltac same_log I := by apply (inv_written _ I).
Ltac moves I :=
  eapply inv_move; [exact I|eassumption|reflexivity|..]; cbn.

Lemma step_inv (pid : nat) (s : system) : inv s → inv (step symbols pid s).
Proof.
  intros I. unfold step.
  destruct (procs s !! pid) as [p|] eqn:Hp; [|done].
  pose proof (inv_pc s I pid p Hp) as Hpc.
  destruct (at_pc p) as [|index symbol price|index symbol price|index price|
                         | |i acc|acc] eqn:Epc.
  - (* Idle *)
    destruct (program p) as [|[symbol price|] rest] eqn:Eprog; [done| |].
    + destruct (index_of_symbols (sorted symbols) !! symbol) as [index|] eqn:Ei.
      * moves I;
          [same_written|same_data I|done|same_lock I|same_storing I| |
           same_snapshots I|same_log I|].
        -- by apply PriceBookFacts.index_of_symbols_Some.
        -- intros ops _ Hsub _. rewrite Eprog in Hsub. split.
           ++ intros o Ho. apply Hsub. by right.
           ++ apply Hsub. by left.
      * moves I;
          [same_written|same_data I|done|same_lock I|same_storing I|done|
           same_snapshots I|same_log I|].
        intros ops _ Hsub _. rewrite Eprog in Hsub. split; [|done].
        intros o Ho. apply Hsub. by right.
    + moves I;
        [same_written|same_data I|done|same_lock I|same_storing I|done|
         same_snapshots I|same_log I|].
      intros ops _ Hsub _. rewrite Eprog in Hsub. split; [|done].
      intros o Ho. apply Hsub. by right.
  - (* UpdateAcquire *)
    destruct (lock s) as [holder|] eqn:El; [done|].
    moves I;
      [same_written|same_data I|done| |same_storing I|done|
       same_snapshots I|same_log I|].
    + intros pid' q _ Hq Hc. pose proof (inv_lock s I pid' q Hq Hc). congruence.
    + intros ops _ Hsub Hpend. by rewrite Epc in Hpend.
  - (* UpdateBegin *)
    assert (lock s = Some pid) as El
      by (eapply inv_lock; [done..|by rewrite Epc]).
    cbn in Hpc.
    assert (∀ x, x ∈ written s → x ∈ written s ++ [(symbol, price)]) as HW
      by (intros x Hx; apply elem_of_app; by left).
    assert ((symbol, price) ∈ written s ++ [(symbol, price)]) as Hlast
      by (apply elem_of_app; right; by apply list_elem_of_here).
    moves I; [done| |done|same_lock I| | | | |done].
    + intros i k c H. apply list_lookup_alter_Some in H.
      destruct H as [(-> & [k0 c0] & H0 & E)|(Hne & H)].
      * destruct (inv_data s I index k0 c0 H0) as (sym & Hs & -> & Hc).
        inversion E; subst. exists sym. split; [done|]. split; [done|].
        assert (sym = symbol) as -> by congruence.
        assert (value_ok (written s ++ [(symbol, price)]) index price) as Hnew
          by (right; by exists symbol).
        destruct c0 as [v|old new]; cbn in *.
        -- split; [|done]. by eapply value_ok_mono.
        -- destruct Hc. split; [|done]. by eapply value_ok_mono.
      * destruct (inv_data s I i k c H) as (sym & Hs & -> & Hc).
        exists sym. split; [done|]. split; [done|]. by eapply cell_ok_mono.
    + intros i k old new H. apply list_lookup_alter_Some in H.
      destruct H as [(-> & [k0 c0] & H0 & E)|(Hne & H)].
      * left. destruct c0; inversion E; by subst.
      * right.
        destruct (inv_storing s I i k old new H) as (pid' & q & Hq & E).
        exists pid', q. split; [intros ->; congruence|by split].
    + by exists symbol.
    + intros snap Hin. eapply Forall_impl; [by eapply inv_snapshots|].
      intros e. by apply entry_ok_mono.
    + intros sym v [Hin|Hin%list_elem_of_singleton]%elem_of_app.
      * by apply (inv_written s I).
      * inversion Hin; subst.
        destruct (inv_program s I pid p Hp) as (ops & Ho & _ & Hpend).
        rewrite Epc in Hpend. by exists pid, ops.
  - (* UpdateEnd *)
    assert (lock s = Some pid) as El
      by (eapply inv_lock; [done..|by rewrite Epc]).
    destruct Hpc as (symbol & Hsym & Hw).
    moves I;
      [same_written| |done|same_lock I| |done|same_snapshots I|same_log I|done].
    + intros i k c H. apply list_lookup_alter_Some in H.
      destruct H as [(-> & [k0 c0] & H0 & E)|(Hne & H)].
      * destruct (inv_data s I index k0 c0 H0) as (sym & Hs & -> & Hc).
        inversion E; subst. exists sym. split; [done|]. split; [done|].
        right. by exists symbol.
      * by apply (inv_data s I).
    + intros i k old new H. apply list_lookup_alter_Some in H.
      destruct H as [(-> & [k0 c0] & H0 & E)|(Hne & H)]; [inversion E|].
      right.
      destruct (inv_storing s I i k old new H) as (pid' & q & Hq & E).
      exists pid', q. split; [|by split]. intros ->.
      assert (q = p) as -> by congruence.
      rewrite Epc in E. inversion E; subst. done.
  - (* UpdateRelease *)
    moves I;
      [same_written|same_data I|done| |same_storing I|done|
       same_snapshots I|same_log I|done].
    intros pid' q Hne Hq Hc. destruct Hne.
    eapply (inv_exclusive s pid pid' p q); eauto. by rewrite Epc.
  - (* ReadAcquire *)
    destruct (lock s) as [holder|] eqn:El; [done|].
    moves I;
      [same_written|same_data I|done| |same_storing I|done|
       same_snapshots I|same_log I|done].
    intros pid' q _ Hq Hc. pose proof (inv_lock s I pid' q Hq Hc). congruence.
  - (* ReadRow *)
    cbn in Hpc.
    assert (lock s = Some pid) as El
      by (eapply inv_lock; [done..|by rewrite Epc]).
    destruct (data s !! i) as [[sym c]|] eqn:Hrow.
    + moves I;
        [same_written|same_data I|done|same_lock I|same_storing I| |
         same_snapshots I|same_log I|done].
      apply dict_set_Forall; [done|].
      destruct (inv_data s I i sym c Hrow) as (sym0 & Hs & -> & Hc).
      destruct c as [v|old new].
      * exists v. split; [done|]. cbn in Hc.
        destruct Hc as [?|(sym1 & ? & ?)]; [by left|].
        right. exists sym1. split; [|done]. cbn. congruence.
      * destruct (inv_storing s I i _ old new Hrow) as (pid' & q & Hq & E).
        assert (pid' = pid) as ->.
        { eapply (inv_exclusive s pid pid' p q); eauto.
          - by rewrite Epc.
          - by rewrite E. }
        congruence.
    + moves I;
        [same_written|same_data I|done|same_lock I|same_storing I|done|
         same_snapshots I|same_log I|done].
  - (* ReadRelease *)
    cbn in Hpc.
    moves I;
      [same_written|same_data I|done| |same_storing I|done| |same_log I|done].
    + intros pid' q Hne Hq Hc. destruct Hne.
      eapply (inv_exclusive s pid pid' p q); eauto. by rewrite Epc.
    + intros snap [Hin|Hin%list_elem_of_singleton]%elem_of_app.
      * by eapply inv_snapshots.
      * by subst.
Qed.

Lemma run_inv (schedule : list nat) (s : system) :
  inv s → inv (run symbols schedule s).
Proof.
  revert s. induction schedule as [|pid schedule IH]; intros s I; [done|].
  cbn. apply IH. by apply step_inv.
Qed.

(** Mutual exclusion, in every reachable state. *)
Lemma one_holder (schedule : list nat) (pid pid' : nat) (p q : proc) :
  let s := run symbols schedule (initial symbols programs) in
  procs s !! pid = Some p → critical (at_pc p) = true →
  procs s !! pid' = Some q → critical (at_pc q) = true → pid' = pid.
Proof.
  intros s. apply inv_exclusive. apply run_inv, initial_inv.
Qed.

(** C9. Whatever the processes do and however their steps interleave, every
    entry of every snapshot that [read_all] has returned is a whole value,
    never a field caught in the middle of a store: it is the zero the
    creator filled in, or a price that some process passed to [update] for a
    symbol stored under the entry's key. *)
Theorem C9_snapshots_hold_whole_written_values
    (schedule : list nat) (pid : nat) (p : proc)
    (snap : list (str * observed)) (k : str) (o : observed) :
  procs (run symbols schedule (initial symbols programs)) !! pid = Some p →
  snap ∈ snapshots p →
  (k, o) ∈ snap →
  ∃ v, o = Value v
       ∧ (v = zero
          ∨ ∃ sym writer ops,
              U10 sym = k ∧ programs !! writer = Some ops
              ∧ Update sym v ∈ ops).
Proof.
  intros Hp Hsnap Hin.
  pose proof (run_inv schedule _ initial_inv) as I.
  pose proof (inv_snapshots _ I pid p snap Hp Hsnap) as Hall.
  rewrite Forall_forall in Hall.
  destruct (Hall _ Hin) as (v & E & Hv). cbn in E, Hv.
  exists v. split; [done|].
  destruct Hv as [->|(sym & Hk & Hw)]; [by left|right].
  destruct (inv_written _ I sym v Hw) as (writer & ops & Ho & Hu).
  by exists sym, writer, ops.
Qed.

End Invariant.

(** A writer stores a price for AAPL while a reader waits for the lock; the
    reader's snapshot holds that price and the zero of MSFT. *)
Lemma C9_witness :
  ∃ v, Value (PyFloat.dyadic 101 0) = Value v
       ∧ (v = zero
          ∨ ∃ sym writer ops,
              U10 sym = u "AAPL"
              ∧ [[Update (u "AAPL") (PyFloat.dyadic 101 0)]; [ReadAll]] !! writer
                = Some ops
              ∧ Update sym v ∈ ops).
Proof.
  apply (C9_snapshots_hold_whole_written_values
           Scenario.SYMBOLS
           [[Update (u "AAPL") (PyFloat.dyadic 101 0)]; [ReadAll]]
           [0; 0; 0; 1; 0; 0; 1; 1; 1; 1; 1; 1]%nat 1%nat
           {| program := []; at_pc := Idle;
              snapshots := [[(u "AAPL", Value (PyFloat.dyadic 101 0));
                             (u "MSFT", Value zero)]] |}
           [(u "AAPL", Value (PyFloat.dyadic 101 0)); (u "MSFT", Value zero)]).
  - vm_compute. reflexivity.
  - cbn. apply list_elem_of_here.
  - apply list_elem_of_here.
Defined.

End ConcurrentFacts.


(** ** Framing: fragments, retries and undecodable messages *)
Module Fragments.
Import TextFacts Framing SharedMemoryUtils.

(** The socket without the reads that raise [BlockingIOError]. *)
Fixpoint without_blocking (sock : socket) : socket :=
  match sock with
  | [] => []
  | RecvBlockingIOError :: sock' => without_blocking sock'
  | outcome :: sock' => outcome :: without_blocking sock'
  end.

Local Ltac in_fragments fetch buffered :=
  intros buf tail rest chunks text sock; revert buf;
  induction chunks as [|chunk chunks IH]; intros buf Hbuf Hp Htail Hd;
  [ cbn [fmap list_fmap app concat] in *;
    rewrite fetch by (done || by destruct tail);
    rewrite app_assoc; apply buffered; [done|];
    rewrite elem_of_app; tauto
  | apply Forall_cons in Hp as [[Hne Hc] Hp];
    cbn [fmap list_fmap app concat] in *;
    rewrite fetch by done;
    apply IH; [rewrite elem_of_app; tauto|done|done|];
    rewrite <- Hd; by rewrite <- !app_assoc ].

Lemma OrderBook_in_fragments (buf tail rest : bytes) (chunks : list bytes)
    (text : str) (sock : socket) :
  "010"%byte ∉ buf -> partial chunks -> "010"%byte ∉ tail ->
  decode (buf ++ concat chunks ++ tail) = Some text ->
  OrderBook.receive_framed_message
    ((RecvBytes <$> chunks) ++ RecvBytes (tail ++ MESSAGE_DELIMITER ++ rest) :: sock)
    buf
  = (Return text, rest, sock).
Proof.
  revert buf tail rest chunks text sock.
  in_fragments OrderBook_fetch OrderBook_buffered.
Qed.

Lemma OrderManager_in_fragments (buf tail rest : bytes) (chunks : list bytes)
    (text : str) (sock : socket) :
  "010"%byte ∉ buf -> partial chunks -> "010"%byte ∉ tail ->
  decode (buf ++ concat chunks ++ tail) = Some text ->
  OrderManager.receive_framed_message
    ((RecvBytes <$> chunks) ++ RecvBytes (tail ++ MESSAGE_DELIMITER ++ rest) :: sock)
    buf
  = (Return text, rest, sock).
Proof.
  revert buf tail rest chunks text sock.
  in_fragments OrderManager_fetch OrderManager_buffered.
Qed.

Lemma Strategy_in_fragments (buf tail rest : bytes) (chunks : list bytes)
    (text : str) (sock : socket) :
  "010"%byte ∉ buf -> partial chunks -> "010"%byte ∉ tail ->
  decode (buf ++ concat chunks ++ tail) = Some text ->
  Strategy.receive_framed_news_message
    ((RecvBytes <$> chunks) ++ RecvBytes (tail ++ MESSAGE_DELIMITER ++ rest) :: sock)
    buf
  = (Return text, rest, sock).
Proof.
  revert buf tail rest chunks text sock.
  in_fragments Strategy_fetch Strategy_buffered.
Qed.

(** A message that arrives in pieces.  The buffer holds its beginning, the
    chunks that follow bring more of it, and a last chunk brings its end, the
    delimiter and whatever comes behind.  Each of the three readers returns
    the whole message, takes exactly these chunks from the socket and keeps
    what came behind the delimiter for its next call. *)
Theorem message_in_fragments (buf tail rest : bytes) (chunks : list bytes)
    (text : str) (sock : socket) :
  "010"%byte ∉ buf -> partial chunks -> "010"%byte ∉ tail ->
  decode (buf ++ concat chunks ++ tail) = Some text ->
  let stream :=
    (RecvBytes <$> chunks) ++ RecvBytes (tail ++ MESSAGE_DELIMITER ++ rest) :: sock in
  OrderBook.receive_framed_message stream buf = (Return text, rest, sock)
  ∧ OrderManager.receive_framed_message stream buf = (Return text, rest, sock)
  ∧ Strategy.receive_framed_news_message stream buf = (Return text, rest, sock).
Proof.
  intros Hbuf Hp Htail Hd. cbn zeta. split; [|split].
  - by apply OrderBook_in_fragments.
  - by apply OrderManager_in_fragments.
  - by apply Strategy_in_fragments.
Qed.

Lemma message_in_fragments_witness :
  let stream :=
    [RecvBytes (b "L,10"); RecvBytes (b "1.0");
     RecvBytes (b "0" ++ MESSAGE_DELIMITER ++ b "MSFT")] in
  OrderBook.receive_framed_message stream (b "AAP")
  = (Return (u "AAPL,101.00"), b "MSFT", [])
  ∧ OrderManager.receive_framed_message stream (b "AAP")
    = (Return (u "AAPL,101.00"), b "MSFT", [])
  ∧ Strategy.receive_framed_news_message stream (b "AAP")
    = (Return (u "AAPL,101.00"), b "MSFT", []).
Proof.
  apply (message_in_fragments (b "AAP") (b "0") (b "MSFT")
           [b "L,10"; b "1.0"] (u "AAPL,101.00") []).
  - apply (bool_decide_unpack _); vm_compute; exact I.
  - apply (bool_decide_unpack _); vm_compute; exact I.
  - apply (bool_decide_unpack _); vm_compute; exact I.
  - vm_compute. reflexivity.
Defined.

(** The price reader goes round its loop again on [BlockingIOError]: the
    reads that raise it change nothing of what a call returns, of the buffer
    it leaves, or of what is left of the socket. *)
Theorem OrderBook_retries_blocking (sock : socket) (buf : bytes) :
  OrderBook.receive_framed_message (without_blocking sock) buf
  = let '(r, buf', sock') := OrderBook.receive_framed_message sock buf in
    (r, buf', without_blocking sock').
Proof.
  revert buf. induction sock as [|outcome sock IH]; intros buf.
  - cbn [without_blocking OrderBook.receive_framed_message].
    destruct (negb _); [|done]. by destruct (decode _).
  - destruct outcome as [chunk| | |];
      cbn [without_blocking OrderBook.receive_framed_message];
      destruct (negb (find MESSAGE_DELIMITER buf =? -1)) eqn:E.
    + by destruct (decode _).
    + destruct chunk; [done|]. apply IH.
    + specialize (IH buf). destruct sock as [|o sock'];
        cbn [without_blocking OrderBook.receive_framed_message];
        cbn [OrderBook.receive_framed_message] in IH; rewrite E in *;
        by destruct (decode _).
    + apply IH.
    + by destruct (decode _).
    + done.
    + by destruct (decode _).
    + done.
Qed.

(** A message that is not UTF-8 cannot be skipped.  In the price ingester it
    ends the connection as a closed stream does, with every message behind it
    still in the buffer; in the order sink the decoding error leaves the
    reading loop the same way.  Nothing is updated or executed. *)
Theorem undecodable_message_ends_the_reading (payload rest : bytes)
    (sock : socket) (fuel : nat) (symbols : list str) (book : SharedPriceBook)
    (w : shm_world) :
  decode payload = None -> "010"%byte ∉ payload ->
  OrderBook.message_loop (S fuel) symbols book sock
                         (payload ++ MESSAGE_DELIMITER ++ rest) w
  = Some (SocketStreamClosed, rest, sock, w, [])
  ∧ OrderManager.order_loop (S fuel) sock (payload ++ MESSAGE_DELIMITER ++ rest)
    = Some (UnicodeDecodeError, rest, sock, [])
  ∧ Strategy.receive_framed_news_message sock (payload ++ MESSAGE_DELIMITER ++ rest)
    = (Raise SocketStreamClosed, rest, sock).
Proof.
  intros Hd Hp.
  assert (forall s, OrderBook.receive_framed_message s
                      (payload ++ MESSAGE_DELIMITER ++ rest)
                    = (Raise SocketStreamClosed, rest, s)) as H1.
  { intros s. destruct s; cbn [OrderBook.receive_framed_message];
      rewrite find_delimiter by done;
      (destruct (Z.eqb_spec (Z.of_nat (length payload)) (-1)) as [|_]; [lia|]);
      cbn [negb];
      rewrite (proj1 (split_at_delimiter _ _)), (proj2 (split_at_delimiter _ _));
      by rewrite Hd. }
  assert (forall s, OrderManager.receive_framed_message s
                      (payload ++ MESSAGE_DELIMITER ++ rest)
                    = (Raise UnicodeDecodeError, rest, s)) as H2.
  { intros s. destruct s; cbn [OrderManager.receive_framed_message];
      rewrite find_delimiter by done;
      (destruct (Z.eqb_spec (Z.of_nat (length payload)) (-1)) as [|_]; [lia|]);
      cbn [negb];
      rewrite (proj1 (split_at_delimiter _ _)), (proj2 (split_at_delimiter _ _));
      by rewrite Hd. }
  split; [|split].
  - cbn [OrderBook.message_loop]. by rewrite H1.
  - rewrite OrderWire.order_loop_S. by rewrite H2.
  - destruct sock; cbn [Strategy.receive_framed_news_message];
      rewrite find_delimiter by done;
      (destruct (Z.eqb_spec (Z.of_nat (length payload)) (-1)) as [|_]; [lia|]);
      cbn [negb];
      rewrite (proj1 (split_at_delimiter _ _)), (proj2 (split_at_delimiter _ _));
      by rewrite Hd.
Qed.

Lemma undecodable_message_witness :
  OrderBook.message_loop 1 Scenario.SYMBOLS Scenario.owner_book []
    (["255"%byte] ++ MESSAGE_DELIMITER ++ Scenario.price_message)
    Scenario.created.2
  = Some (SocketStreamClosed, Scenario.price_message, [], Scenario.created.2, [])
  ∧ OrderManager.order_loop 1 []
      (["255"%byte] ++ MESSAGE_DELIMITER ++ Scenario.price_message)
    = Some (UnicodeDecodeError, Scenario.price_message, [], [])
  ∧ Strategy.receive_framed_news_message []
      (["255"%byte] ++ MESSAGE_DELIMITER ++ Scenario.price_message)
    = (Raise SocketStreamClosed, Scenario.price_message, []).
Proof.
  apply undecodable_message_ends_the_reading.
  - vm_compute. reflexivity.
  - apply (bool_decide_unpack _); vm_compute; exact I.
Defined.

End Fragments.


(** ** Starting without a usable table, and the sink after bad JSON *)
Module Startup.
Import SharedMemoryUtils.


Section Environment.
Variable mean : list float -> float.
Variable time : Z -> float.
Variable sendall_raises : Z -> bool.
Variable world_at : nat -> shm_world.

(** A consumer started while the table's name does not exist prints its
    fatal line and returns: the price ingester and the strategy make no
    connection attempt at all, whatever the network would have offered, and
    the shared memory is as it was. *)
Theorem missing_table_is_fatal (shm_name : str) (symbols : list str)
    (w : shm_world) (buf : bytes) (attempts : list connect_outcome)
    (turns : list Strategy.attempt) :
  names w !! shm_name = None ->
  OrderBook.run_orderbook shm_name symbols attempts buf w
  = Some (Return (), buf, w, [OrderBook.Fatal])
  ∧ exists p,
      Strategy.run_strategy mean time sendall_raises world_at
                            shm_name symbols turns buf w
      = Some (Return (), p, [Strategy.Fatal])
      ∧ Strategy.news_recv_buffer p = buf.
Proof.
  intros Hn. unfold OrderBook.run_orderbook, Strategy.run_strategy, init.
  rewrite Hn. split; [done|]. by eexists.
Qed.

(** A consumer started with more symbols than the table has records is not
    caught by the handler for a missing table: [np.ndarray] raises
    [TypeError], [__init__] re-raises it, and it leaves [run_orderbook] and
    [run_strategy] before any connection is attempted. *)
Theorem short_table_is_not_caught (shm_name : str) (symbols : list str)
    (w : shm_world) (buf : bytes) (attempts : list connect_outcome)
    (turns : list Strategy.attempt) (id : nat) :
  names w !! shm_name = Some id ->
  (length (default [] (blocks w !! id)) < length symbols)%nat ->
  OrderBook.run_orderbook shm_name symbols attempts buf w
  = Some (Raise TypeError, buf, w, [])
  ∧ exists p,
      Strategy.run_strategy mean time sendall_raises world_at
                            shm_name symbols turns buf w
      = Some (Raise TypeError, p, []).
Proof.
  intros Hn Hlt. unfold OrderBook.run_orderbook, Strategy.run_strategy, init.
  rewrite Hn.
  assert (length (sorted symbols) = length symbols) as ->.
  { unfold sorted. by rewrite merge_sort_Permutation. }
  destruct (Nat.ltb_spec (length (default [] (blocks w !! id))) (length symbols));
    [|lia].
  split; [done|]. by eexists.
Qed.

End Environment.

Lemma missing_table_is_fatal_witness :
  OrderBook.run_orderbook Scenario.SHM_NAME Scenario.SYMBOLS
    [Connects [RecvBytes Scenario.price_message]] [] Scenario.empty_world
  = Some (Return (), [], Scenario.empty_world, [OrderBook.Fatal])
  ∧ exists p,
      Strategy.run_strategy (λ _, zero) (λ _, zero) (λ _, false)
        (λ _, Scenario.empty_world) Scenario.SHM_NAME Scenario.SYMBOLS [] []
        Scenario.empty_world
      = Some (Return (), p, [Strategy.Fatal])
      ∧ Strategy.news_recv_buffer p = [].
Proof.
  apply (missing_table_is_fatal (λ _, zero) (λ _, zero) (λ _, false)
           (λ _, Scenario.empty_world)).
  reflexivity.
Defined.

Lemma short_table_is_not_caught_witness :
  OrderBook.run_orderbook Scenario.SHM_NAME
    [u "AAPL"; u "MSFT"; u "GOOGL"]
    [Connects [RecvBytes Scenario.price_message]] [] Scenario.created.2
  = Some (Raise TypeError, [], Scenario.created.2, [])
  ∧ exists p,
      Strategy.run_strategy (λ _, zero) (λ _, zero) (λ _, false)
        (λ _, Scenario.created.2) Scenario.SHM_NAME
        [u "AAPL"; u "MSFT"; u "GOOGL"] [] [] Scenario.created.2
      = Some (Raise TypeError, p, []).
Proof.
  apply (short_table_is_not_caught (λ _, zero) (λ _, zero) (λ _, false)
           (λ _, Scenario.created.2) Scenario.SHM_NAME
           [u "AAPL"; u "MSFT"; u "GOOGL"] Scenario.created.2 []
           [Connects [RecvBytes Scenario.price_message]] [] 0%nat).
  - vm_compute. reflexivity.
  - vm_compute. lia.
Defined.

End Startup.


(** ** The table: layout, snapshots and teardown *)
Module TableFacts.
Import SharedMemoryUtils PriceBookFacts Clients.

(** *** The order of [sorted] *)

Lemma str_leb_total (s t : str) : str_leb s t = true ∨ str_leb t s = true.
Proof.
  revert t. induction s as [|x s IH]; intros [|y t]; cbn; auto.
  destruct (N.ltb_spec x y), (N.ltb_spec y x); auto; lia.
Qed.

Lemma str_leb_trans (s t r : str) :
  str_leb s t = true -> str_leb t r = true -> str_leb s r = true.
Proof.
  revert t r. induction s as [|x s IH]; intros [|y t] [|z r]; cbn; try done.
  destruct (N.ltb_spec x y), (N.ltb_spec y x), (N.ltb_spec y z),
    (N.ltb_spec z y), (N.ltb_spec x z), (N.ltb_spec z x);
    try done; try lia.
  apply IH.
Qed.

Lemma str_leb_antisym (s t : str) :
  str_leb s t = true -> str_leb t s = true -> s = t.
Proof.
  revert t. induction s as [|x s IH]; intros [|y t]; cbn; try done.
  destruct (N.ltb_spec x y), (N.ltb_spec y x); try done; try lia.
  intros H1 H2. assert (x = y) as -> by lia. f_equal. by apply IH.
Qed.

#[local] Instance str_le_total : Total str_le.
Proof.
  intros s t. unfold str_le.
  destruct (str_leb_total s t) as [->| ->]; [by left|by right].
Qed.

#[local] Instance str_le_trans : Transitive str_le.
Proof.
  intros s t r. unfold str_le. intros H1%Is_true_true H2%Is_true_true.
  apply Is_true_true. by eapply str_leb_trans.
Qed.

#[local] Instance str_le_antisym : AntiSymm eq str_le.
Proof.
  intros s t. unfold str_le. intros H1%Is_true_true H2%Is_true_true.
  by apply str_leb_antisym.
Qed.

Lemma sorted_permutation (symbols1 symbols2 : list str) :
  symbols1 ≡ₚ symbols2 -> sorted symbols1 = sorted symbols2.
Proof.
  intros Hp. unfold sorted.
  apply (Sorted_unique str_le); try apply _.
  - apply Sorted_merge_sort, _.
  - apply Sorted_merge_sort, _.
  - by rewrite !merge_sort_Permutation.
Qed.

(** Every process lays the table out the same way.  [__init__] sorts the
    symbols it is given, so two calls whose symbol lists differ only in
    their order do the same thing: the same exception or the same handle
    (the same order of records, the same index for every symbol) and the
    same shared memory. *)
Theorem layout_ignores_symbol_order (symbols1 symbols2 : list str)
    (name : str) (create : bool) (w : shm_world) :
  symbols1 ≡ₚ symbols2 ->
  init symbols1 name create w = init symbols2 name create w.
Proof. intros Hp. unfold init. by rewrite (sorted_permutation _ _ Hp). Qed.

Lemma layout_ignores_symbol_order_witness :
  init [u "MSFT"; u "AAPL"; u "GOOGL"] Scenario.SHM_NAME true Scenario.empty_world
  = init [u "GOOGL"; u "MSFT"; u "AAPL"] Scenario.SHM_NAME true Scenario.empty_world.
Proof.
  apply layout_ignores_symbol_order.
  apply (bool_decide_unpack _); vm_compute; exact I.
Defined.

(** *** Snapshots *)

(** The table as [__init__] lays it out: the record at an index holds the
    symbol of that index, cut to the ten characters of the field. *)
Record laid_out (self : SharedPriceBook) (w : shm_world) : Prop := {
  laid_out_attached : attached self w;
  laid_out_symbols : row_symbol <$> data_array self w = U10 <$> symbols self
}.

(** The price a snapshot holds for a key after these records: that of the
    last record with the key. *)
Definition latest (k : str) (found : option float) (rows : list row)
  : option float :=
  foldl (λ acc r, if decide (k = row_symbol r) then Some (row_price r) else acc)
        found rows.

Lemma dict_get_dict_set {V : Type} (d : list (str * V)) (k k' : str) (v : V) :
  dict_get (dict_set d k v) k'
  = if decide (k' = k) then Some v else dict_get d k'.
Proof.
  induction d as [|[k0 v0] d IH]; cbn.
  - by destruct (decide (k' = k)).
  - destruct (decide (k = k0)) as [->|Hne]; cbn.
    + by destruct (decide (k' = k0)).
    + destruct (decide (k' = k0)) as [->|]; [|done].
      by destruct (decide (k0 = k)).
Qed.

Lemma dict_get_rows (rows : list row) (d : list (str * float)) (k : str) :
  dict_get (foldl (λ d r, dict_set d (row_symbol r) (row_price r)) d rows) k
  = latest k (dict_get d k) rows.
Proof.
  revert d. induction rows as [|r rows IH]; intros d; [done|].
  cbn. rewrite IH, dict_get_dict_set. done.
Qed.

Lemma latest_absent (k : str) (found : option float) (rows : list row) :
  k ∉ row_symbol <$> rows -> latest k found rows = found.
Proof.
  revert found. induction rows as [|r rows IH]; intros found Hk; [done|].
  cbn in *. apply not_elem_of_cons in Hk as [Hne Hk].
  destruct (decide (k = row_symbol r)); [done|]. by apply IH.
Qed.

Lemma latest_present (k : str) (found found' : option float) (rows : list row) :
  k ∈ row_symbol <$> rows -> latest k found rows = latest k found' rows.
Proof.
  revert found found'. induction rows as [|r rows IH]; intros found found' Hk.
  - by apply elem_of_nil in Hk.
  - cbn in *. destruct (decide (k = row_symbol r)); [done|].
    apply elem_of_cons in Hk as [?|Hk]; [done|]. by apply IH.
Qed.

Lemma latest_app (k : str) (found : option float) (rows1 rows2 : list row) :
  latest k found (rows1 ++ rows2) = latest k (latest k found rows1) rows2.
Proof. unfold latest. by rewrite foldl_app. Qed.

Lemma insert_split {A : Type} (l : list A) (i : nat) (x y : A) :
  l !! i = Some x ->
  l = take i l ++ x :: drop (S i) l
  ∧ <[i := y]> l = take i l ++ y :: drop (S i) l.
Proof.
  intros H. split.
  - by rewrite <- (take_drop_middle l i x) at 1.
  - rewrite <- (take_drop_middle l i x) at 1 by done.
    rewrite insert_app_r_alt by (rewrite length_take; lia).
    rewrite length_take. apply lookup_lt_Some in H.
    replace (i - i `min` length l)%nat with O by lia. done.
Qed.

(** What a store at [index] does to the snapshot, key by key. *)
Lemma latest_insert (rows : list row) (index : nat) (r : row) (price : float)
    (k : str) :
  rows !! index = Some r ->
  latest k None (<[index := Row (row_symbol r) price]> rows)
  = if decide (k = row_symbol r) then
      if decide (k ∈ row_symbol <$> drop (S index) rows)
      then latest k None rows else Some price
    else latest k None rows.
Proof.
  intros Hr. destruct (insert_split rows index r (Row (row_symbol r) price) Hr)
    as [E1 E2].
  rewrite E2.
  assert (latest k None rows
          = latest k None (take index rows ++ r :: drop (S index) rows)) as ->
    by by rewrite <- E1.
  rewrite !latest_app. cbn.
  destruct (decide (k = row_symbol r)) as [->|Hne]; [|done].
  destruct (decide (row_symbol r ∈ row_symbol <$> drop (S index) rows)) as [Hin|Hout].
  - by apply latest_present.
  - by apply latest_absent.
Qed.

Lemma attached_rows (self : SharedPriceBook) (w : shm_world) :
  attached self w -> length (data_array self w) = size self.
Proof.
  intros [_ _ (m & Hm & Hlen)]. unfold data_array. rewrite Hm, length_take. lia.
Qed.

Lemma laid_out_row (self : SharedPriceBook) (w : shm_world) (symbol : str) :
  laid_out self w -> symbol ∈ symbols self ->
  exists index r,
    symbol_to_index self !! symbol = Some index
    ∧ symbols self !! index = Some symbol
    ∧ data_array self w !! index = Some r
    ∧ row_symbol r = U10 symbol.
Proof.
  intros [Ha Hs] Hin.
  destruct (symbol_to_index self !! symbol) as [index|] eqn:Hi; cycle 1.
  { rewrite (attached_index _ _ Ha) in Hi. by apply index_of_symbols_None in Hi. }
  pose proof Hi as Hsym.
  rewrite (attached_index _ _ Ha) in Hsym. apply index_of_symbols_Some in Hsym.
  assert ((U10 <$> symbols self) !! index = Some (U10 symbol)) as Hu
    by by rewrite list_lookup_fmap, Hsym.
  rewrite <- Hs in Hu. apply list_lookup_fmap_Some in Hu as (r & Hk & Hr).
  by exists index, r.
Qed.

Lemma update_laid_out (self : SharedPriceBook) (w : shm_world)
    (symbol : str) (price : float) (index : nat) (r : row) :
  laid_out self w ->
  symbol_to_index self !! symbol = Some index ->
  data_array self w !! index = Some r ->
  exists w',
    update self symbol price w = (Return (), w')
    ∧ laid_out self w'
    ∧ data_array self w' = <[index := Row (row_symbol r) price]> (data_array self w).
Proof.
  intros [Ha Hs] Hi Hr.
  destruct (data_array_set_price self w index price r Hr)
    as (w' & Hset & Hnames & Hdata & Hother).
  exists w'. unfold update. rewrite Hi. split; [done|]. split; [|done].
  split.
  - destruct Ha as [H1 H2 (m & Hm & Hlen)]. split; [done..|].
    exists m. split; [done|].
    assert (length (data_array self w') = size self) as Hl.
    { rewrite Hdata, length_insert. unfold data_array. rewrite Hm, length_take. lia. }
    unfold data_array in Hl. rewrite Hm, length_take in Hl. lia.
  - rewrite Hdata, list_fmap_insert. cbn. rewrite <- Hs.
    apply list_insert_id. by rewrite list_lookup_fmap, Hr.
Qed.

(** On a table whose symbols stay distinct when cut to ten characters, a
    snapshot after [update(symbol, price)] holds [price] under the symbol's
    key and, under every other key, what a snapshot before the update held.
    The table stays laid out, so this holds update after update. *)
Theorem update_then_read_all (self : SharedPriceBook) (w : shm_world)
    (symbol : str) (price : float) :
  laid_out self w -> NoDup (U10 <$> symbols self) -> symbol ∈ symbols self ->
  exists w',
    update self symbol price w = (Return (), w')
    ∧ laid_out self w'
    ∧ forall k,
        dict_get (read_all self w') k
        = if decide (k = U10 symbol) then Some price
          else dict_get (read_all self w) k.
Proof.
  intros Hl Hnd Hin.
  destruct (laid_out_row self w symbol Hl Hin) as (index & r & Hi & Hsym & Hr & Hk).
  destruct (update_laid_out self w symbol price index r Hl Hi Hr)
    as (w' & Hu & Hl' & Hdata).
  exists w'. split; [done|]. split; [done|]. intros k.
  unfold read_all. rewrite !dict_get_rows, Hdata. cbn.
  rewrite (latest_insert _ _ _ _ _ Hr), Hk.
  destruct (decide (k = U10 symbol)) as [->|]; [|done].
  destruct (decide _) as [Hlater|]; [|done].
  exfalso. rewrite <- (laid_out_symbols _ _ Hl) in Hnd.
  rewrite (proj1 (insert_split _ index r r Hr)) in Hnd.
  rewrite fmap_app, fmap_cons in Hnd.
  apply NoDup_app in Hnd as (_ & _ & Hnd). apply NoDup_cons in Hnd as [Hnd _].
  by rewrite Hk in Hnd.
Qed.

Lemma created_laid_out (symbols0 : list str) (name : str) (w w' : shm_world)
    (self : SharedPriceBook) :
  init symbols0 name true w = (Return self, w') ->
  laid_out self w'
  ∧ data_array self w' = (λ sym, Row (U10 sym) zero) <$> sorted symbols0
  ∧ symbols self = sorted symbols0.
Proof.
  intros Hinit. pose proof (init_attached _ _ _ _ _ _ Hinit) as Ha.
  unfold init in Hinit.
  destruct (length (sorted symbols0) =? 0)%nat; [done|].
  destruct (names w !! name); [done|].
  injection Hinit as <- <-.
  assert (data_array
            {| symbols := sorted symbols0; shm_name := name;
               size := length (sorted symbols0);
               symbol_to_index := index_of_symbols (sorted symbols0);
               is_creator := true;
               shm := Some {| shm_block := length (blocks w) |} |}
            {| names := <[name:=length (blocks w)]> (names w);
               blocks := blocks w ++ [(λ sym, Row (U10 sym) zero) <$> sorted symbols0] |}
          = (λ sym, Row (U10 sym) zero) <$> sorted symbols0) as Hd.
  { unfold data_array. cbn.
    rewrite lookup_app_r, Nat.sub_diag by done. cbn.
    apply take_ge. by rewrite length_fmap. }
  split; [|done]. split; [done|].
  rewrite Hd. cbn. rewrite <- list_fmap_compose. done.
Qed.

Lemma rows_fresh (rows : list row) (d : list (str * float)) :
  NoDup (d.*1 ++ (row_symbol <$> rows)) ->
  foldl (λ d r, dict_set d (row_symbol r) (row_price r)) d rows
  = d ++ ((λ r, (row_symbol r, row_price r)) <$> rows).
Proof.
  revert d. induction rows as [|r rows IH]; intros d Hnd.
  - by rewrite app_nil_r.
  - cbn.
    assert (dict_set d (row_symbol r) (row_price r)
            = d ++ [(row_symbol r, row_price r)]) as ->.
    { apply NoDup_app in Hnd as (_ & Hd & _).
      assert (row_symbol r ∉ d.*1) as Hk.
      { intros Hin. apply (Hd _ Hin). cbn. by left. }
      clear -Hk. induction d as [|[k0 v0] d IH]; [done|]. cbn in *.
      apply not_elem_of_cons in Hk as [Hne Hk].
      destruct (decide (row_symbol r = k0)); [done|]. by rewrite IH. }
    rewrite IH.
    + by rewrite <- app_assoc.
    + rewrite fmap_app. cbn. rewrite <- app_assoc. done.
Qed.

(** A table just created reads as zero under every symbol: when the symbols
    stay distinct in ten characters, the first snapshot lists them in sorted
    order, each with [0.0]. *)
Theorem fresh_table_reads_zero (symbols0 : list str) (name : str)
    (w w' : shm_world) (self : SharedPriceBook) :
  init symbols0 name true w = (Return self, w') ->
  NoDup (U10 <$> symbols0) ->
  read_all self w' = (λ sym, (U10 sym, zero)) <$> sorted symbols0.
Proof.
  intros Hinit Hnd.
  destruct (created_laid_out _ _ _ _ _ Hinit) as (_ & Hd & _).
  unfold read_all. rewrite Hd, rows_fresh.
  - cbn. by rewrite <- list_fmap_compose.
  - cbn. rewrite <- list_fmap_compose. cbn.
    unfold sorted. by rewrite merge_sort_Permutation.
Qed.

(** The symbol field holds ten characters.  When a later record of the
    table has the same ten characters as the record of [symbol], the
    snapshot's one entry for that key is the later record's price: an
    update of [symbol] succeeds and is stored, and no snapshot shows it. *)
Theorem shadowed_update_is_invisible (self : SharedPriceBook) (w : shm_world)
    (symbol later : str) (price : float) (index j : nat) :
  laid_out self w ->
  symbol_to_index self !! symbol = Some index ->
  symbols self !! j = Some later -> (index < j)%nat ->
  U10 later = U10 symbol ->
  exists w',
    update self symbol price w = (Return (), w')
    ∧ data_array self w' !! index = Some (Row (U10 symbol) price)
    ∧ forall k, dict_get (read_all self w') k = dict_get (read_all self w) k.
Proof.
  intros Hl Hi Hj Hlt Hu.
  pose proof Hi as Hsym.
  rewrite (attached_index _ _ (laid_out_attached _ _ Hl)) in Hsym.
  apply index_of_symbols_Some in Hsym.
  assert ((U10 <$> symbols self) !! index = Some (U10 symbol)) as Hk
    by by rewrite list_lookup_fmap, Hsym.
  rewrite <- (laid_out_symbols _ _ Hl) in Hk.
  apply list_lookup_fmap_Some in Hk as (r & Hk & Hr).
  destruct (update_laid_out self w symbol price index r Hl Hi Hr)
    as (w' & Hup & Hl' & Hdata).
  exists w'. split; [done|]. split.
  - rewrite Hdata, list_lookup_insert_eq by by eapply lookup_lt_Some.
    by rewrite <- Hk.
  - intros k. unfold read_all. rewrite !dict_get_rows, Hdata.
    rewrite (latest_insert _ _ _ _ _ Hr).
    destruct (decide (k = row_symbol r)) as [->|]; [|done].
    destruct (decide _) as [|Hout]; [done|]. destruct Hout.
    assert ((U10 <$> symbols self) !! j = Some (U10 later)) as Hj'
      by by rewrite list_lookup_fmap, Hj.
    rewrite <- (laid_out_symbols _ _ Hl) in Hj'.
    rewrite <- Hk, <- Hu.
    apply (list_elem_of_lookup_2 _ (j - S index)).
    rewrite list_lookup_fmap, lookup_drop.
    replace (S index + (j - S index))%nat with j by lia.
    by rewrite <- list_lookup_fmap.
Qed.

(** *** Teardown *)

(** A client's handle never removes the table.  Its [cleanup()] returns
    normally whatever [close()] raises, and [close_shared_price_book] lets
    that exception out; either way the shared memory is as it was, so the
    creator and later clients go on finding the table. *)
Theorem client_teardown_keeps_the_table (self : SharedPriceBook)
    (close_raises : option exn) (w : shm_world) :
  is_creator self = false -> is_Some (shm self) ->
  cleanup self close_raises w = (Return (), w)
  ∧ close_shared_price_book (Some self) close_raises w
    = (from_option Raise (Return ()) close_raises, w)
  ∧ close_shared_price_book None close_raises w = (Return (), w).
Proof.
  intros Hc [m Hm]. unfold cleanup, close_shared_price_book. rewrite Hm, Hc.
  destruct close_raises as [e|]; [|done]. by destruct e.
Qed.

(** *** Instances *)

(** A table whose two symbols agree on their first ten characters. *)
Definition LONG_SYMBOLS : list str := [u "ABCDEFGHIJK1"; u "ABCDEFGHIJK2"].

Definition long_created : result SharedPriceBook * shm_world :=
  init LONG_SYMBOLS Scenario.SHM_NAME true Scenario.empty_world.

Definition long_book : SharedPriceBook :=
  {| symbols := sorted LONG_SYMBOLS;
     shm_name := Scenario.SHM_NAME;
     size := 2;
     symbol_to_index := index_of_symbols (sorted LONG_SYMBOLS);
     is_creator := true;
     shm := Some {| shm_block := 0 |} |}.

(** A client's handle on the table of the scenario. *)
Definition client_book : SharedPriceBook :=
  {| symbols := sorted Scenario.SYMBOLS;
     shm_name := Scenario.SHM_NAME;
     size := 2;
     symbol_to_index := index_of_symbols (sorted Scenario.SYMBOLS);
     is_creator := false;
     shm := Some {| shm_block := 0 |} |}.

Lemma update_then_read_all_witness :
  exists w',
    update Scenario.owner_book (u "MSFT") (PyFloat.dyadic 411 (-1))
           Scenario.created.2 = (Return (), w')
    ∧ laid_out Scenario.owner_book w'
    ∧ forall k,
        dict_get (read_all Scenario.owner_book w') k
        = if decide (k = U10 (u "MSFT")) then Some (PyFloat.dyadic 411 (-1))
          else dict_get (read_all Scenario.owner_book Scenario.created.2) k.
Proof.
  apply update_then_read_all.
  - apply (created_laid_out Scenario.SYMBOLS Scenario.SHM_NAME Scenario.empty_world).
    reflexivity.
  - apply (bool_decide_unpack _); vm_compute; exact I.
  - apply (bool_decide_unpack _); vm_compute; exact I.
Defined.

Lemma fresh_table_reads_zero_witness :
  read_all Scenario.owner_book Scenario.created.2
  = (λ sym, (U10 sym, zero)) <$> sorted Scenario.SYMBOLS.
Proof.
  apply (fresh_table_reads_zero Scenario.SYMBOLS Scenario.SHM_NAME
           Scenario.empty_world).
  - reflexivity.
  - apply (bool_decide_unpack _); vm_compute; exact I.
Defined.

Lemma shadowed_update_is_invisible_witness :
  exists w',
    update long_book (u "ABCDEFGHIJK1") (PyFloat.dyadic 101 0) long_created.2
    = (Return (), w')
    ∧ data_array long_book w' !! 0%nat
      = Some (Row (U10 (u "ABCDEFGHIJK1")) (PyFloat.dyadic 101 0))
    ∧ forall k, dict_get (read_all long_book w') k
                = dict_get (read_all long_book long_created.2) k.
Proof.
  apply (shadowed_update_is_invisible long_book long_created.2
           (u "ABCDEFGHIJK1") (u "ABCDEFGHIJK2") (PyFloat.dyadic 101 0)
           0%nat 1%nat).
  - apply (created_laid_out LONG_SYMBOLS Scenario.SHM_NAME Scenario.empty_world).
    reflexivity.
  - vm_compute. reflexivity.
  - vm_compute. reflexivity.
  - lia.
  - vm_compute. reflexivity.
Defined.

Lemma client_teardown_keeps_the_table_witness :
  cleanup client_book (Some BufferError) Scenario.created.2
  = (Return (), Scenario.created.2)
  ∧ close_shared_price_book (Some client_book) (Some BufferError) Scenario.created.2
    = (Raise BufferError, Scenario.created.2)
  ∧ close_shared_price_book None (Some BufferError) Scenario.created.2
    = (Return (), Scenario.created.2).
Proof.
  apply (client_teardown_keeps_the_table client_book (Some BufferError)
           Scenario.created.2).
  - reflexivity.
  - by eexists.
Defined.

Lemma cleanup_then_attach_witness :
  (init Scenario.SYMBOLS Scenario.SHM_NAME false
        (cleanup Scenario.owner_book None Scenario.created.2).2).1
  = Raise FileNotFoundError.
Proof.
  apply (cleanup_then_attach Scenario.owner_book Scenario.created.2
           Scenario.SYMBOLS).
  - reflexivity.
  - by eexists.
Defined.

End TableFacts.


(** ** The lock: exclusion, the table at rest, and progress *)
Module LockFacts.
Import SharedMemoryUtils Concurrent ConcurrentFacts.

(** A process that has nothing left to do. *)
Definition finished (p : proc) : Prop := at_pc p = Idle ∧ program p = [].

Section Reachable.
Variable symbols : list str.
Variable programs : list (list op).

(** The holder of the lock is a process inside [with self.lock]. *)
Definition held (s : system) : Prop :=
  forall holder, lock s = Some holder ->
    exists q, procs s !! holder = Some q ∧ critical (at_pc q) = true.

Lemma step_held (pid : nat) (s : system) :
  inv symbols programs s -> held s -> held (step symbols pid s).
Proof.
  intros I H. unfold step.
  destruct (procs s !! pid) as [p|] eqn:Hp; [|done].
  assert (pid < length (procs s))%nat as Hlt by by eapply lookup_lt_Some.
  assert (forall p', critical (at_pc p') = critical (at_pc p) ->
            forall holder, lock s = Some holder ->
            exists q, <[pid := p']> (procs s) !! holder = Some q
                      ∧ critical (at_pc q) = true) as Hsame.
  { intros p' Hc holder Hh. destruct (H holder Hh) as (q & Hq & Hcq).
    destruct (decide (holder = pid)) as [->|Hne].
    - exists p'. rewrite list_lookup_insert_eq by done. split; [done|].
      assert (q = p) as -> by congruence. congruence.
    - exists q. by rewrite list_lookup_insert_ne. }
  assert (forall p', critical (at_pc p') = true ->
            forall holder, Some pid = Some holder ->
            exists q, <[pid := p']> (procs s) !! holder = Some q
                      ∧ critical (at_pc q) = true) as Htake.
  { intros p' Hc holder [= <-]. exists p'.
    by rewrite list_lookup_insert_eq. }
  destruct (at_pc p) as [|index symbol price|index symbol price|index price|
                         | |i acc|acc] eqn:Epc.
  - destruct (program p) as [|[symbol price|] rest]; [done| |].
    + destruct (index_of_symbols (sorted symbols) !! symbol);
        intros holder Hh; by apply Hsame.
    + intros holder Hh; by apply Hsame.
  - destruct (lock s) as [h|] eqn:El; [done|].
    intros holder Hh. by apply Htake.
  - intros holder Hh. by apply Hsame.
  - intros holder Hh. by apply Hsame.
  - by intros holder [=].
  - destruct (lock s) as [h|] eqn:El; [done|].
    intros holder Hh. by apply Htake.
  - destruct (data s !! i) as [[sym c]|]; intros holder Hh; by apply Hsame.
  - by intros holder [=].
Qed.

Lemma run_held (schedule : list nat) (s : system) :
  inv symbols programs s -> held s ->
  inv symbols programs (run symbols schedule s) ∧ held (run symbols schedule s).
Proof.
  revert s. induction schedule as [|pid schedule IH]; intros s I H; [done|].
  cbn. apply IH; [by apply step_inv|by apply step_held].
Qed.

Lemma reachable_held (schedule : list nat) :
  let s := run symbols schedule (initial symbols programs) in
  inv symbols programs s ∧ held s.
Proof. apply run_held; [apply initial_inv|by intros holder [=]]. Qed.

(** A step of a process that is not finished and not kept waiting changes
    the state. *)
Lemma step_moves (pid : nat) (s : system) (p : proc) :
  procs s !! pid = Some p -> ¬ finished p ->
  (critical (at_pc p) = false -> at_pc p ≠ Idle -> lock s = None) ->
  step symbols pid s ≠ s.
Proof.
  intros Hp Hnf Hfree Heq.
  assert (pid < length (procs s))%nat as Hlt by by eapply lookup_lt_Some.
  assert (forall p', procs (step symbols pid s) = <[pid := p']> (procs s) ->
                     p' = p) as Hback.
  { intros p' E. rewrite Heq in E.
    apply (f_equal (λ l, l !! pid)) in E.
    rewrite list_lookup_insert_eq, Hp in E by done. congruence. }
  unfold step in Hback. rewrite Hp in Hback.
  destruct p as [prog c snaps]. cbn in *.
  destruct c as [|index symbol price|index symbol price|index price|
                 | |i acc|acc].
  - destruct prog as [|[symbol price|] rest].
    + by destruct Hnf.
    + destruct (index_of_symbols (sorted symbols) !! symbol);
        specialize (Hback _ eq_refl); inversion Hback as [[E]].
      apply (f_equal length) in E. cbn in E. lia.
    + specialize (Hback _ eq_refl). inversion Hback.
  - rewrite Hfree in Hback by done. specialize (Hback _ eq_refl). inversion Hback.
  - specialize (Hback _ eq_refl). inversion Hback.
  - specialize (Hback _ eq_refl). inversion Hback.
  - specialize (Hback _ eq_refl). inversion Hback.
  - rewrite Hfree in Hback by done. specialize (Hback _ eq_refl). inversion Hback.
  - destruct (data s !! i) as [[sym c]|];
      specialize (Hback _ eq_refl); inversion Hback; lia.
  - specialize (Hback _ eq_refl). inversion Hback.
Qed.

(** No deadlock.  However the processes have been interleaved so far, as
    long as one of them has something left to do, one of them can take a
    step that changes the state: the process itself, or the holder of the
    lock it waits for. *)
Theorem some_process_can_move (schedule : list nat) (pid : nat) (p : proc) :
  let s := run symbols schedule (initial symbols programs) in
  procs s !! pid = Some p -> ¬ finished p ->
  exists mover, step symbols mover s ≠ s.
Proof.
  intros s Hp Hnf. destruct (reachable_held schedule) as [I H]. fold s in I, H.
  destruct (lock s) as [holder|] eqn:El.
  - destruct (H holder El) as (q & Hq & Hc). exists holder.
    apply (step_moves holder s q Hq).
    + intros [Hidle _]. by rewrite Hidle in Hc.
    + intros Hn. congruence.
  - exists pid. by apply (step_moves pid s p Hp).
Qed.

(** Mutual exclusion.  However the steps of the processes interleave, when
    one process is inside [with self.lock], in [update] or in [read_all], no
    other process is. *)
Theorem never_two_inside (schedule : list nat) (pid pid' : nat) (p q : proc) :
  let s := run symbols schedule (initial symbols programs) in
  pid ≠ pid' ->
  procs s !! pid = Some p -> procs s !! pid' = Some q ->
  critical (at_pc p) = true -> critical (at_pc q) = false.
Proof.
  intros s Hne Hp Hq Hc. destruct (critical (at_pc q)) eqn:Hcq; [|done].
  destruct Hne. symmetry.
  apply (inv_exclusive symbols programs s pid pid' p q); try done.
  apply run_inv, initial_inv.
Qed.

(** The table at rest.  Whenever the lock is free, no price field is in the
    middle of a store: every record holds the key of its symbol and a whole
    price, the initial [0.0] or one that was passed to [update] for that
    symbol. *)
Theorem free_lock_whole_table (schedule : list nat) (i : nat) (k : str)
    (c : cell) :
  let s := run symbols schedule (initial symbols programs) in
  lock s = None -> data s !! i = Some (k, c) ->
  exists sym v,
    sorted symbols !! i = Some sym ∧ k = U10 sym ∧ c = Stable v
    ∧ (v = zero ∨ (sym, v) ∈ written s).
Proof.
  intros s Hfree Hc. destruct (reachable_held schedule) as [I _]. fold s in I.
  destruct (inv_data _ _ _ I i k c Hc) as (sym & Hs & -> & Hok).
  destruct c as [v|old new].
  - exists sym, v. repeat split; try done.
    destruct Hok as [?|(sym' & ? & ?)]; [by left|right]. congruence.
  - destruct (inv_storing _ _ _ I i _ old new Hc) as (pid & p & Hp & E).
    assert (lock s = Some pid) by (eapply inv_lock; [done..|by rewrite E]).
    congruence.
Qed.

(** The symbol column is written once, by the creator: no interleaving of
    updates and snapshots changes it. *)
Theorem symbol_column_is_fixed (schedule : list nat) :
  (data (run symbols schedule (initial symbols programs))).*1
  = U10 <$> sorted symbols.
Proof.
  assert (forall s, (data (run symbols schedule s)).*1 = (data s).*1) as H.
  { induction schedule as [|pid schedule IH]; intros s; [done|].
    change (run symbols (pid :: schedule) s)
      with (run symbols schedule (step symbols pid s)).
    rewrite IH. unfold step.
    destruct (procs s !! pid) as [p|]; [|done].
    destruct (at_pc p); try done.
    - destruct (program p) as [|[symbol price|] rest]; [done| |done].
      by destruct (index_of_symbols (sorted symbols) !! symbol).
    - by destruct (lock s).
    - cbn. clear. generalize (data s). intros l. revert index.
      induction l as [|[k c] l IH]; intros [|index]; cbn; try done.
      by rewrite IH.
    - cbn. clear. generalize (data s). intros l. revert index.
      induction l as [|[k c] l IH]; intros [|index]; cbn; try done.
      by rewrite IH.
    - by destruct (lock s).
    - by destruct (data s !! i) as [[sym c]|]. }
  rewrite H. cbn. rewrite <- list_fmap_compose. done.
Qed.

End Reachable.

(** *** Instances: a writer caught between the two halves of a store, and
    a reader waiting for the lock *)

Definition PROGRAMS : list (list op) :=
  [[Update (u "AAPL") (PyFloat.dyadic 101 0)]; [ReadAll]].

Definition writer_storing : proc :=
  {| program := []; at_pc := UpdateEnd 0 (PyFloat.dyadic 101 0);
     snapshots := [] |}.

Definition reader_waiting : proc :=
  {| program := []; at_pc := ReadAcquire; snapshots := [] |}.

Lemma never_two_inside_witness :
  critical (at_pc reader_waiting) = false.
Proof.
  apply (never_two_inside Scenario.SYMBOLS PROGRAMS [0; 0; 0; 1]%nat
           0%nat 1%nat writer_storing reader_waiting).
  - lia.
  - vm_compute. reflexivity.
  - vm_compute. reflexivity.
  - reflexivity.
Defined.

Lemma some_process_can_move_witness :
  exists mover,
    step Scenario.SYMBOLS mover
         (run Scenario.SYMBOLS [0; 0; 0; 1]%nat (initial Scenario.SYMBOLS PROGRAMS))
    ≠ run Scenario.SYMBOLS [0; 0; 0; 1]%nat (initial Scenario.SYMBOLS PROGRAMS).
Proof.
  apply (some_process_can_move Scenario.SYMBOLS PROGRAMS [0; 0; 0; 1]%nat
           1%nat reader_waiting).
  - vm_compute. reflexivity.
  - intros [H _]. discriminate H.
Defined.

Lemma free_lock_whole_table_witness :
  exists sym v,
    sorted Scenario.SYMBOLS !! 0%nat = Some sym ∧ u "AAPL" = U10 sym
    ∧ Stable (PyFloat.dyadic 101 0) = Stable v
    ∧ (v = zero
       ∨ (sym, v) ∈ written (run Scenario.SYMBOLS [0; 0; 0; 1; 0; 0]%nat
                               (initial Scenario.SYMBOLS PROGRAMS))).
Proof.
  apply (free_lock_whole_table Scenario.SYMBOLS PROGRAMS [0; 0; 0; 1; 0; 0]%nat
           0%nat (u "AAPL") (Stable (PyFloat.dyadic 101 0))).
  - vm_compute. reflexivity.
  - vm_compute. reflexivity.
Defined.

End LockFacts.


(** ** The strategy: what its orders are, and what it remembers *)
Module OrderFacts.
Import Json SharedMemoryUtils Strategy Emitted.

(** The orders handed to [_send_order], in the order of the calls. *)
Definition orders (evs : list event) : list value := omap order_of evs.

(** [order['order_id']] when it is an [int]. *)
Definition order_id (order : value) : option Z :=
  match order with
  | PyDict d =>
      match dict_get d (u "order_id") with
      | Some (PyInt n) => Some n
      | _ => None
      end
  | _ => None
  end.

Section Environment.
Variable mean : list float -> float.
Variable time : Z -> float.
Variable sendall_raises : Z -> bool.
Variable world_at : nat -> shm_world.

(** *** From one step to a whole run *)

Section Trace.
Variable R : StrategyState -> list event -> StrategyState -> Prop.
Hypothesis R_refl : forall st, R st [] st.
Hypothesis R_trans : forall st1 st2 st3 evs1 evs2,
  R st1 evs1 st2 -> R st2 evs2 st3 -> R st1 (evs1 ++ evs2) st3.
Hypothesis R_silent : forall st ev, order_of ev = None -> R st [ev] st.
Hypothesis R_history : forall ticks st r st',
  update_price_history ticks st = (r, st') -> R st [] st'.
Hypothesis R_trade : forall sentiment symbol price st r st' evs,
  trade mean time sendall_raises sentiment symbol price st = (r, st', evs) ->
  R st evs st'.

Lemma trade_all_trace (sentiment : value) (ticks : list (str * float)) :
  forall st st' r evs,
  trade_all mean time sendall_raises sentiment ticks st = (r, st', evs) ->
  R st evs st'.
Proof.
  induction ticks as [|[symbol price] ticks IH]; intros st st' r evs;
    cbn [trade_all]; [by intros [= <- <- <-]|].
  destruct (trade _ _ _ _ _ _ st) as [[[?|e] st1] evs1] eqn:E1.
  - destruct (trade_all _ _ _ _ ticks st1) as [[r2 st2] evs2] eqn:E2.
    intros [= <- <- <-]. eapply R_trans; [by eapply R_trade|by eapply IH].
  - intros [= <- <- <-]. by eapply R_trade.
Qed.

Lemma strategy_loop_trace (fuel : nat) (book : SharedPriceBook) :
  forall sock p e sock' p' evs,
  strategy_loop mean time sendall_raises world_at fuel book sock p
  = Some (e, sock', p', evs) ->
  R (state p) evs (state p').
Proof.
  induction fuel as [|fuel IH]; intros sock p e sock' p' evs; [done|].
  cbn [strategy_loop].
  destruct (receive_framed_news_message sock (news_recv_buffer p))
    as [[[raw|e0] buf] sock1]; [|by intros [= <- <- <- <-]].
  destruct (loads raw) as [[sentiment|e0]|]; [| |done];
    [|by intros [= <- <- <- <-]].
  destruct (update_price_history _ (state p)) as [[?|e0] st1] eqn:Eu;
    apply R_history in Eu; [|by intros [= <- <- <- <-]].
  destruct (trade_all _ _ _ _ _ st1) as [[[?|e0] st2] evs2] eqn:Et;
    apply trade_all_trace in Et.
  - destruct (strategy_loop _ _ _ _ fuel book sock1 _)
      as [[[[e3 sock3] p3] evs3]|] eqn:El; [|done].
    intros [= <- <- <- <-]. apply IH in El. cbn in El.
    eapply R_trans; [|done].
    change evs2 with ([] ++ evs2). by eapply R_trans.
  - intros [= <- <- <- <-]. cbn.
    change evs2 with ([] ++ evs2). by eapply R_trans.
Qed.

Lemma connection_loop_trace (attempts : list attempt) (book : SharedPriceBook) :
  forall om p p' evs,
  connection_loop mean time sendall_raises world_at attempts book om p
  = Some (p', evs) ->
  R (state p) evs (state p').
Proof.
  induction attempts as [|a attempts IH]; intros om p p' evs;
    cbn [connection_loop]; [by intros [= <- <-]|].
  assert (forall st st' ev evs0, order_of ev = None ->
            R st evs0 st' -> R st (ev :: evs0) st') as Hcons.
  { intros st st' ev evs0 Hev H. change (ev :: evs0) with ([ev] ++ evs0).
    eapply R_trans; [by apply R_silent|done]. }
  destruct (if om then None else om_connect_raises a) as [e|].
  { destruct (connection_loop _ _ _ _ attempts book false p)
      as [[p1 evs1]|] eqn:E; [|done].
    intros [= <- <-]. apply Hcons; [done|by eapply IH]. }
  assert (forall st st' evs0,
            R st evs0 st' ->
            R st ((if om then [] else [ConnectedOrderManager]) ++ evs0) st')
    as Hconn.
  { intros st st' evs0 H. destruct om; [done|]. by apply Hcons. }
  destruct (news_connect a) as [sock|e].
  - destruct (strategy_loop _ _ _ _ _ book sock _)
      as [[[[e1 sock1] p1] evs1]|] eqn:El; [|done].
    destruct (connection_loop _ _ _ _ attempts book true p1)
      as [[p2 evs2]|] eqn:E; [|done].
    intros [= <- <-]. apply Hconn. apply Hcons; [done|].
    apply strategy_loop_trace in El. cbn in El.
    eapply R_trans; [done|]. apply Hcons; [done|by eapply IH].
  - destruct (connection_loop _ _ _ _ attempts book true p)
      as [[p1 evs1]|] eqn:E; [|done].
    intros [= <- <-]. apply Hconn. apply Hcons; [done|by eapply IH].
Qed.

End Trace.

(** *** One step *)

Lemma update_price_history_keeps (ticks : list (str * float)) :
  forall st st' r,
  update_price_history ticks st = (r, st') ->
  position st' = position st ∧ order_counter st' = order_counter st.
Proof.
  induction ticks as [|[sym price] ticks IH]; intros st st' r;
    cbn [update_price_history]; [by intros [= <- <-]|].
  destruct (SFltb zero price); [|apply IH].
  destruct (price_history st !! sym); [|by intros [= <- <-]].
  intros H. by apply IH in H.
Qed.

(** What [trade] does when it sends: when and what. *)
Lemma trade_sends (sentiment : value) (symbol : str) (price : float)
    (st st' : StrategyState) (r : result unit) (evs : list event) :
  trade mean time sendall_raises sentiment symbol price st = (r, st', evs) ->
  (evs = [] ∧ st' = st)
  ∨ exists side history,
      side ≠ NEUTRAL
      ∧ news_signal sentiment = Return side
      ∧ SFeqb price zero = false
      ∧ price_history st !! symbol = Some history
      ∧ (LONG_WINDOW <= length history)%nat
      ∧ evs = [_send_order (sendall_raises (order_counter st))
                 (make_order (order_counter st) symbol side price
                             (time (order_counter st)))]
      ∧ price_history st' = price_history st
      ∧ order_counter st' = order_counter st + 1.
Proof.
  unfold trade. destruct (SFeqb price zero) eqn:Ez;
    [intros [= <- <- <-]; by left|].
  unfold get_ma. destruct (price_history st !! symbol) as [history|] eqn:Eh;
    [|intros [= <- <- <-]; by left].
  destruct (Nat.ltb_spec (length history) SHORT_WINDOW) as [Hs|Hs];
    destruct (Nat.ltb_spec (length history) LONG_WINDOW) as [Hl|Hl];
    try (unfold SHORT_WINDOW, LONG_WINDOW in *; lia).
  - destruct (news_signal sentiment) as [news|e]; [|intros [= <- <- <-]; by left].
    cbn [price_signal final_signal]. intros [= <- <- <-]. by left.
  - destruct (news_signal sentiment) as [news|e]; [|intros [= <- <- <-]; by left].
    cbn [price_signal]. replace (final_signal NEUTRAL news) with NEUTRAL
      by by destruct news.
    intros [= <- <- <-]. by left.
  - destruct (news_signal sentiment) as [news|e] eqn:En;
      [|intros [= <- <- <-]; by left].
    unfold generate_order.
    destruct (final_signal _ news) eqn:Ef; [intros [= <- <- <-]; by left| |].
    + assert (news = BUY) as ->.
      { destruct (price_signal _ _), news; by try discriminate Ef. }
      destruct (position st !! symbol) as [[]|];
        intros [= <- <- <-]; try (by left); right; by exists BUY, history.
    + assert (news = SELL) as ->.
      { destruct (price_signal _ _), news; by try discriminate Ef. }
      destruct (position st !! symbol) as [[]|];
        intros [= <- <- <-]; try (by left); right; by exists SELL, history.
Qed.

(** *** Whole runs *)

Lemma orders_app (evs1 evs2 : list event) :
  orders (evs1 ++ evs2) = orders evs1 ++ orders evs2.
Proof. apply omap_app. Qed.

Lemma orders_send (raises : bool) (order : value) :
  orders [_send_order raises order] = [order].
Proof. unfold _send_order. by destruct (encode _); [destruct raises|]. Qed.

(** The order numbers count up from the counter. *)
Definition counts_up (st : StrategyState) (evs : list event)
    (st' : StrategyState) : Prop :=
  order_id <$> orders evs
  = Some <$> seqZ (order_counter st) (Z.of_nat (length (orders evs)))
  ∧ order_counter st' = order_counter st + Z.of_nat (length (orders evs)).

Lemma counts_up_refl (st : StrategyState) : counts_up st [] st.
Proof. split; [done|]. cbn. lia. Qed.

Lemma counts_up_trans (st1 st2 st3 : StrategyState) (evs1 evs2 : list event) :
  counts_up st1 evs1 st2 -> counts_up st2 evs2 st3 ->
  counts_up st1 (evs1 ++ evs2) st3.
Proof.
  intros [H1 C1] [H2 C2]. unfold counts_up.
  rewrite orders_app, length_app, Nat2Z.inj_add, fmap_app, H1, H2, C1.
  split; [|lia]. rewrite seqZ_app by lia. by rewrite fmap_app.
Qed.

Lemma counts_up_silent (st : StrategyState) (ev : event) :
  order_of ev = None -> counts_up st [ev] st.
Proof.
  intros H. unfold counts_up, orders. cbn. rewrite H. cbn. split; [done|lia].
Qed.

Lemma counts_up_history (ticks : list (str * float)) (st : StrategyState)
    (r : result unit) (st' : StrategyState) :
  update_price_history ticks st = (r, st') -> counts_up st [] st'.
Proof.
  intros H. apply update_price_history_keeps in H as [_ H].
  split; [done|]. cbn. lia.
Qed.

Lemma counts_up_trade (sentiment : value) (symbol : str) (price : float)
    (st : StrategyState) (r : result unit) (st' : StrategyState)
    (evs : list event) :
  trade mean time sendall_raises sentiment symbol price st = (r, st', evs) ->
  counts_up st evs st'.
Proof.
  intros H. apply trade_sends in H
    as [[-> ->]|(side & history & _ & _ & _ & _ & _ & -> & _ & Hc)].
  - apply counts_up_refl.
  - unfold counts_up. rewrite orders_send. cbn. split; [done|lia].
Qed.

(** Order numbers are never reused and never skipped.  Over the whole life
    of the strategy, reconnections included, the [n]-th order handed to
    [_send_order] carries [order_id] [n], whether or not its [sendall]
    succeeds; and the counter ends one above the number of orders. *)
Theorem order_ids_count_up (symbols : list str) (attempts : list attempt)
    (book : SharedPriceBook) (buf : bytes) :
  exists p evs,
    connection_loop mean time sendall_raises world_at attempts book false
      {| news_recv_buffer := buf; reads := O; state := new_state symbols |}
    = Some (p, evs)
    ∧ order_id <$> orders evs
      = Some <$> seqZ 1 (Z.of_nat (length (orders evs)))
    ∧ order_counter (state p) = 1 + Z.of_nat (length (orders evs)).
Proof.
  destruct (StrategyFacts.Strategy_connection_loop_total mean time sendall_raises
              world_at attempts book false
              {| news_recv_buffer := buf; reads := O; state := new_state symbols |})
    as [[p evs] E].
  exists p, evs. split; [done|].
  apply (connection_loop_trace counts_up counts_up_refl counts_up_trans
           counts_up_silent counts_up_history counts_up_trade) in E.
  exact E.
Qed.

(** An order as the strategy builds it: ten units, bought or sold, at a
    price that is not zero. *)
Definition strategy_order (order : value) : Prop :=
  exists n symbol side price timestamp,
    order = order_record n symbol side 10 price timestamp
    ∧ side ≠ NEUTRAL ∧ SFeqb price zero = false.

Definition well_built (st : StrategyState) (evs : list event)
    (st' : StrategyState) : Prop :=
  Forall strategy_order (orders evs).

Lemma well_built_trade (sentiment : value) (symbol : str) (price : float)
    (st : StrategyState) (r : result unit) (st' : StrategyState)
    (evs : list event) :
  trade mean time sendall_raises sentiment symbol price st = (r, st', evs) ->
  well_built st evs st'.
Proof.
  intros H. apply trade_sends in H
    as [[-> ->]|(side & history & Hs & _ & Hz & _ & _ & -> & _ & _)].
  - constructor.
  - unfold well_built. rewrite orders_send. constructor; [|constructor].
    by eexists _, symbol, side, price, _.
Qed.

(** Whatever the news and the prices, every order the strategy ever hands
    to [_send_order] is a [BUY] or a [SELL] of ten units at a price that is
    not [0.0]: a symbol whose price has not been set is never traded. *)
Theorem every_order_is_well_built (symbols : list str) (attempts : list attempt)
    (book : SharedPriceBook) (buf : bytes) :
  exists p evs,
    connection_loop mean time sendall_raises world_at attempts book false
      {| news_recv_buffer := buf; reads := O; state := new_state symbols |}
    = Some (p, evs)
    ∧ Forall strategy_order (orders evs).
Proof.
  destruct (StrategyFacts.Strategy_connection_loop_total mean time sendall_raises
              world_at attempts book false
              {| news_recv_buffer := buf; reads := O; state := new_state symbols |})
    as [[p evs] E].
  exists p, evs. split; [done|].
  apply (connection_loop_trace well_built) in E; [exact E|..].
  - intros st. constructor.
  - intros st1 st2 st3 evs1 evs2 H1 H2. unfold well_built.
    rewrite orders_app. by apply Forall_app.
  - intros st ev Hev. unfold well_built, orders. cbn. rewrite Hev. constructor.
  - intros ticks st r st' _. constructor.
  - apply well_built_trade.
Qed.

(** When one turn of the loop trades a symbol.  If the body of the loop
    over the snapshot sends an order for a symbol, then the symbol's price
    is not zero, at least [LONG_WINDOW] prices of it are on record, the news
    signal is not neutral, and the order is that signal's side at the
    snapshot's price, numbered by the counter; for a sentiment that is an
    [int] the signal is [BUY] above 70 and [SELL] below 30. *)
Theorem an_order_needs_news_and_history (sentiment : value) (symbol : str)
    (price : float) (st st' : StrategyState) (r : result unit)
    (evs : list event) :
  trade mean time sendall_raises sentiment symbol price st = (r, st', evs) ->
  evs ≠ [] ->
  SFeqb price zero = false
  ∧ (exists history,
       price_history st !! symbol = Some history
       ∧ (LONG_WINDOW <= length history)%nat)
  ∧ exists side,
      news_signal sentiment = Return side ∧ side ≠ NEUTRAL
      ∧ orders evs = [make_order (order_counter st) symbol side price
                                 (time (order_counter st))]
      ∧ forall n, sentiment = PyInt n ->
          (side = BUY ∧ BULLISH_THRESHOLD < n)
          ∨ (side = SELL ∧ n < BEARISH_THRESHOLD).
Proof.
  intros H Hne. apply trade_sends in H
    as [[-> ->]|(side & history & Hs & Hn & Hz & Hh & Hl & -> & _ & _)]; [done|].
  split; [done|]. split; [by exists history|].
  exists side. split; [done|]. split; [done|]. split; [apply orders_send|].
  intros n ->. unfold news_signal in Hn. cbn in Hn.
  destruct (Z.ltb_spec BULLISH_THRESHOLD n).
  - injection Hn as <-. by left.
  - cbn in Hn. destruct (Z.ltb_spec n BEARISH_THRESHOLD).
    + injection Hn as <-. by right.
    + injection Hn as <-. done.
Qed.

(** *** The price histories *)

(** Every history holds at most [MAX_HISTORY] prices, all above zero. *)
Definition bounded (st : StrategyState) : Prop :=
  forall symbol history,
    price_history st !! symbol = Some history ->
    (length history <= MAX_HISTORY)%nat
    ∧ Forall (λ price, SFltb zero price = true) history.

Definition keeps_bounded (st : StrategyState) (evs : list event)
    (st' : StrategyState) : Prop :=
  bounded st -> bounded st'.

Lemma deque_append_bounded (history : list float) (price : float) :
  (length history <= MAX_HISTORY)%nat ->
  Forall (λ price, SFltb zero price = true) history ->
  SFltb zero price = true ->
  (length (deque_append history price) <= MAX_HISTORY)%nat
  ∧ Forall (λ price, SFltb zero price = true) (deque_append history price).
Proof.
  intros Hl Hall Hp. unfold deque_append. split.
  - rewrite length_drop, length_app. cbn. lia.
  - apply Forall_drop, Forall_app. split; [done|]. by constructor.
Qed.

Lemma update_price_history_bounded (ticks : list (str * float)) :
  forall st st' r,
  update_price_history ticks st = (r, st') -> bounded st -> bounded st'.
Proof.
  induction ticks as [|[sym price] ticks IH]; intros st st' r;
    cbn [update_price_history]; [by intros [= <- <-]|].
  destruct (SFltb zero price) eqn:Hp; [|apply IH].
  destruct (price_history st !! sym) as [history|] eqn:Hh; [|by intros [= <- <-]].
  intros H Hb. apply IH in H; [done|].
  intros symbol h. cbn.
  destruct (decide (sym = symbol)) as [->|Hne].
  - rewrite lookup_insert_eq. intros [= <-].
    destruct (Hb _ _ Hh). by apply deque_append_bounded.
  - rewrite lookup_insert_ne by done. apply Hb.
Qed.

(** The memory of the strategy is bounded.  After any run, every price
    history holds at most [MAX_HISTORY] prices, each of them above zero:
    the deque drops its oldest price when full, and prices that are not
    positive are never recorded. *)
Theorem histories_stay_bounded (symbols : list str) (attempts : list attempt)
    (book : SharedPriceBook) (buf : bytes) :
  exists p evs,
    connection_loop mean time sendall_raises world_at attempts book false
      {| news_recv_buffer := buf; reads := O; state := new_state symbols |}
    = Some (p, evs)
    ∧ forall symbol history,
        price_history (state p) !! symbol = Some history ->
        (length history <= MAX_HISTORY)%nat
        ∧ Forall (λ price, SFltb zero price = true) history.
Proof.
  destruct (StrategyFacts.Strategy_connection_loop_total mean time sendall_raises
              world_at attempts book false
              {| news_recv_buffer := buf; reads := O; state := new_state symbols |})
    as [[p evs] E].
  exists p, evs. split; [done|].
  assert (connection_loop_trace_bounded :
            keeps_bounded (new_state symbols) evs (state p)).
  { apply (connection_loop_trace keeps_bounded) in E; [exact E|..].
    - intros st Hb. exact Hb.
    - intros st1 st2 st3 evs1 evs2 H1 H2 Hb. by apply H2, H1.
    - intros st ev _ Hb. exact Hb.
    - intros ticks st r st' H Hb.
      by apply (update_price_history_bounded ticks st st' r).
    - intros sentiment symbol price st r st' evs0 H Hb.
      apply trade_sends in H as [[_ ->]|(_ & _ & _ & _ & _ & _ & _ & _ & Hh & _)];
        [done|].
      intros sym h. rewrite Hh. apply Hb. }
  apply connection_loop_trace_bounded. intros symbol history. cbn. intros H.
  apply elem_of_list_to_map_2 in H.
  apply list_elem_of_fmap in H as (sym & [= _ ->] & _).
  split; [cbn; lia|constructor].
Qed.

(** *** The connection to the OrderManager *)

Definition about_order_manager (ev : event) : bool :=
  match ev with
  | ConnectedOrderManager | OrderManagerError _ => true
  | _ => false
  end.

Definition only_orders (st : StrategyState) (evs : list event)
    (st' : StrategyState) : Prop :=
  Forall (λ ev, is_Some (order_of ev)) evs.

Lemma strategy_loop_only_orders (fuel : nat) (book : SharedPriceBook)
    (sock sock' : socket) (p p' : process) (e : exn) (evs : list event) :
  strategy_loop mean time sendall_raises world_at fuel book sock p
  = Some (e, sock', p', evs) ->
  filter about_order_manager evs = [].
Proof.
  intros H. apply (strategy_loop_trace only_orders) in H; cycle 1.
  - intros st. constructor.
  - intros st1 st2 st3 evs1 evs2 H1 H2. by apply Forall_app.
  - intros ticks st r st' _. constructor.
  - intros sentiment symbol price st r st' evs0 H0.
    apply trade_sends in H0
      as [[-> _]|(side & history & _ & _ & _ & _ & _ & -> & _ & _)];
      [constructor|].
    constructor; [|constructor]. unfold _send_order.
    by destruct (encode _); [destruct (sendall_raises _)|].
  - induction H as [|ev evs0 [o Ho] _ IH]; [done|].
    rewrite filter_cons. by destruct ev.
Qed.

(** The OrderManager is connected to once.  Among the events of a run,
    those about the OrderManager are failed connection attempts followed by
    at most one successful one; after it the strategy never connects to the
    OrderManager again, whatever happens to the orders it sends. *)
Theorem order_manager_is_connected_once (attempts : list attempt)
    (book : SharedPriceBook) (om_connected : bool) (p p' : process)
    (evs : list event) :
  connection_loop mean time sendall_raises world_at attempts book om_connected p
  = Some (p', evs) ->
  exists (errors : list exn) (connected : bool),
    filter about_order_manager evs
    = (OrderManagerError <$> errors)
      ++ (if connected then [ConnectedOrderManager] else [])
    ∧ (om_connected = true -> errors = [] ∧ connected = false).
Proof.
  revert om_connected p p' evs.
  induction attempts as [|a attempts IH]; intros om p p' evs;
    cbn [connection_loop].
  { intros [= <- <-]. by exists [], false. }
  assert (forall rest,
            filter about_order_manager rest = [] ->
            filter about_order_manager
              ((if om then [] else [ConnectedOrderManager]) ++ rest)
            = (OrderManagerError <$> [])
              ++ (if negb om then [ConnectedOrderManager] else [])) as Hhead.
  { intros rest Hrest. destruct om; cbn [app negb fmap list_fmap]; [done|].
    rewrite filter_cons. cbn. by rewrite Hrest. }
  destruct (if om then None else om_connect_raises a) as [e|] eqn:Eom.
  { destruct om; [done|].
    destruct (connection_loop _ _ _ _ attempts book false p)
      as [[p1 evs1]|] eqn:E; [|done].
    intros [= <- <-]. apply IH in E as (errors & connected & E & _).
    exists (e :: errors), connected. split; [|done].
    rewrite filter_cons. cbn. by rewrite E. }
  destruct (news_connect a) as [sock|e].
  - destruct (strategy_loop _ _ _ _ _ book sock _)
      as [[[[e1 sock1] p1] evs1]|] eqn:El; [|done].
    destruct (connection_loop _ _ _ _ attempts book true p1)
      as [[p2 evs2]|] eqn:E; [|done].
    intros [= <- <-]. apply IH in E as (errors & connected & E & Hc).
    destruct (Hc eq_refl) as [-> ->].
    exists [], (negb om). split; [|by intros ->].
    apply Hhead. rewrite filter_cons. cbn. rewrite filter_app, filter_cons. cbn.
    by rewrite (strategy_loop_only_orders _ _ _ _ _ _ _ _ El), E.
  - destruct (connection_loop _ _ _ _ attempts book true p)
      as [[p1 evs1]|] eqn:E; [|done].
    intros [= <- <-]. apply IH in E as (errors & connected & E & Hc).
    destruct (Hc eq_refl) as [-> ->].
    exists [], (negb om). split; [|by intros ->].
    apply Hhead. rewrite filter_cons. cbn. by rewrite E.
Qed.

End Environment.

(** *** Instances *)

(** Twenty prices of AAPL on record and no position yet. *)
Definition seasoned : StrategyState :=
  {| price_history := {[ u "AAPL" := replicate 20 (PyFloat.dyadic 101 0) ]};
     position := {[ u "AAPL" := NONE ]};
     order_counter := 7 |}.

(** A mean that makes the short average fall below the long one. *)
Definition sinking (prices : list float) : float :=
  PyFloat.dyadic (Z.of_nat (length prices)) 0.

(** The OrderManager refuses once; then the news stream delivers one
    sentiment and closes. *)
Definition two_turns : list attempt :=
  [ {| om_connect_raises := Some ConnectionRefusedError;
       news_connect := ConnectRaises ConnectionRefusedError |};
    {| om_connect_raises := None;
       news_connect := Connects [RecvBytes (b "80" ++ MESSAGE_DELIMITER)] |} ].

Lemma an_order_needs_news_and_history_witness :
  SFeqb (PyFloat.dyadic 101 0) zero = false
  ∧ (exists history,
       price_history seasoned !! u "AAPL" = Some history
       ∧ (LONG_WINDOW <= length history)%nat)
  ∧ exists side,
      news_signal (PyInt 10) = Return side ∧ side ≠ NEUTRAL
      ∧ orders [Sent (make_order 7 (u "AAPL") SELL (PyFloat.dyadic 101 0) zero)
                     (default [] (encode (dumps
                        (make_order 7 (u "AAPL") SELL (PyFloat.dyadic 101 0) zero)))
                      ++ MESSAGE_DELIMITER)]
        = [make_order (order_counter seasoned) (u "AAPL") side
                      (PyFloat.dyadic 101 0) zero]
      ∧ forall n, PyInt 10 = PyInt n ->
          (side = BUY ∧ BULLISH_THRESHOLD < n)
          ∨ (side = SELL ∧ n < BEARISH_THRESHOLD).
Proof.
  apply (an_order_needs_news_and_history sinking (λ _, zero) (λ _, false)
           (PyInt 10) (u "AAPL") (PyFloat.dyadic 101 0) seasoned
           {| price_history := price_history seasoned;
              position := <[u "AAPL" := SHORT]> (position seasoned);
              order_counter := 8 |}
           (Return ())).
  - vm_compute. reflexivity.
  - discriminate.
Defined.

Lemma order_manager_is_connected_once_witness :
  exists (errors : list exn) (connected : bool),
    filter about_order_manager
      [OrderManagerError ConnectionRefusedError; ConnectedOrderManager;
       ConnectedNews; NewsError SocketStreamClosed]
    = (OrderManagerError <$> errors)
      ++ (if connected then [ConnectedOrderManager] else [])
    ∧ (false = true -> errors = [] ∧ connected = false).
Proof.
  apply (order_manager_is_connected_once sinking (λ _, zero) (λ _, false)
           (λ _, Scenario.created.2) two_turns Scenario.owner_book false
           {| news_recv_buffer := []; reads := O;
              state := new_state Scenario.SYMBOLS |}
           {| news_recv_buffer := []; reads := 1;
              state := new_state Scenario.SYMBOLS |}).
  vm_compute. reflexivity.
Defined.

End OrderFacts.


(** ** The gateway's prices as text *)
Module PriceText.
Import PyFloat Gateway OrderWire.

(** Text of a decimal number: a sign, digits and a point, nothing else. *)
Definition numeric (t : str) : Prop :=
  Forall (λ c, c = 45%N ∨ c = 46%N ∨ is_digit c = true) t.

Lemma strip_ends (c d : N) (mid : str) :
  isspace c = false -> isspace d = false ->
  strip (c :: mid ++ [d]) = c :: mid ++ [d].
Proof.
  intros Hc Hd. unfold strip. cbn [lstrip]. rewrite Hc.
  rewrite reverse_cons, reverse_app. cbn [reverse rev_append app].
  change (reverse [d]) with [d]. cbn [app lstrip]. rewrite Hd.
  change (d :: reverse mid ++ [c]) with ([d] ++ reverse mid ++ [c]).
  rewrite !reverse_app, reverse_involutive. done.
Qed.

Lemma underscores_ok_numeric (t : str) (prev : bool) :
  numeric t -> underscores_ok prev t = true.
Proof.
  intros H. revert prev. induction H as [|c t Hc _ IH]; intros prev; [done|].
  cbn [underscores_ok].
  destruct (N.eqb_spec c 95) as [->|_]; [|apply IH].
  destruct Hc as [?|[?|?]]; done.
Qed.

Lemma drop_underscores_numeric (t : str) : numeric t -> drop_underscores t = t.
Proof.
  intros H. unfold drop_underscores, str in *.
  induction H as [|c t Hc _ IH]; [done|].
  rewrite filter_cons. destruct (decide (c ≠ 95%N)) as [_|Heq].
  - by rewrite IH.
  - destruct Heq. intros ->. destruct Hc as [?|[?|?]]; done.
Qed.

Lemma span_digits_point (ds r : str) :
  Forall (λ c, is_digit c = true) ds ->
  span_digits (ds ++ 46%N :: r) = (ds, 46%N :: r).
Proof.
  induction 1 as [|c ds Hc _ IH]; [done|].
  cbn [app span_digits]. by rewrite Hc, IH.
Qed.

Lemma nearest_nonneg (num den : Z) :
  0 <= num -> 0 < den ->
  0 <= (if 2 * (num mod den) <? den then num / den
        else if den <? 2 * (num mod den) then num / den + 1
        else if Z.even (num / den) then num / den else num / den + 1).
Proof.
  intros Hn Hd. assert (0 <= num / den) by (apply Z.div_pos; lia).
  repeat case_match; lia.
Qed.

Lemma hundredths_nonneg (m : positive) (e : Z) : 0 <= hundredths m e.
Proof.
  unfold hundredths, scale10, fraction.
  change (0 <=? 2) with true. cbn iota.
  destruct (Z.leb_spec 0 e); cbn [fst snd]; apply nearest_nonneg;
    lia || (apply Z.pow_pos_nonneg; lia).
Qed.

Lemma two_digits_spec (n : Z) :
  0 <= n < 100 ->
  exists a c, two_digits n = [a; c]
    ∧ is_digit a = true ∧ is_digit c = true
    ∧ forall ds, digits_value (ds ++ [a; c]) = 100 * digits_value ds + n.
Proof.
  intros Hn. eexists _, _. split; [done|].
  assert (0 <= n / 10 < 10) by (split; [apply Z.div_pos|apply Z.div_lt_upper_bound]; lia).
  assert (0 <= n mod 10 < 10) by (apply Z.mod_pos_bound; lia).
  split; [|split].
  - apply is_digit_spec. lia.
  - apply is_digit_spec. lia.
  - intros ds. change (ds ++ [?a; ?c]) with (ds ++ [a] ++ [c]).
    rewrite app_assoc, !digits_value_snoc.
    rewrite !N2Z.inj_add, !Z2N.id by lia.
    pose proof (Z.div_mod n 10). lia.
Qed.

Lemma numeric_format (neg : bool) (ds : str) (a c : N) :
  Forall (λ c, is_digit c = true) ds -> is_digit a = true -> is_digit c = true ->
  numeric ((if neg then [45%N] else []) ++ ds ++ 46%N :: [a; c]).
Proof.
  intros Hds Ha Hc. apply Forall_app. split.
  - destruct neg; [|constructor]. constructor; [by left|constructor].
  - apply Forall_app. split.
    + eapply Forall_impl; [exact Hds|]. intros; auto.
    + constructor; [by right; left|].
      constructor; [by right; right|].
      constructor; [by right; right|constructor].
Qed.

Lemma digit_not_space (c : N) : is_digit c = true -> isspace c = false.
Proof.
  intros H%is_digit_spec. unfold isspace.
  repeat match goal with
         | |- context [N.leb ?a ?b] => destruct (N.leb_spec a b); try lia
         | |- context [N.eqb ?a ?b] => destruct (N.eqb_spec a b); try lia
         end; done.
Qed.

(** The text of a number with two places is read by [float] as the
    decimal number it shows. *)
Lemma py_float_two_places (neg : bool) (q r : Z) :
  0 <= q -> 0 <= r < 100 ->
  py_float ((if neg then [45%N] else [])
            ++ digits (Z.to_N q) ++ 46%N :: two_digits r)
  = Some (of_decimal neg (100 * q + r) (-2)).
Proof.
  intros Hq Hr.
  destruct (digits_spec (Z.to_N q)) as (Hv & Hds & d & ds & Ed & _).
  destruct (two_digits_spec r Hr) as (a & c & Et & Ha & Hc & Hval).
  rewrite Et. rewrite Z2N.id in Hv by done.
  pose proof (numeric_format neg _ a c Hds Ha Hc) as Hnum.
  assert (is_digit d = true) as Hd
    by (rewrite Ed in Hds; by apply Forall_cons in Hds as [? _]).
  pose proof Hd as Hd'. apply is_digit_spec in Hd'.
  unfold py_float.
  assert (strip ((if neg then [45%N] else []) ++ digits (Z.to_N q) ++ 46%N :: [a; c])
          = (if neg then [45%N] else []) ++ digits (Z.to_N q) ++ 46%N :: [a; c])
    as ->.
  { rewrite Ed. destruct neg; cbn [app].
    - replace (45%N :: d :: ds ++ [46%N; a; c])
        with (45%N :: (d :: ds ++ [46%N; a]) ++ [c])
        by (cbn [app]; by rewrite <- app_assoc).
      apply strip_ends; [done|by apply digit_not_space].
    - replace (d :: ds ++ [46%N; a; c]) with (d :: (ds ++ [46%N; a]) ++ [c])
        by (by rewrite <- app_assoc).
      apply strip_ends; by apply digit_not_space. }
  rewrite underscores_ok_numeric, drop_underscores_numeric by done.
  cbn [negb].
  assert (split_sign ((if neg then [45%N] else [])
                      ++ digits (Z.to_N q) ++ 46%N :: [a; c])
          = (neg, digits (Z.to_N q) ++ 46%N :: [a; c])) as ->.
  { destruct neg; [done|]. rewrite Ed. cbn [app split_sign].
    destruct (N.eqb_spec d 45); [lia|]. destruct (N.eqb_spec d 43); [lia|]. done. }
  destruct (decide _) as [[H|H]|_].
  { rewrite Ed in H. injection H as H _. unfold lower in H.
    repeat case_match; lia. }
  { rewrite Ed in H. injection H as H _. unfold lower in H.
    repeat case_match; lia. }
  destruct (decide _) as [H|_].
  { rewrite Ed in H. injection H as H _. unfold lower in H.
    repeat case_match; lia. }
  rewrite span_digits_point by done.
  change (46 =? 46)%N with true. cbn iota.
  rewrite (span_digits_all [a; c]) by (by repeat constructor).
  rewrite Ed at 1. cbn [app].
  change (d :: ds ++ [a; c]) with ((d :: ds) ++ [a; c]). rewrite <- Ed.
  cbn [read_exponent]. rewrite Hval, Hv. done.
Qed.

Lemma py_float_format_2f (x : float) :
  py_float (format_2f x) = Some (round2 x).
Proof.
  destruct x as [neg|neg| |neg m e].
  - by destruct neg.
  - by destruct neg.
  - done.
  - cbn [format_2f round2].
    pose proof (hundredths_nonneg m e) as Hn.
    rewrite py_float_two_places.
    + by rewrite <- Z.div_mod by lia.
    + apply Z.div_pos; lia.
    + apply Z.mod_pos_bound; lia.
Qed.

(** The characters of the text of a price: signs, points, digits and
    small letters. *)
Definition small (t : str) : Prop :=
  Forall (λ c, (45 <= c <= 57)%N ∨ (97 <= c <= 122)%N) t.

Local Ltac spelled_out :=
  match goal with
  | |- small ?t =>
      let v := eval vm_compute in t in change (small v)
  end;
  unfold small; repeat (apply Forall_cons_2; [lia|]); apply Forall_nil_2.

Lemma format_2f_small (x : float) : small (format_2f x).
Proof.
  destruct x as [neg|neg| |neg m e].
  - destruct neg; spelled_out.
  - destruct neg; spelled_out.
  - spelled_out.
  - cbn [format_2f].
    pose proof (hundredths_nonneg m e) as Hn.
    destruct (digits_spec (Z.to_N (hundredths m e / 100))) as (_ & Hds & _).
    destruct (two_digits_spec (hundredths m e mod 100)) as (a & c & -> & Ha & Hc & _).
    { apply Z.mod_pos_bound; lia. }
    eapply Forall_impl; [by apply (numeric_format neg _ a c Hds Ha Hc)|].
    intros k [->|[->|Hk%is_digit_spec]]; lia.
Qed.

Lemma strip_small (t : str) : small t -> strip t = t.
Proof.
  intros H. destruct t as [|c t]; [done|].
  assert (forall k, ((45 <= k <= 57)%N ∨ (97 <= k <= 122)%N) -> isspace k = false)
    as Hsp.
  { intros k Hk. unfold isspace.
    repeat match goal with
           | |- context [N.leb ?a ?b] => destruct (N.leb_spec a b); try lia
           | |- context [N.eqb ?a ?b] => destruct (N.eqb_spec a b); try lia
           end; done. }
  destruct (decide (t = [])) as [->|Hne].
  - apply Forall_cons in H as [Hc _]. unfold strip. cbn. rewrite (Hsp c Hc).
    cbn. by rewrite (Hsp c Hc).
  - destruct (exists_last Hne) as (mid & d & ->).
    apply Forall_cons in H as [Hc H]. apply Forall_app in H as [_ H].
    apply Forall_cons in H as [Hd _].
    apply strip_ends; by apply Hsp.
Qed.


End PriceText.


(** ** From the gateway to the table *)
Module Feed.
Import PyFloat Gateway SharedMemoryUtils PriceBookFacts PriceText.

(** *** Searching a text *)

Lemma startswith_app (sub s : str) : startswith sub (sub ++ s) = true.
Proof.
  induction sub as [|x sub IH]; [done|]. cbn [app startswith].
  by rewrite decide_True.
Qed.

Lemma find_aux_here (sub s : str) (i : nat) : find_aux sub (sub ++ s) i = Some i.
Proof.
  pose proof (startswith_app sub s) as H.
  destruct (sub ++ s); cbn [find_aux]; by rewrite H.
Qed.

Lemma find_aux_skip (c : N) (sub pre s : str) (i : nat) :
  c ∉ pre ->
  find_aux (c :: sub) (pre ++ s) i = find_aux (c :: sub) s (i + length pre).
Proof.
  revert i. induction pre as [|y pre IH]; intros i Hc.
  - cbn [app length]. by rewrite Nat.add_0_r.
  - apply not_elem_of_cons in Hc as [Hne Hc].
    cbn [app find_aux startswith]. rewrite decide_False by done.
    rewrite IH by done. cbn [length]. f_equal. lia.
Qed.

Lemma find_aux_none (c : N) (sub s : str) (i : nat) :
  c ∉ s -> find_aux (c :: sub) s i = None.
Proof.
  revert i. induction s as [|y s IH]; intros i Hc; [done|].
  apply not_elem_of_cons in Hc as [Hne Hc].
  cbn [find_aux startswith]. rewrite decide_False by done. by apply IH.
Qed.

Lemma not_in_drop (c : N) (n : nat) (s : str) : c ∉ s -> c ∉ drop n s.
Proof.
  intros Hc Hin. apply Hc. rewrite <- (take_drop n s).
  apply elem_of_app. by right.
Qed.

Lemma find_from_found (c : N) (sub pre post : str) (start : Z) :
  0 <= start <= Z.of_nat (length pre) ->
  c ∉ drop (Z.to_nat start) pre ->
  find_from (c :: sub) (pre ++ (c :: sub) ++ post) start
  = Z.of_nat (length pre).
Proof.
  intros Hs Hc. unfold find_from.
  destruct (Z.ltb_spec (Z.of_nat (length (pre ++ (c :: sub) ++ post))) start) as [H|_].
  { rewrite length_app in H. lia. }
  rewrite drop_app_le by lia.
  rewrite find_aux_skip by done. rewrite find_aux_here.
  rewrite length_drop. f_equal. lia.
Qed.

Lemma find_from_missing (c : N) (sub s : str) (start : Z) :
  c ∉ drop (Z.to_nat start) s -> find_from (c :: sub) s start = -1.
Proof.
  intros Hc. unfold find_from. destruct (_ <? _); [done|].
  by rewrite find_aux_none.
Qed.

Lemma slice_middle (pre t post : str) (lo hi : Z) :
  lo = Z.of_nat (length pre) -> hi = Z.of_nat (length pre + length t) ->
  slice (pre ++ t ++ post) lo hi = t.
Proof.
  intros -> ->. unfold slice. rewrite !Nat2Z.id.
  rewrite drop_app_length.
  replace (length pre + length t - length pre)%nat with (length t) by lia.
  by rewrite take_app_length.
Qed.

Lemma absent_behind (c : N) (pre suf : str) (start : Z) :
  Z.of_nat (length pre) <= start -> c ∉ suf ->
  c ∉ drop (Z.to_nat start) (pre ++ suf).
Proof.
  intros Hs Hc. rewrite drop_app_ge by lia. by apply not_in_drop.
Qed.

(** One turn of the loop over the symbols, for a symbol that is found. *)
Lemma parse_step (symbols todo : list str) (raw symbol t : str)
    (book : SharedPriceBook) (w : shm_world) (p hi : Z) :
  find symbol raw = p -> p ≠ -1 ->
  OrderBook.price_end symbols raw symbol (p + Z.of_nat (length symbol) + 1) = hi ->
  slice raw (p + Z.of_nat (length symbol) + 1) hi = t ->
  OrderBook.parse_symbols symbols (symbol :: todo) raw book w
  = match py_float (strip t) with
    | None => (Raise ValueError, w, [])
    | Some x =>
        match update book symbol x w with
        | (Return _, w') =>
            let '(r, w'', evs) := OrderBook.parse_symbols symbols todo raw book w' in
            (r, w'', OrderBook.Updated symbol x :: evs)
        | (Raise e, w') => (Raise e, w', [])
        end
    end.
Proof.
  intros Hf Hp He Hs. cbn [OrderBook.parse_symbols].
  unfold contains. rewrite Hf.
  destruct (Z.eqb_spec p (-1)) as [|_]; [done|]. cbn [negb].
  by rewrite He, Hs.
Qed.

(** *** The message of one tick *)

(** The calls of [update] that a list of ticks stands for, up to the first
    one that raises. *)
Fixpoint apply_ticks (book : SharedPriceBook) (ticks : list (str * float))
    (w : shm_world) : result unit * shm_world * list OrderBook.event :=
  match ticks with
  | [] => (Return (), w, [])
  | (symbol, price) :: ticks' =>
      match update book symbol price w with
      | (Return _, w') =>
          let '(r, w'', evs) := apply_ticks book ticks' w' in
          (r, w'', OrderBook.Updated symbol price :: evs)
      | (Raise e, w') => (Raise e, w', [])
      end
  end.

(** The same for price texts as [float] reads them: a text that is no
    number raises [ValueError] where it stands. *)
Fixpoint apply_texts (book : SharedPriceBook) (ticks : list (str * option float))
    (w : shm_world) : result unit * shm_world * list OrderBook.event :=
  match ticks with
  | [] => (Return (), w, [])
  | (symbol, None) :: _ => (Raise ValueError, w, [])
  | (symbol, Some price) :: ticks' =>
      match update book symbol price w with
      | (Return _, w') =>
          let '(r, w'', evs) := apply_texts book ticks' w' in
          (r, w'', OrderBook.Updated symbol price :: evs)
      | (Raise e, w') => (Raise e, w', [])
      end
  end.

(** The text the gateway builds from three price texts. *)
Definition tick_text (t1 t2 t3 : str) : str :=
  u "AAPL" ++ 44%N :: t1 ++ u "MSFT" ++ 44%N :: t2 ++ u "GOOGL" ++ 44%N :: t3.

(** No capital letter occurs in a text. *)
Definition no_capital (t : str) : Prop := Forall (λ c, ¬ (65 <= c <= 90)%N) t.

Lemma small_no_capital (t : str) : small t -> no_capital t.
Proof. intros H. eapply Forall_impl; [exact H|]. intros c Hc. cbn in Hc. lia. Qed.

Lemma no_capital_absent (c : N) (t : str) :
  (65 <= c <= 90)%N -> no_capital t -> c ∉ t.
Proof.
  intros Hc Ht Hin. unfold no_capital in Ht. rewrite Forall_forall in Ht.
  by apply (Ht c Hin).
Qed.

Local Ltac absent :=
  repeat first
    [ apply not_elem_of_nil
    | apply not_elem_of_cons; split; [done|]
    | apply not_elem_of_app; split
    | apply no_capital_absent; [lia|done] ].

(** The price ingester finds the three price texts in a message of the
    gateway by searching for the symbol names: no price text holds a
    capital letter, so every search stops where the next symbol begins. *)
Lemma parse_tick_texts (t1 t2 t3 : str) (book : SharedPriceBook) (w : shm_world) :
  no_capital t1 -> no_capital t2 -> no_capital t3 ->
  OrderBook.parse_symbols SYMBOLS SYMBOLS (tick_text t1 t2 t3) book w
  = apply_texts book [(u "AAPL", py_float (strip t1));
                      (u "MSFT", py_float (strip t2));
                      (u "GOOGL", py_float (strip t3))] w.
Proof.
  intros H1 H2 H3.
  set (A := [65; 65; 80; 76]%N). set (M := [77; 83; 70; 84]%N).
  set (G := [71; 79; 79; 71; 76]%N).
  set (raw := tick_text t1 t2 t3).
  set (n1 := length t1). set (n2 := length t2). set (n3 := length t3).
  assert (Z.of_nat (length raw) = 16 + Z.of_nat n1 + Z.of_nat n2 + Z.of_nat n3)
    as Hlen.
  { subst raw n1 n2 n3. unfold tick_text.
    repeat (rewrite length_app || rewrite length_cons).
    change (length (u "AAPL")) with 4%nat. change (length (u "MSFT")) with 4%nat.
    change (length (u "GOOGL")) with 5%nat. lia. }
  assert (forall pieces : str,
            pieces = A ++ 44%N :: t1 ++ M ++ 44%N :: t2 ++ G ++ 44%N :: t3 ->
            raw = pieces) as shape.
  { by intros pieces ->. }
  (* where the three names are *)
  assert (forall start, 0 <= start <= 0 -> find_from A raw start = 0) as FA.
  { intros start Hs.
    rewrite (shape ([] ++ (65%N :: [65; 80; 76]%N)
                       ++ (44%N :: t1 ++ M ++ 44%N :: t2 ++ G ++ 44%N :: t3)))
      by done.
    unfold A. rewrite find_from_found; [done|cbn; lia|].
    rewrite drop_nil. apply not_elem_of_nil. }
  assert (forall start, 0 <= start <= 5 + Z.of_nat n1 ->
            find_from M raw start = 5 + Z.of_nat n1) as FM.
  { intros start Hs.
    rewrite (shape ((A ++ 44%N :: t1) ++ (77%N :: [83; 70; 84]%N)
                       ++ (44%N :: t2 ++ G ++ 44%N :: t3)))
      by (by rewrite <- ?app_assoc).
    unfold M. rewrite find_from_found.
    - rewrite length_app. cbn. lia.
    - rewrite length_app. cbn. lia.
    - apply not_in_drop. absent. }
  assert (forall start, 0 <= start <= 10 + Z.of_nat n1 + Z.of_nat n2 ->
            find_from G raw start = 10 + Z.of_nat n1 + Z.of_nat n2) as FG.
  { intros start Hs.
    rewrite (shape ((A ++ 44%N :: t1 ++ M ++ 44%N :: t2)
                       ++ (71%N :: [79; 79; 71; 76]%N) ++ (44%N :: t3)))
      by (cbn [app A]; by rewrite <- ?app_assoc).
    unfold G. rewrite find_from_found.
    - rewrite !length_app. cbn. rewrite !length_app. cbn. lia.
    - rewrite !length_app. cbn. rewrite !length_app. cbn. lia.
    - apply not_in_drop. absent. }
  assert (forall start, 5 <= start -> find_from A raw start = -1) as NA.
  { intros start Hs. apply find_from_missing.
    rewrite (shape ((A ++ [44%N]) ++ (t1 ++ M ++ 44%N :: t2 ++ G ++ 44%N :: t3)))
      by done.
    apply absent_behind; [cbn; lia|]. absent. }
  assert (forall start, 10 + Z.of_nat n1 <= start -> find_from M raw start = -1)
    as NM.
  { intros start Hs. apply find_from_missing.
    rewrite (shape ((A ++ 44%N :: t1 ++ M ++ [44%N]) ++ (t2 ++ G ++ 44%N :: t3)))
      by (cbn [app A M]; by rewrite <- ?app_assoc).
    apply absent_behind.
    - rewrite !length_app. cbn. rewrite !length_app. cbn. lia.
    - absent. }
  (* where the three prices are *)
  assert (slice raw 5 (5 + Z.of_nat n1) = t1) as S1.
  { rewrite (shape ((A ++ [44%N]) ++ t1 ++ (M ++ 44%N :: t2 ++ G ++ 44%N :: t3)))
      by done.
    apply slice_middle; cbn; lia. }
  assert (slice raw (10 + Z.of_nat n1) (10 + Z.of_nat n1 + Z.of_nat n2) = t2) as S2.
  { rewrite (shape ((A ++ 44%N :: t1 ++ M ++ [44%N]) ++ t2 ++ (G ++ 44%N :: t3)))
      by (cbn [app A M]; by rewrite <- ?app_assoc).
    apply slice_middle; rewrite !length_app; cbn; rewrite !length_app; cbn; lia. }
  assert (slice raw (16 + Z.of_nat n1 + Z.of_nat n2) (Z.of_nat (length raw)) = t3)
    as S3.
  { rewrite Hlen.
    rewrite (shape ((A ++ 44%N :: t1 ++ M ++ 44%N :: t2 ++ G ++ [44%N]) ++ t3 ++ []))
      by (cbn [app A M G]; rewrite <- ?app_assoc; cbn [app];
          rewrite <- ?app_assoc; cbn [app]; by rewrite ?app_nil_r).
    apply slice_middle; rewrite !length_app; cbn; rewrite !length_app; cbn;
      rewrite ?length_app; cbn; lia. }
  clear shape.
  assert (forall z, 0 <= z -> negb (z =? -1) = true) as Hnn.
  { intros z Hz. by destruct (Z.eqb_spec z (-1)); [lia|]. }
  assert (OrderBook.price_end [A; M; G] raw A (0 + Z.of_nat (length A) + 1)
          = 5 + Z.of_nat n1) as P1.
  { unfold OrderBook.price_end. cbn [foldl].
    rewrite (bool_decide_eq_true_2 (A = A)) by done.
    rewrite (bool_decide_eq_false_2 (M = A)) by done.
    rewrite (bool_decide_eq_false_2 (G = A)) by done.
    cbn [negb andb]. rewrite FM, FG by (cbn; lia).
    rewrite !Hnn by lia. lia. }
  assert (OrderBook.price_end [A; M; G] raw M
            (5 + Z.of_nat n1 + Z.of_nat (length M) + 1)
          = 10 + Z.of_nat n1 + Z.of_nat n2) as P2.
  { unfold OrderBook.price_end. cbn [foldl].
    rewrite (bool_decide_eq_false_2 (A = M)) by done.
    rewrite (bool_decide_eq_true_2 (M = M)) by done.
    rewrite (bool_decide_eq_false_2 (G = M)) by done.
    cbn [negb andb]. rewrite NA, FG by (cbn; lia).
    change (-1 =? -1) with true. cbn [negb andb].
    rewrite !Hnn by lia. lia. }
  assert (OrderBook.price_end [A; M; G] raw G
            (10 + Z.of_nat n1 + Z.of_nat n2 + Z.of_nat (length G) + 1)
          = Z.of_nat (length raw)) as P3.
  { unfold OrderBook.price_end. cbn [foldl].
    rewrite (bool_decide_eq_false_2 (A = G)) by done.
    rewrite (bool_decide_eq_false_2 (M = G)) by done.
    rewrite (bool_decide_eq_true_2 (G = G)) by done.
    cbn [negb andb]. rewrite NA, NM by (cbn; lia).
    change (-1 =? -1) with true. by cbn [negb andb]. }
  assert (forall lo lo' hi, lo = lo' -> slice raw lo hi = slice raw lo' hi) as Hlo
    by (by intros lo lo' hi ->).
  pose proof (fun w0 =>
    parse_step [A; M; G] [M; G] raw A t1 book w0 0 (5 + Z.of_nat n1)
      (FA 0 ltac:(lia)) ltac:(lia) P1
      (eq_trans (Hlo (0 + Z.of_nat (length A) + 1) 5 _
                     ltac:(unfold A; cbn [length]; lia)) S1)) as Q1.
  pose proof (fun w0 =>
    parse_step [A; M; G] [G] raw M t2 book w0 (5 + Z.of_nat n1)
      (10 + Z.of_nat n1 + Z.of_nat n2)
      (FM 0 ltac:(lia)) ltac:(lia) P2
      (eq_trans (Hlo (5 + Z.of_nat n1 + Z.of_nat (length M) + 1)
                     (10 + Z.of_nat n1) _
                     ltac:(unfold M; cbn [length]; lia)) S2)) as Q2.
  pose proof (fun w0 =>
    parse_step [A; M; G] [] raw G t3 book w0 (10 + Z.of_nat n1 + Z.of_nat n2)
      (Z.of_nat (length raw))
      (FG 0 ltac:(lia)) ltac:(lia) P3
      (eq_trans (Hlo (10 + Z.of_nat n1 + Z.of_nat n2 + Z.of_nat (length G) + 1)
                     (16 + Z.of_nat n1 + Z.of_nat n2) _
                     ltac:(unfold G; cbn [length]; lia)) S3))
    as Q3.
  clearbody raw.
  etrans; [exact (Q1 w)|]. cbn [apply_texts].
  change (u "AAPL") with A. change (u "MSFT") with M. change (u "GOOGL") with G.
  destruct (py_float (strip t1)) as [x1|]; [|done].
  destruct (update book A x1 w) as [[?|e] w1]; [|done].
  etrans; [apply (f_equal (λ x, let '(r, w'', evs) := x in
                                (r, w'', OrderBook.Updated A x1 :: evs)) (Q2 w1))|].
  destruct (py_float (strip t2)) as [x2|]; [|done].
  destruct (update book M x2 w1) as [[?|e] w2]; [|done].
  etrans; [apply (f_equal (λ x, let '(r, w'', evs) := x in
                                (r, w'', OrderBook.Updated A x1 :: evs))
                    (f_equal (λ x, let '(r, w'', evs) := x in
                                   (r, w'', OrderBook.Updated M x2 :: evs)) (Q3 w2)))|].
  destruct (py_float (strip t3)) as [x3|]; [|done].
  destruct (update book G x3 w2) as [[?|e] w3]; done.
Qed.

Lemma parse_tick_text (t1 t2 t3 : str) (x1 x2 x3 : float)
    (book : SharedPriceBook) (w : shm_world) :
  no_capital t1 -> no_capital t2 -> no_capital t3 ->
  py_float (strip t1) = Some x1 ->
  py_float (strip t2) = Some x2 ->
  py_float (strip t3) = Some x3 ->
  OrderBook.parse_symbols SYMBOLS SYMBOLS (tick_text t1 t2 t3) book w
  = apply_ticks book [(u "AAPL", x1); (u "MSFT", x2); (u "GOOGL", x3)] w.
Proof.
  intros H1 H2 H3 E1 E2 E3. rewrite parse_tick_texts, E1, E2, E3 by done.
  cbn [apply_texts apply_ticks].
  destruct (update book (u "AAPL") x1 w) as [[?|e] w1]; [|done].
  destruct (update book (u "MSFT") x2 w1) as [[?|e] w2]; [|done].
  by destruct (update book (u "GOOGL") x3 w2) as [[?|e] w3].
Qed.

(** *** One tick, end to end *)

Lemma update_attached (book : SharedPriceBook) (w : shm_world) (symbol : str)
    (price : float) :
  attached book w ->
  exists w', update book symbol price w = (Return (), w') ∧ attached book w'.
Proof.
  intros Ha. unfold update.
  destruct (symbol_to_index book !! symbol) as [index|] eqn:Hi;
    [|by exists w].
  pose proof Hi as Hsym. rewrite (attached_index _ _ Ha) in Hsym.
  apply index_of_symbols_Some in Hsym.
  destruct Ha as [H1 H2 (m & Hm & Hlen)].
  assert (index < size book)%nat as Hlt
    by (rewrite H2; by apply lookup_lt_Some in Hsym).
  destruct (data_array book w !! index) as [r|] eqn:Hr; cycle 1.
  { apply lookup_ge_None in Hr. unfold data_array in Hr.
    rewrite Hm, length_take in Hr. lia. }
  destruct (data_array_set_price book w index price r Hr)
    as (w' & Hset & _ & Hdata & _).
  exists w'. split; [done|]. split; [done..|].
  exists m. split; [done|].
  assert (length (data_array book w') = size book) as Hl.
  { rewrite Hdata, length_insert. unfold data_array. rewrite Hm, length_take. lia. }
  unfold data_array in Hl. rewrite Hm, length_take in Hl. lia.
Qed.

Lemma apply_ticks_attached (book : SharedPriceBook)
    (ticks : list (str * float)) :
  forall w, attached book w ->
  exists w',
    apply_ticks book ticks w
    = (Return (), w', (λ t, OrderBook.Updated t.1 t.2) <$> ticks)
    ∧ attached book w'.
Proof.
  induction ticks as [|[symbol price] ticks IH]; intros w Ha; [by exists w|].
  cbn [apply_ticks].
  destruct (update_attached book w symbol price Ha) as (w1 & -> & Ha1).
  destruct (IH w1 Ha1) as (w2 & -> & Ha2). by exists w2.
Qed.

(** What the loop over [SYMBOLS] leaves: the three prices after the walk,
    under their symbols, and the text made of them. *)
Lemma price_loop_text (random : nat -> float) (calls : nat)
    (current_prices prices : list (str * float)) (message : str) :
  price_loop SYMBOLS random calls current_prices [] = Return (prices, message) ->
  exists p1 p2 p3,
    dict_get prices (u "AAPL") = Some p1
    ∧ dict_get prices (u "MSFT") = Some p2
    ∧ dict_get prices (u "GOOGL") = Some p3
    ∧ message = tick_text (format_2f p1) (format_2f p2) (format_2f p3).
Proof.
  unfold SYMBOLS. cbn [price_loop].
  destruct (dict_get current_prices (u "AAPL")) as [q1|]; [|done].
  rewrite TableFacts.dict_get_dict_set. rewrite decide_False by done.
  destruct (dict_get current_prices (u "MSFT")) as [q2|]; [|done].
  rewrite !TableFacts.dict_get_dict_set.
  rewrite (decide_False (P := u "GOOGL" = u "MSFT")) by done.
  rewrite (decide_False (P := u "GOOGL" = u "AAPL")) by done.
  destruct (dict_get current_prices (u "GOOGL")) as [q3|]; [|done].
  intros [= <- <-]. eexists _, _, _.
  rewrite !TableFacts.dict_get_dict_set.
  rewrite (decide_False (P := u "AAPL" = u "GOOGL")) by done.
  rewrite (decide_False (P := u "AAPL" = u "MSFT")) by done.
  rewrite (decide_False (P := u "MSFT" = u "GOOGL")) by done.
  rewrite !decide_True by done.
  split; [done|]. split; [done|]. split; [done|].
  unfold tick_text. cbn [app]. by rewrite <- !app_assoc.
Qed.

Lemma tick_text_plain (t1 t2 t3 : str) :
  small t1 -> small t2 -> small t3 ->
  (10%N ∉ tick_text t1 t2 t3) ∧ (tick_text t1 t2 t3 ≠ []).
Proof.
  intros H1 H2 H3. split; [|done].
  assert (forall t, small t -> 10%N ∉ t) as Hs.
  { intros t Ht Hin. unfold small in Ht. rewrite Forall_forall in Ht.
    apply Ht in Hin. lia. }
  unfold tick_text.
  repeat first
    [ apply not_elem_of_nil
    | apply not_elem_of_cons; split; [done|]
    | apply not_elem_of_app; split
    | by apply Hs ].
Qed.

(** One tick of the price stream, from the gateway into the table.  The
    message that [price_streamer] frames for its three symbols is taken
    whole by the price ingester, which finds in it exactly the three prices
    the gateway just walked to: it calls [update] for AAPL, MSFT and GOOGL,
    in this order, each with the price of the gateway rounded to two places
    as the text shows it, and reports no parsing error. *)
Theorem gateway_tick_reaches_the_table (random : nat -> float) (calls : nat)
    (current_prices prices : list (str * float)) (full_message : bytes)
    (book : SharedPriceBook) (w : shm_world) (sock : socket) :
  price_tick random calls current_prices = Return (prices, full_message) ->
  attached book w ->
  exists raw p1 p2 p3 w',
    dict_get prices (u "AAPL") = Some p1
    ∧ dict_get prices (u "MSFT") = Some p2
    ∧ dict_get prices (u "GOOGL") = Some p3
    ∧ OrderBook.receive_framed_message (RecvBytes full_message :: sock) []
      = (Return raw, [], sock)
    ∧ OrderBook.handle_message SYMBOLS book raw w
      = (w', [OrderBook.Updated (u "AAPL") (round2 p1);
              OrderBook.Updated (u "MSFT") (round2 p2);
              OrderBook.Updated (u "GOOGL") (round2 p3)])
    ∧ attached book w'.
Proof.
  intros Htick Ha. unfold price_tick in Htick.
  destruct (price_loop SYMBOLS random calls current_prices [])
    as [[prices0 message]|e] eqn:Hloop; [|done].
  destruct (encode message) as [data|] eqn:Hdata; [|done].
  injection Htick as <- <-.
  apply price_loop_text in Hloop as (p1 & p2 & p3 & G1 & G2 & G3 & ->).
  destruct (tick_text_plain _ _ _ (format_2f_small p1) (format_2f_small p2)
              (format_2f_small p3)) as [Hnl Hne].
  pose proof (TextFacts.encode_no_delimiter _ _ Hdata Hnl) as Hd.
  pose proof (TextFacts.decode_encode _ _ Hdata) as Hdec.
  destruct (apply_ticks_attached book
              [(u "AAPL", round2 p1); (u "MSFT", round2 p2); (u "GOOGL", round2 p3)]
              w Ha) as (w' & Hticks & Ha').
  exists (tick_text (format_2f p1) (format_2f p2) (format_2f p3)), p1, p2, p3, w'.
  split; [done|]. split; [done|]. split; [done|]. split; [|split; [|done]].
  - rewrite Framing.OrderBook_fetch
      by (apply not_elem_of_nil || by destruct data).
    cbn [app]. rewrite <- (app_nil_r MESSAGE_DELIMITER).
    by apply Framing.OrderBook_buffered.
  - unfold OrderBook.handle_message.
    destruct (tick_text _ _ _) as [|c raw'] eqn:Eraw; [done|]. rewrite <- Eraw.
    rewrite (parse_tick_text _ _ _ (round2 p1) (round2 p2) (round2 p3));
      try (apply small_no_capital, format_2f_small);
      try (rewrite strip_small by apply format_2f_small;
           apply py_float_format_2f).
    by rewrite Hticks.
Qed.



(** *** Instances *)

(** A first tick: three prices, and random numbers 0, 1/4 and 1/2. *)
Definition first_tick : result (list (str * float) * bytes) :=
  price_tick (λ n, dyadic (Z.of_nat n) (-2)) 0
             (initial_prices (λ n, dyadic (100 + Z.of_nat n) 0)).

Definition first_prices : list (str * float) :=
  match first_tick with Return (prices, _) => prices | Raise _ => [] end.

Definition first_message : bytes :=
  match first_tick with Return (_, message) => message | Raise _ => [] end.

Lemma gateway_tick_reaches_the_table_witness :
  exists raw p1 p2 p3 w',
    dict_get first_prices (u "AAPL") = Some p1
    ∧ dict_get first_prices (u "MSFT") = Some p2
    ∧ dict_get first_prices (u "GOOGL") = Some p3
    ∧ OrderBook.receive_framed_message [RecvBytes first_message] []
      = (Return raw, [], [])
    ∧ OrderBook.handle_message SYMBOLS Scenario.owner_book raw Scenario.created.2
      = (w', [OrderBook.Updated (u "AAPL") (round2 p1);
              OrderBook.Updated (u "MSFT") (round2 p2);
              OrderBook.Updated (u "GOOGL") (round2 p3)])
    ∧ attached Scenario.owner_book w'.
Proof.
  apply (gateway_tick_reaches_the_table
           (λ n, dyadic (Z.of_nat n) (-2)) 0
           (initial_prices (λ n, dyadic (100 + Z.of_nat n) 0))).
  - vm_compute. reflexivity.
  - apply (init_attached Scenario.SYMBOLS Scenario.SHM_NAME true
             Scenario.empty_world).
    reflexivity.
Defined.

End Feed.

(** ** From the gateway to the strategy *)
Module NewsFeed.
Import PyFloat Json Gateway OrderWire Strategy.


End NewsFeed.


(** ** Framing does not depend on how the bytes are cut *)
Module Chunking.
Import TextFacts Framing SharedMemoryUtils.

(** What a run of the price ingester's reception loop leaves to be seen:
    the exception that ended it, the shared memory and the events. *)
Definition price_outcome
    (r : option (exn * bytes * socket * shm_world * list OrderBook.event))
  : option (exn * shm_world * list OrderBook.event) :=
  (λ x, (x.1.1.1.1, x.1.2, x.2)) <$> r.

(** The same for the order sink's loop. *)
Definition order_outcome
    (r : option (exn * bytes * socket * list OrderManager.event))
  : option (exn * list OrderManager.event) :=
  (λ x, (x.1.1.1, x.2)) <$> r.

(** Chunks as [recv] returns them while the peer has not closed. *)
Definition live (chunks : list bytes) : Prop := Forall (λ chunk, chunk ≠ []) chunks.

Lemma split_at_first (buf : bytes) :
  "010"%byte ∈ buf ->
  exists p r, buf = p ++ MESSAGE_DELIMITER ++ r ∧ "010"%byte ∉ p.
Proof.
  induction buf as [|x buf IH]; [by intros ?%elem_of_nil|].
  destruct (decide (x = "010"%byte)) as [->|Hne].
  - intros _. exists [], buf. split; [done|]. apply not_elem_of_nil.
  - intros [?|Hin]%elem_of_cons; [done|].
    destruct (IH Hin) as (p & r & -> & Hp).
    exists (x :: p), r. split; [done|].
    apply not_elem_of_cons. by split.
Qed.

Lemma OrderBook_received (p r : bytes) (sock : socket) :
  "010"%byte ∉ p ->
  OrderBook.receive_framed_message sock (p ++ MESSAGE_DELIMITER ++ r)
  = (match decode p with
     | Some text => Return text
     | None => Raise SocketStreamClosed
     end, r, sock).
Proof.
  intros Hp. destruct sock; cbn [OrderBook.receive_framed_message];
    rewrite find_delimiter by done;
    (destruct (Z.eqb_spec (Z.of_nat (length p)) (-1)) as [|_]; [lia|]);
    cbn [negb];
    rewrite (proj1 (split_at_delimiter _ _)), (proj2 (split_at_delimiter _ _));
    by destruct (decode p).
Qed.

Lemma OrderManager_received (p r : bytes) (sock : socket) :
  "010"%byte ∉ p ->
  OrderManager.receive_framed_message sock (p ++ MESSAGE_DELIMITER ++ r)
  = (match decode p with
     | Some text => Return text
     | None => Raise UnicodeDecodeError
     end, r, sock).
Proof.
  intros Hp. destruct sock; cbn [OrderManager.receive_framed_message];
    rewrite find_delimiter by done;
    (destruct (Z.eqb_spec (Z.of_nat (length p)) (-1)) as [|_]; [lia|]);
    cbn [negb];
    rewrite (proj1 (split_at_delimiter _ _)), (proj2 (split_at_delimiter _ _));
    by destruct (decode p).
Qed.

Lemma OrderBook_chunking (fuel : nat) (symbols : list str)
    (book : SharedPriceBook) :
  forall chunks buf w, live chunks ->
  price_outcome (OrderBook.message_loop fuel symbols book
                   (RecvBytes <$> chunks) buf w)
  = price_outcome (OrderBook.message_loop fuel symbols book []
                     (buf ++ concat chunks) w).
Proof.
  induction fuel as [|fuel IH]; [done|].
  intros chunks. induction chunks as [|chunk chunks IHc]; intros buf w Hl.
  { cbn [fmap list_fmap concat]. by rewrite app_nil_r. }
  apply Forall_cons in Hl as [Hne Hl].
  destruct (decide ("010"%byte ∈ buf)) as [Hin|Hout].
  - destruct (split_at_first buf Hin) as (p & r & -> & Hp).
    cbn [OrderBook.message_loop].
    rewrite <- !app_assoc, !OrderBook_received by done.
    destruct (decode p) as [text|]; [|done].
    destruct (OrderBook.handle_message symbols book text w) as [w' evs].
    specialize (IH (chunk :: chunks) r w' ltac:(by constructor)).
    unfold price_outcome in *.
    destruct (OrderBook.message_loop fuel symbols book
                (RecvBytes <$> chunk :: chunks) r w') as [[[[[e1 b1] s1] w1] evs1]|];
      destruct (OrderBook.message_loop fuel symbols book []
                  (r ++ concat (chunk :: chunks)) w') as [[[[[e2 b2] s2] w2] evs2]|];
      simplify_eq/=; done.
  - specialize (IHc (buf ++ chunk) w Hl).
    cbn [concat]. rewrite app_assoc, <- IHc.
    cbn [fmap list_fmap OrderBook.message_loop].
    by rewrite OrderBook_fetch.
Qed.

Lemma OrderManager_chunking (fuel : nat) :
  forall chunks buf, live chunks ->
  order_outcome (OrderManager.order_loop fuel (RecvBytes <$> chunks) buf)
  = order_outcome (OrderManager.order_loop fuel [] (buf ++ concat chunks)).
Proof.
  induction fuel as [|fuel IH]; [done|].
  intros chunks. induction chunks as [|chunk chunks IHc]; intros buf Hl.
  { cbn [fmap list_fmap concat]. by rewrite app_nil_r. }
  apply Forall_cons in Hl as [Hne Hl].
  destruct (decide ("010"%byte ∈ buf)) as [Hin|Hout].
  - destruct (split_at_first buf Hin) as (p & r & -> & Hp).
    rewrite !OrderWire.order_loop_S.
    rewrite <- !app_assoc, !OrderManager_received by done.
    destruct (decode p) as [text|]; [|done].
    destruct (Json.loads text) as [[order|e]|]; [|done..].
    destruct (OrderManager.print_executed order); [|done].
    specialize (IH (chunk :: chunks) r ltac:(by constructor)).
    unfold order_outcome in *.
    destruct (OrderManager.order_loop fuel (RecvBytes <$> chunk :: chunks) r)
      as [[[[e1 b1] s1] evs1]|];
      destruct (OrderManager.order_loop fuel [] (r ++ concat (chunk :: chunks)))
      as [[[[e2 b2] s2] evs2]|];
      simplify_eq/=; done.
  - specialize (IHc (buf ++ chunk) Hl).
    cbn [concat]. rewrite app_assoc, <- IHc.
    cbn [fmap list_fmap]. rewrite !OrderWire.order_loop_S.
    by rewrite OrderManager_fetch.
Qed.

(** The messages a consumer handles depend on the bytes of the stream and
    not on the chunks [recv] cuts them into.  Given the same turns, the
    price ingester's reception loop and the order sink's loop end with the
    same exception, after the same updates and the same events, whether the
    bytes arrive in any number of chunks of any sizes or are all in the
    buffer already. *)
Theorem framing_ignores_chunking (fuel : nat) (symbols : list str)
    (book : SharedPriceBook) (chunks : list bytes) (buf : bytes) (w : shm_world) :
  live chunks ->
  price_outcome (OrderBook.message_loop fuel symbols book
                   (RecvBytes <$> chunks) buf w)
  = price_outcome (OrderBook.message_loop fuel symbols book []
                     (buf ++ concat chunks) w)
  ∧ order_outcome (OrderManager.order_loop fuel (RecvBytes <$> chunks) buf)
    = order_outcome (OrderManager.order_loop fuel [] (buf ++ concat chunks)).
Proof.
  intros Hl. split; [by apply OrderBook_chunking|by apply OrderManager_chunking].
Qed.

Lemma framing_ignores_chunking_witness :
  price_outcome (OrderBook.message_loop 5 Scenario.SYMBOLS Scenario.owner_book
                   (RecvBytes <$> [b "01.00MS"; b "FT,205.50" ++ MESSAGE_DELIMITER])
                   (b "AAPL,1") Scenario.created.2)
  = price_outcome (OrderBook.message_loop 5 Scenario.SYMBOLS Scenario.owner_book []
                     (b "AAPL,1"
                      ++ concat [b "01.00MS"; b "FT,205.50" ++ MESSAGE_DELIMITER])
                     Scenario.created.2)
  ∧ order_outcome (OrderManager.order_loop 5
                     (RecvBytes <$> [b "01.00MS"; b "FT,205.50" ++ MESSAGE_DELIMITER])
                     (b "AAPL,1"))
    = order_outcome (OrderManager.order_loop 5 []
                       (b "AAPL,1"
                        ++ concat [b "01.00MS"; b "FT,205.50" ++ MESSAGE_DELIMITER])).
Proof.
  apply framing_ignores_chunking.
  apply (bool_decide_unpack _); vm_compute; exact I.
Defined.

End Chunking.


(** ** A stream of orders into the sink *)
Module Sink.
Import TextFacts Framing Json PyFloat OrderWire Chunking.









End Sink.


(** ** The price stream, tick after tick *)
Module Stream.
Import PyFloat Gateway SharedMemoryUtils PriceBookFacts PriceText Feed Chunking
       TableFacts.

(** The gateway's prices have an entry for each of its symbols. *)
Definition has_symbols (prices : list (str * float)) : Prop :=
  Forall (λ symbol, is_Some (dict_get prices symbol)) SYMBOLS.

(** The table shows the gateway's prices, rounded, for the symbols of the
    gateway that it holds. *)
Definition follows (book : SharedPriceBook) (w : shm_world)
    (prices : list (str * float)) : Prop :=
  forall symbol price,
    symbol ∈ SYMBOLS -> symbol ∈ symbols book ->
    dict_get prices symbol = Some price ->
    dict_get (read_all book w) (U10 symbol) = Some (round2 price).

(** The number of calls of [sendall] that return before the first one that
    raises. *)
Fixpoint returned (sends : list (option exn)) : nat :=
  match sends with
  | None :: sends => S (returned sends)
  | _ => O
  end.

(** Events without an error line. *)
Definition quiet (evs : list OrderBook.event) : Prop :=
  Forall (λ ev, match ev with
                | OrderBook.Message _ | OrderBook.Updated _ _ => True
                | _ => False
                end) evs.

Lemma initial_prices_has_symbols (uniform : nat -> float) :
  has_symbols (initial_prices uniform).
Proof. repeat constructor; by eexists. Qed.

(** One tick of the gateway, from prices that have the symbols. *)
Lemma price_tick_spec (random : nat -> float) (calls : nat)
    (current_prices : list (str * float)) :
  has_symbols current_prices ->
  exists prices data p1 p2 p3,
    price_tick random calls current_prices
    = Return (prices, data ++ MESSAGE_DELIMITER)
    ∧ encode (tick_text (format_2f p1) (format_2f p2) (format_2f p3)) = Some data
    ∧ dict_get prices (u "AAPL") = Some p1
    ∧ dict_get prices (u "MSFT") = Some p2
    ∧ dict_get prices (u "GOOGL") = Some p3
    ∧ has_symbols prices.
Proof.
  intros Hs. unfold has_symbols, SYMBOLS in Hs.
  apply Forall_cons in Hs as [[q1 H1] Hs].
  apply Forall_cons in Hs as [[q2 H2] Hs].
  apply Forall_cons in Hs as [[q3 H3] _].
  destruct (price_loop SYMBOLS random calls current_prices [])
    as [[prices message]|e] eqn:Hloop; cycle 1.
  { exfalso. revert Hloop. unfold SYMBOLS. cbn [price_loop]. rewrite H1.
    rewrite dict_get_dict_set, decide_False by done. rewrite H2.
    rewrite !dict_get_dict_set.
    rewrite (decide_False (P := u "GOOGL" = u "MSFT")) by done.
    rewrite (decide_False (P := u "GOOGL" = u "AAPL")) by done.
    by rewrite H3. }
  pose proof Hloop as Htext.
  apply price_loop_text in Htext as (p1 & p2 & p3 & G1 & G2 & G3 & ->).
  destruct (OrderWire.encode_printable
              (tick_text (format_2f p1) (format_2f p2) (format_2f p3)))
    as (data & Hdata & _).
  { assert (forall t, small t -> OrderWire.printable t) as Hp.
    { intros t Ht. eapply Forall_impl; [exact Ht|]. intros c Hc. cbn in Hc. lia. }
    unfold tick_text, OrderWire.printable.
    change (u "AAPL") with [65; 65; 80; 76]%N.
    change (u "MSFT") with [77; 83; 70; 84]%N.
    change (u "GOOGL") with [71; 79; 79; 71; 76]%N.
    cbn [app]. repeat (apply Forall_cons_2; [lia|]).
    apply Forall_app. split; [apply Hp, format_2f_small|].
    repeat (apply Forall_cons_2; [lia|]).
    apply Forall_app. split; [apply Hp, format_2f_small|].
    repeat (apply Forall_cons_2; [lia|]).
    apply Hp, format_2f_small. }
  exists prices, data, p1, p2, p3. unfold price_tick. rewrite Hloop, Hdata.
  repeat split; try done.
  repeat constructor; by eexists.
Qed.

(** What one [update] does to the snapshot of a table that is laid out. *)
Lemma update_snapshot (book : SharedPriceBook) (w : shm_world)
    (symbol : str) (price : float) :
  laid_out book w -> NoDup (U10 <$> symbols book) ->
  exists w',
    update book symbol price w = (Return (), w')
    ∧ laid_out book w'
    ∧ forall k,
        dict_get (read_all book w') k
        = if decide (symbol ∈ symbols book ∧ k = U10 symbol) then Some price
          else dict_get (read_all book w) k.
Proof.
  intros Hl Hnd.
  destruct (decide (symbol ∈ symbols book)) as [Hin|Hout]; cycle 1.
  { exists w. unfold update.
    rewrite (attached_index _ _ (laid_out_attached _ _ Hl)).
    rewrite (proj2 (index_of_symbols_None _ _) Hout).
    split; [done|]. split; [done|]. intros k. by rewrite decide_False by tauto. }
  destruct (laid_out_row book w symbol Hl Hin) as (index & r & Hi & Hsym & Hr & Hk).
  destruct (update_laid_out book w symbol price index r Hl Hi Hr)
    as (w' & Hu & Hl' & Hdata).
  exists w'. split; [done|]. split; [done|]. intros k.
  unfold read_all. rewrite !dict_get_rows, Hdata. cbn.
  rewrite (latest_insert _ _ _ _ _ Hr), Hk.
  destruct (decide (k = U10 symbol)) as [->|Hne];
    [|by rewrite decide_False by tauto].
  rewrite (decide_True (P := symbol ∈ symbols book ∧ U10 symbol = U10 symbol))
    by done.
  destruct (decide _) as [Hlater|]; [|done].
  exfalso. rewrite <- (laid_out_symbols _ _ Hl) in Hnd.
  rewrite (proj1 (insert_split _ index r r Hr)) in Hnd.
  rewrite fmap_app, fmap_cons in Hnd.
  apply NoDup_app in Hnd as (_ & _ & Hnd). apply NoDup_cons in Hnd as [Hnd _].
  by rewrite Hk in Hnd.
Qed.

(** The three updates of one tick. *)
Lemma tick_snapshot (book : SharedPriceBook) (w : shm_world)
    (x1 x2 x3 : float) :
  laid_out book w -> NoDup (U10 <$> symbols book) ->
  exists w',
    apply_ticks book [(u "AAPL", x1); (u "MSFT", x2); (u "GOOGL", x3)] w
    = (Return (), w', [OrderBook.Updated (u "AAPL") x1;
                       OrderBook.Updated (u "MSFT") x2;
                       OrderBook.Updated (u "GOOGL") x3])
    ∧ laid_out book w'
    ∧ (u "AAPL" ∈ symbols book ->
       dict_get (read_all book w') (U10 (u "AAPL")) = Some x1)
    ∧ (u "MSFT" ∈ symbols book ->
       dict_get (read_all book w') (U10 (u "MSFT")) = Some x2)
    ∧ (u "GOOGL" ∈ symbols book ->
       dict_get (read_all book w') (U10 (u "GOOGL")) = Some x3).
Proof.
  intros Hl Hnd.
  destruct (update_snapshot book w (u "AAPL") x1 Hl Hnd) as (w1 & U1 & L1 & R1).
  destruct (update_snapshot book w1 (u "MSFT") x2 L1 Hnd) as (w2 & U2 & L2 & R2).
  destruct (update_snapshot book w2 (u "GOOGL") x3 L2 Hnd) as (w3 & U3 & L3 & R3).
  exists w3. cbn [apply_ticks]. rewrite U1, U2, U3.
  split; [done|]. split; [done|]. split; [|split].
  - intros Hin. rewrite R3, decide_False by (intros [_ H]; done).
    rewrite R2, decide_False by (intros [_ H]; done).
    by rewrite R1, decide_True.
  - intros Hin. rewrite R3, decide_False by (intros [_ H]; done).
    by rewrite R2, decide_True.
  - intros Hin. by rewrite R3, decide_True.
Qed.

(** The ingester's turn for one message of the gateway. *)
Lemma tick_turn (book : SharedPriceBook) (w w' : shm_world) (p1 p2 p3 : float)
    (evs : list OrderBook.event) (data rest : bytes) (fuel : nat) :
  encode (tick_text (format_2f p1) (format_2f p2) (format_2f p3)) = Some data ->
  apply_ticks book [(u "AAPL", round2 p1); (u "MSFT", round2 p2);
                    (u "GOOGL", round2 p3)] w
  = (Return (), w', evs) ->
  OrderBook.message_loop (S fuel) SYMBOLS book []
    (data ++ MESSAGE_DELIMITER ++ rest) w
  = match OrderBook.message_loop fuel SYMBOLS book [] rest w' with
    | Some (e, buf, sock, w'', evs') =>
        Some (e, buf, sock, w'',
              OrderBook.Message
                (tick_text (format_2f p1) (format_2f p2) (format_2f p3))
              :: evs ++ evs')
    | None => None
    end.
Proof.
  intros Hdata Hticks.
  destruct (tick_text_plain _ _ _ (format_2f_small p1) (format_2f_small p2)
              (format_2f_small p3)) as [Hnl Hne].
  cbn [OrderBook.message_loop].
  rewrite OrderBook_received
    by (by apply (TextFacts.encode_no_delimiter _ _ Hdata)).
  rewrite (TextFacts.decode_encode _ _ Hdata).
  unfold OrderBook.handle_message.
  destruct (tick_text _ _ _) as [|c raw'] eqn:Eraw; [done|]. rewrite <- Eraw.
  rewrite (parse_tick_text _ _ _ (round2 p1) (round2 p2) (round2 p3));
    try (apply small_no_capital, format_2f_small);
    try (rewrite strip_small by apply format_2f_small;
         apply py_float_format_2f).
  by rewrite Hticks.
Qed.

Lemma follows_tick (book : SharedPriceBook) (w : shm_world)
    (prices : list (str * float)) (p1 p2 p3 : float) :
  dict_get prices (u "AAPL") = Some p1 ->
  dict_get prices (u "MSFT") = Some p2 ->
  dict_get prices (u "GOOGL") = Some p3 ->
  (u "AAPL" ∈ symbols book ->
   dict_get (read_all book w) (U10 (u "AAPL")) = Some (round2 p1)) ->
  (u "MSFT" ∈ symbols book ->
   dict_get (read_all book w) (U10 (u "MSFT")) = Some (round2 p2)) ->
  (u "GOOGL" ∈ symbols book ->
   dict_get (read_all book w) (U10 (u "GOOGL")) = Some (round2 p3)) ->
  follows book w prices.
Proof.
  intros G1 G2 G3 R1 R2 R3 symbol price Hs Hin Hp. unfold SYMBOLS in Hs.
  repeat (apply elem_of_cons in Hs as [->|Hs]);
    [| | |by apply elem_of_nil in Hs].
  - rewrite G1 in Hp. injection Hp as <-. by apply R1.
  - rewrite G2 in Hp. injection Hp as <-. by apply R2.
  - rewrite G3 in Hp. injection Hp as <-. by apply R3.
Qed.

Lemma sent_cons (full_message : bytes) (evs : list event) :
  sent (Sent full_message :: evs) = full_message :: sent evs.
Proof. done. Qed.

(** The ticks of a connection, all in the ingester's buffer. *)
Lemma stream_buffered (book : SharedPriceBook) (random : nat -> float)
    (n : nat) :
  NoDup (U10 <$> symbols book) ->
  forall calls prices w,
  has_symbols prices -> laid_out book w ->
  exists calls' prices' evs w' events,
    price_sending (replicate n None) random calls prices
    = (None, calls', prices', evs)
    ∧ length (sent evs) = n
    ∧ has_symbols prices'
    ∧ (forall fuel, (n < fuel)%nat ->
         OrderBook.message_loop fuel SYMBOLS book [] (concat (sent evs)) w
         = Some (SocketStreamClosed, [], [], w', events))
    ∧ laid_out book w' ∧ quiet events
    ∧ ((n = O ∧ w' = w ∧ prices' = prices) ∨ follows book w' prices').
Proof.
  intros Hnd. induction n as [|n IH]; intros calls prices w Hs Hl.
  { exists calls, prices, [], w, [].
    split; [done|]. split; [done|]. split; [done|]. split.
    { intros [|fuel] Hf; [lia|done]. }
    split; [done|]. split; [constructor|by left]. }
  destruct (price_tick_spec random calls prices Hs)
    as (prices1 & data & p1 & p2 & p3 & Htick & Hdata & G1 & G2 & G3 & Hs1).
  destruct (tick_snapshot book w (round2 p1) (round2 p2) (round2 p3) Hl Hnd)
    as (w1 & Hticks & Hl1 & R1 & R2 & R3).
  destruct (IH (calls + length SYMBOLS)%nat prices1 w1 Hs1 Hl1)
    as (calls' & prices' & evs & w' & events & Hsend & Hlen & Hs' & Hloop
        & Hl' & Hq & Hf).
  exists calls', prices', (Sent (data ++ MESSAGE_DELIMITER) :: evs), w'.
  eexists. split; [|split; [|split; [|split; [|split; [|split]]]]].
  - cbn [replicate price_sending]. by rewrite Htick, Hsend.
  - rewrite sent_cons. cbn [length]. by rewrite Hlen.
  - done.
  - intros [|fuel] Hfuel; [lia|].
    rewrite sent_cons. cbn [concat]. rewrite <- app_assoc.
    rewrite (tick_turn book w w1 p1 p2 p3 _ data _ fuel Hdata Hticks).
    rewrite (Hloop fuel) by lia. reflexivity.
  - done.
  - repeat (apply Forall_cons_2; [done|]). done.
  - right. destruct Hf as [(-> & -> & ->)|Hf]; [|done].
    by apply (follows_tick book w1 prices1 p1 p2 p3).
Qed.

(** A connection of the price stream, end to end.  The gateway sends [n]
    ticks and the peer's bytes reach the price ingester in any chunks.  Then
    the ingester's reception loop handles [n] messages without an error
    line and ends when it finds the stream closed; the table is still laid
    out; and if a tick was sent at all, a snapshot of the table shows, for
    every symbol of the gateway that the table holds, the gateway's current
    price rounded to two places. *)
Theorem price_stream_reaches_the_table (n : nat) (random : nat -> float)
    (calls : nat) (prices : list (str * float)) (book : SharedPriceBook)
    (w : shm_world) (chunks : list bytes) :
  has_symbols prices -> laid_out book w -> NoDup (U10 <$> symbols book) ->
  live chunks ->
  concat chunks
  = concat (sent (price_sending (replicate n None) random calls prices).2) ->
  exists w' events,
    price_outcome (OrderBook.message_loop (S n) SYMBOLS book
                     (RecvBytes <$> chunks) [] w)
    = Some (SocketStreamClosed, w', events)
    ∧ quiet events
    ∧ laid_out book w'
    ∧ ((0 < n)%nat ->
       follows book w'
         (price_sending (replicate n None) random calls prices).1.2).
Proof.
  intros Hs Hl Hnd Hlive Hc.
  destruct (stream_buffered book random n Hnd calls prices w Hs Hl)
    as (calls' & prices' & evs & w' & events & Hsend & Hlen & Hs' & Hloop
        & Hl' & Hq & Hf).
  rewrite Hsend in *. cbn [fst snd] in *.
  exists w', events. split; [|split; [done|split; [done|]]].
  - rewrite OrderBook_chunking by done. cbn [app].
    by rewrite Hc, (Hloop (S n)) by lia.
  - intros Hn. destruct Hf as [(-> & _)|Hf]; [lia|done].
Qed.

(** The gateway's sending loop fails on the socket only.  From prices that
    have the three symbols, no tick raises [KeyError] or fails to encode:
    the loop is left by the first exception of [sendall] and by nothing
    else, one message has been sent for every [sendall] that returned, and
    the prices still have the three symbols for the next connection. *)
Theorem price_sending_fails_on_the_socket_only (sends : list (option exn))
    (random : nat -> float) (calls : nat) (prices : list (str * float)) :
  has_symbols prices ->
  let '(r, calls', prices', evs) := price_sending sends random calls prices in
  r = head (omap id sends)
  ∧ has_symbols prices'
  ∧ evs = Sent <$> sent evs
  ∧ length evs = returned sends.
Proof.
  revert calls prices. induction sends as [|outcome sends IH];
    intros calls prices Hs; [done|].
  cbn [price_sending].
  destruct (price_tick_spec random calls prices Hs)
    as (prices1 & data & p1 & p2 & p3 & -> & _ & _ & _ & _ & Hs1).
  destruct outcome as [e|]; [done|].
  specialize (IH (calls + length SYMBOLS)%nat prices1 Hs1).
  destruct (price_sending sends random (calls + length SYMBOLS) prices1)
    as [[[r calls'] prices'] evs].
  destruct IH as (-> & Hs' & Hevs & Hlen). split; [done|]. split; [done|].
  split.
  - rewrite sent_cons. cbn [fmap list_fmap]. by rewrite <- Hevs.
  - cbn [returned length]. by rewrite Hlen.
Qed.

(** *** Instances *)

Lemma price_stream_reaches_the_table_witness :
  exists w' events,
    price_outcome (OrderBook.message_loop 2 SYMBOLS Scenario.owner_book
                     (RecvBytes <$> [take 7 first_message; drop 7 first_message])
                     [] Scenario.created.2)
    = Some (SocketStreamClosed, w', events)
    ∧ quiet events
    ∧ laid_out Scenario.owner_book w'
    ∧ ((0 < 1)%nat ->
       follows Scenario.owner_book w'
         (price_sending (replicate 1 None) (λ n, dyadic (Z.of_nat n) (-2)) 0
            (initial_prices (λ n, dyadic (100 + Z.of_nat n) 0))).1.2).
Proof.
  apply (price_stream_reaches_the_table 1 (λ n, dyadic (Z.of_nat n) (-2)) 0
           (initial_prices (λ n, dyadic (100 + Z.of_nat n) 0))
           Scenario.owner_book Scenario.created.2
           [take 7 first_message; drop 7 first_message]).
  - apply initial_prices_has_symbols.
  - apply (created_laid_out Scenario.SYMBOLS Scenario.SHM_NAME Scenario.empty_world).
    reflexivity.
  - apply (bool_decide_unpack _); vm_compute; exact I.
  - apply (bool_decide_unpack _); vm_compute; exact I.
  - vm_compute. reflexivity.
Defined.

Lemma price_sending_fails_on_the_socket_only_witness :
  let '(r, calls', prices', evs) :=
    price_sending [None; Some ConnectionResetError; None]
      (λ n, dyadic (Z.of_nat n) (-2)) 0
      (initial_prices (λ n, dyadic (100 + Z.of_nat n) 0)) in
  r = head (omap id [None; Some ConnectionResetError; None])
  ∧ has_symbols prices'
  ∧ evs = Sent <$> sent evs
  ∧ length evs
    = returned [None; Some ConnectionResetError; None].
Proof.
  apply (price_sending_fails_on_the_socket_only
           [None; Some ConnectionResetError; None]
           (λ n, dyadic (Z.of_nat n) (-2)) 0
           (initial_prices (λ n, dyadic (100 + Z.of_nat n) 0))).
  apply initial_prices_has_symbols.
Defined.

End Stream.
